(** * Sparta provisioning workflow (provision.go)

    A shallow embedding of the provisioning workflow of [provision.go]:
    the workflow context, the rollback registry, the four workflow steps
    (role verification, build and package, upload, template synthesis and
    stack convergence) and the [Provision] entry point that drives them.

    Conventions of the embedding.
    - Every call that leaves the process (AWS, file system, clock, logger,
      child process) appends one [event] to a history, and its answer is
      read from a [World] of oracles that see the history so far.
    - A Go [error] is its message.  A function returning [(v, error)]
      returns a pair whose second component is [option error].
    - The context is a pointer in Go: a step hands its (mutated) context
      back even when it fails.
    - A goroutine body is run as one unit; the scheduler oracle picks the
      order of the units that a [sync.WaitGroup] joins.
    - Only the string and number fields of a structured log entry are
      kept; the logger's pipe writer of the build step is not modelled. *)

From Stdlib Require Import ZArith.
From stdpp Require Import gmap strings list fin_maps pretty.

Open Scope string_scope.
Open Scope Z_scope.
Open Scope list_scope.

(** ** Values of the template library and of the AWS SDK *)

Definition error := string.

Inductive StringExpr :=
| Literal (s : string)
| GetAtt (resource attribute : string)
| Ref (name : string).

Record Output := { out_Description : string; out_Value : StringExpr }.

Inductive MetaValue :=
| MetaExpr (e : StringExpr)
| MetaOutputs (o : gmap string StringExpr).

Record ResourceProperties := { ResourceType : string; payload : string }.

Record Resource := {
  Properties : ResourceProperties;
  DependsOn : list string;
  Metadata : gmap string MetaValue }.

Record Template := {
  Description : string;
  Resources : gmap string Resource;
  Outputs : gmap string Output }.

(** NewTemplate and AddResource of the template library (go-cloudformation). *)
Definition NewTemplate : Template :=
  {| Description := ""; Resources := ∅; Outputs := ∅ |}.

Definition AddResource (t : Template) (name : string) (p : ResourceProperties) : Template :=
  {| Description := Description t;
     Resources := <[name := {| Properties := p; DependsOn := []; Metadata := ∅ |}]> (Resources t);
     Outputs := Outputs t |}.

Definition setDescription (t : Template) (d : string) : Template :=
  {| Description := d; Resources := Resources t; Outputs := Outputs t |}.

Definition setOutput (t : Template) (k : string) (o : Output) : Template :=
  {| Description := Description t; Resources := Resources t;
     Outputs := <[k := o]> (Outputs t) |}.

Definition setResource (t : Template) (k : string) (r : Resource) : Template :=
  {| Description := Description t; Resources := <[k := r]> (Resources t);
     Outputs := Outputs t |}.

(** cloudformation.StackStatus* and ResourceStatus* of the SDK. *)
Definition StackStatusCreateComplete := "CREATE_COMPLETE".
Definition StackStatusUpdateComplete := "UPDATE_COMPLETE".
Definition StackStatusDeleteComplete := "DELETE_COMPLETE".
Definition StackStatusCreateFailed := "CREATE_FAILED".
Definition StackStatusDeleteFailed := "DELETE_FAILED".
Definition StackStatusRollbackFailed := "ROLLBACK_FAILED".
Definition StackStatusRollbackComplete := "ROLLBACK_COMPLETE".
Definition ResourceStatusCreateFailed := "CREATE_FAILED".
Definition ResourceStatusDeleteFailed := "DELETE_FAILED".
Definition ResourceStatusUpdateFailed := "UPDATE_FAILED".
Definition OnFailureDelete := "DELETE".
Definition ExpirationStatusEnabled := "Enabled".

Record StackOutput := { OutputKey : string; OutputValue : string; OutputDescription : string }.

Record Stack := {
  StackId : string;
  StackName : string;
  StackStatus : string;
  StackOutputs : list StackOutput;
  CreationTime : string }.

Record StackEvent := {
  ResourceStatus : string;
  EventResourceType : string;
  LogicalResourceId : string;
  ResourceStatusReason : string }.

Inductive FileMode := ModeDir | ModeRegular | ModeOther.
Record FileInfo := { fi_Size : Z; fi_Mode : FileMode }.

(** One visit of filepath.Walk: the path, what Lstat said, and the error
    Walk hands to the walker. *)
Record WalkEntry := { we_path : string; we_isDir : bool; we_err : option error }.

(** ** Descriptors declared outside provision.go

    The workflow only calls methods on them, so each is the record of the
    answers of those methods. *)

Record EventSourceMapping := { EventSourceArn : string }.

Record IAMRoleDefinition := {
  logicalName : string;
  toResource : list EventSourceMapping -> ResourceProperties }.

Record LambdaAWSInfo := {
  lambdaFnName : string;
  jsHandlerName : string;
  RoleName : string;
  RoleDefinition : option IAMRoleDefinition;
  EventSourceMappings : list EventSourceMapping;
  (* export(serviceName, S3Bucket, S3Key, roleNameMap, template, logger) *)
  lambda_export : string -> string -> string -> gmap string StringExpr ->
                  Template -> Template * option error }.

Record API := {
  (* export(S3Bucket, S3Key, roleNameMap, template, logger) *)
  api_export : string -> string -> gmap string StringExpr ->
               Template -> Template * option error }.

Record S3Site := {
  resources : string;
  (* export(S3Bucket, S3Key, S3ResourcesKey, apiGatewayOutputs, roleNameMap, template, logger) *)
  site_export : string -> string -> string -> gmap string Output ->
                gmap string StringExpr -> Template -> Template * option error }.

(** ** Events and the history *)

Inductive level := DebugLevel | InfoLevel | WarnLevel | ErrorLevel.

Definition Writer := string.

Inductive event :=
| EvLog (lvl : level) (msg : string) (fields : list (string * string))
| EvAwsSession
| EvTimeNow
| EvTimeSince
| EvIAMGetRole (roleName : string)
| EvS3GetBucketLifecycleConfiguration (bucket : string)
| EvS3Upload (bucket key contentType : string)
| EvS3DeleteObject (bucket key : string)
| EvCFDescribeStacks (stackName : string)
| EvCFUpdateStack (stackName templateURL : string) (capabilities : list string)
| EvCFCreateStack (stackName templateURL : string) (timeoutInMinutes : Z)
                  (onFailure : string) (capabilities : list string)
| EvCFDescribeStackEvents (stackName : string) (nextToken : option string)
| EvSleep (seconds : Z)
| EvRandInt31n (n : Z)
| EvGetwd
| EvTempFile (dir name : string)
| EvOpen (path : string)
| EvClose (path : string)
| EvRemove (path : string)
| EvStat (path : string)
| EvAbs (path : string)
| EvWalk (root : string)
| EvExec (args : list string) (env : list string)
| EvZipCreate (archive entry : string)
| EvZipCreateHeader (archive entry : string) (deflate : bool)
| EvZipClose (archive : string)
| EvCopy (dst src : string)
| EvWriteString (w : Writer) (s : string).

Abbreviation trace := (list event).

(** ** The world outside the process *)

Record World := {
  (* which of [n] runnable goroutines runs next *)
  sched : trace -> nat -> nat;
  (* how many iterations of an unbounded loop are followed *)
  loopFuel : nat;
  time_Since : trace -> string;
  rand_Int31n : trace -> Z -> Z;
  iam_GetRole : trace -> string -> error + string;
  s3_GetBucketLifecycleConfiguration : trace -> string -> error + list string;
  s3_Upload : trace -> string -> string -> error + string;
  s3_DeleteObject : trace -> string -> string -> option error;
  cf_DescribeStacks : trace -> string -> error + list Stack;
  cf_UpdateStack : trace -> string -> string -> list string -> error + string;
  cf_CreateStack : trace -> string -> string -> list string -> error + string;
  cf_DescribeStackEvents : trace -> string -> option string ->
                           error + (list StackEvent * option string);
  os_Getwd : trace -> error + string;
  ioutil_TempFile : trace -> string -> string -> error + string;
  os_Open : trace -> string -> option error;
  os_Remove : trace -> string -> option error;
  os_Stat : trace -> string -> error + FileInfo;
  filepath_Abs : trace -> string -> error + string;
  filepath_Walk : trace -> string -> list WalkEntry;
  exec_Run : trace -> list string -> option error;
  zip_Create : trace -> string -> string -> option error;
  zip_CreateHeader : trace -> string -> string -> option error;
  io_Copy : trace -> string -> string -> option error }.

(** Functions of the repository and of the Go library that provision.go
    calls and that are declared elsewhere. *)
Record Collaborators := {
  sanitizedName : string -> string;
  SpartaVersion : string;
  TagStackRegion : string;
  TagStackID : string;
  TagStackName : string;
  escFSMustString : string -> string;
  escFSByte : string -> error + string;
  zip_NewReader : string -> error + list string;
  zipFile_Open : string -> option error;
  zip_FileInfoHeader : string -> option error;
  safeMergeTemplates : Template -> Template -> Template * option error;
  outputsForResource : Template -> string -> option (gmap string StringExpr);
  safeMetadataInsert : Resource -> string -> MetaValue -> Resource;
  filepath_Base : string -> string;
  path_Base : string -> string;
  json_Marshal : Template -> error + string;
  json_MarshalIndent : string -> error + string;
  sha1_hex : string -> string }.

(** ** The monad of a provisioning run *)

Inductive panic := NilSiteContext | NilRoleDefinition.

Inductive outcome (A : Type) :=
| Done (a : A)
| Panicked (p : panic)
| Diverged.
Arguments Done {A} a.
Arguments Panicked {A} p.
Arguments Diverged {A}.

Definition M (A : Type) : Type := trace -> outcome A * trace.

Definition ret {A} (a : A) : M A := fun h => (Done a, h).

Definition bind {A B} (m : M A) (k : A -> M B) : M B :=
  fun h => match m h with
           | (Done a, h') => k a h'
           | (Panicked p, h') => (Panicked p, h')
           | (Diverged, h') => (Diverged, h')
           end.

#[global] Instance M_ret : MRet M := @ret.
#[global] Instance M_bind : MBind M := fun A B k m => bind m k.

(** An outside call: record it, answer from the oracle. *)
Definition call {A} (e : event) (oracle : trace -> A) : M A :=
  fun h => (Done (oracle h), h ++ [e]).

Definition emit (e : event) : M unit := call e (fun _ => tt).

Definition raise {A} (p : panic) : M A := fun h => (Panicked p, h).

Definition diverge {A} : M A := fun h => (Diverged, h).

Definition logf (lvl : level) (msg : string) (fields : list (string * string)) : M unit :=
  emit (EvLog lvl msg fields).

(** Go's [defer]: the cleanup runs when the body returns or panics. *)
Definition defer_ {A} (cleanup : M unit) (body : M A) : M A :=
  fun h => match body h with
           | (Diverged, h1) => (Diverged, h1)
           | (r, h1) =>
               match cleanup h1 with
               | (Done _, h2) => (r, h2)
               | (Panicked p, h2) => (Panicked p, h2)
               | (Diverged, h2) => (Diverged, h2)
               end
           end.

(** [for _, x := range l { ... }] over a state [s], stopping at the first
    [return]: the body answers [inl s'] to go on and [inr r] to return. *)
Fixpoint forRange {X S R} (body : S -> X -> M (S + R)) (l : list X) (s : S) : M (S + R) :=
  match l with
  | [] => ret (inl s)
  | x :: l' => r ← body s x;
               match r with
               | inl s' => forRange body l' s'
               | inr v => ret (inr v)
               end
  end.

(** The order in which [n = length l] joined goroutines run. *)
Fixpoint schedule {X} (pick : nat -> nat) (n : nat) (l : list X) : list X :=
  match n with
  | O => []
  | S n' =>
      let i := (pick n' `mod` length l)%nat in
      match l !! i with
      | Some x => x :: schedule pick n' (delete i l)
      | None => []
      end
  end.

Definition history : M trace := fun h => (Done h, h).

Definition nl : string := String (Ascii.ascii_of_nat 10) "".
Definition dquote : string := String (Ascii.ascii_of_nat 34) "".

(** strings.TrimPrefix *)
Definition strings_TrimPrefix (s prefix : string) : string :=
  if String.prefix prefix s
  then String.substring (String.length prefix) (String.length s - String.length prefix) s
  else s.

(** strings.Contains *)
Fixpoint strings_Contains (s sub : string) : bool :=
  String.prefix sub s ||
  match s with
  | EmptyString => false
  | String _ s' => strings_Contains s' sub
  end.

(** ** Workflow context *)

(** Rollback function called in the event of a stack provisioning failure. *)
Definition rollbackFunction : Type := M (option error).

(** Data associated with provisioning the S3 site iff defined. *)
Record s3SiteContext := {
  s3Site : option S3Site;
  s3SiteLambdaZipKey : string }.

(** The context handed to every step.  [ctx_s3SiteContext] is the pointer
    field [s3SiteContext] ([None] is the nil pointer); the session and
    logger handles carry no data of their own and are left out. *)
Record workflowContext := {
  noop : bool;
  serviceName : string;
  serviceDescription : string;
  lambdaAWSInfos : list LambdaAWSInfo;
  api : option API;
  ctx_s3SiteContext : option s3SiteContext;
  cfTemplate : Template;
  lambdaIAMRoleNameMap : gmap string StringExpr;
  s3Bucket : string;
  s3LambdaZipKey : string;
  templateWriter : option Writer;
  rollbackFunctions : list rollbackFunction }.

Definition set_cfTemplate (ctx : workflowContext) (t : Template) : workflowContext :=
  {| noop := noop ctx; serviceName := serviceName ctx;
     serviceDescription := serviceDescription ctx;
     lambdaAWSInfos := lambdaAWSInfos ctx; api := api ctx;
     ctx_s3SiteContext := ctx_s3SiteContext ctx; cfTemplate := t;
     lambdaIAMRoleNameMap := lambdaIAMRoleNameMap ctx; s3Bucket := s3Bucket ctx;
     s3LambdaZipKey := s3LambdaZipKey ctx; templateWriter := templateWriter ctx;
     rollbackFunctions := rollbackFunctions ctx |}.

Definition set_lambdaIAMRoleNameMap (ctx : workflowContext) (m : gmap string StringExpr)
  : workflowContext :=
  {| noop := noop ctx; serviceName := serviceName ctx;
     serviceDescription := serviceDescription ctx;
     lambdaAWSInfos := lambdaAWSInfos ctx; api := api ctx;
     ctx_s3SiteContext := ctx_s3SiteContext ctx; cfTemplate := cfTemplate ctx;
     lambdaIAMRoleNameMap := m; s3Bucket := s3Bucket ctx;
     s3LambdaZipKey := s3LambdaZipKey ctx; templateWriter := templateWriter ctx;
     rollbackFunctions := rollbackFunctions ctx |}.

Definition set_s3LambdaZipKey (ctx : workflowContext) (k : string) : workflowContext :=
  {| noop := noop ctx; serviceName := serviceName ctx;
     serviceDescription := serviceDescription ctx;
     lambdaAWSInfos := lambdaAWSInfos ctx; api := api ctx;
     ctx_s3SiteContext := ctx_s3SiteContext ctx; cfTemplate := cfTemplate ctx;
     lambdaIAMRoleNameMap := lambdaIAMRoleNameMap ctx; s3Bucket := s3Bucket ctx;
     s3LambdaZipKey := k; templateWriter := templateWriter ctx;
     rollbackFunctions := rollbackFunctions ctx |}.

Definition set_s3SiteContext (ctx : workflowContext) (s : option s3SiteContext)
  : workflowContext :=
  {| noop := noop ctx; serviceName := serviceName ctx;
     serviceDescription := serviceDescription ctx;
     lambdaAWSInfos := lambdaAWSInfos ctx; api := api ctx;
     ctx_s3SiteContext := s; cfTemplate := cfTemplate ctx;
     lambdaIAMRoleNameMap := lambdaIAMRoleNameMap ctx; s3Bucket := s3Bucket ctx;
     s3LambdaZipKey := s3LambdaZipKey ctx; templateWriter := templateWriter ctx;
     rollbackFunctions := rollbackFunctions ctx |}.

Definition set_rollbackFunctions (ctx : workflowContext) (fs : list rollbackFunction)
  : workflowContext :=
  {| noop := noop ctx; serviceName := serviceName ctx;
     serviceDescription := serviceDescription ctx;
     lambdaAWSInfos := lambdaAWSInfos ctx; api := api ctx;
     ctx_s3SiteContext := ctx_s3SiteContext ctx; cfTemplate := cfTemplate ctx;
     lambdaIAMRoleNameMap := lambdaIAMRoleNameMap ctx; s3Bucket := s3Bucket ctx;
     s3LambdaZipKey := s3LambdaZipKey ctx; templateWriter := templateWriter ctx;
     rollbackFunctions := fs |}.

(** Type of a workflow step: it returns the next step or an error if the
    overall workflow should stop. *)
#[warnings="-register-all"]
Inductive workflowStep :=
| Step (run : workflowContext -> M (workflowContext * option workflowStep * option error)).

Definition stepResult : Type := workflowContext * option workflowStep * option error.

(** Register a rollback function. *)
Definition registerRollback (ctx : workflowContext) (userFunction : rollbackFunction)
  : workflowContext :=
  set_rollbackFunctions ctx (rollbackFunctions ctx ++ [userFunction]).

Section Workflow.

Context (C : Collaborators) (w : World).

(** One goroutine of [rollback]: run the cleanup, warn when it fails. *)
Definition rollbackUnit (cleanupFunc : rollbackFunction) : M unit :=
  err ← cleanupFunc;
  match err with
  | Some e => logf WarnLevel "Failed to cleanup resource" [("Error", e)]
  | None => mret tt
  end.

Fixpoint runAll (units : list (M unit)) : M unit :=
  match units with
  | [] => mret tt
  | u :: us => u;; runAll us
  end.

(** Run any provided rollback functions, concurrently, and wait for all. *)
Definition rollback (ctx : workflowContext) : M unit :=
  logf InfoLevel "Invoking rollback functions"
       [("RollbackCount", pretty (length (rollbackFunctions ctx)))];;
  h ← history;
  runAll (rollbackUnit <$>
            schedule (sched w h) (length (rollbackFunctions ctx)) (rollbackFunctions ctx)).

(** Create a temporary file in the current working directory. *)
Definition temporaryFile (name : string) : M (error + string) :=
  wd ← call EvGetwd (os_Getwd w);
  match wd with
  | inl err => mret (inl err)
  | inr workingDir =>
      f ← call (EvTempFile workingDir name) (fun h => ioutil_TempFile w h workingDir name);
      match f with
      | inl _ => mret (inl "Failed to create temporary file")
      | inr tmpFile => mret (inr tmpFile)
      end
  end.

(** Ensure that the bucket used for archives has an object expiration
    policy. *)
Definition ensureExpirationPolicy (S3Bucket : string) (noop : bool) : M (option error) :=
  if noop then
    logf InfoLevel
         "Bypassing bucket expiration policy check due to -n/-noop command line argument"
         [("BucketName", S3Bucket)];;
    mret None
  else
    resp ← call (EvS3GetBucketLifecycleConfiguration S3Bucket)
                (fun h => s3_GetBucketLifecycleConfiguration w h S3Bucket);
    let showWarning :=
      match resp with
      | inl err => strings_Contains err "NoSuchLifecycleConfiguration"
      | inr rules =>
          foldl (fun showWarning status =>
                   if bool_decide (status = ExpirationStatusEnabled) then false
                   else showWarning)
                false rules
      end in
    match resp, showWarning with
    | inl err, false => mret (Some ("Failed to fetch S3 Bucket Policy: " +:+ err))
    | _, true =>
        logf WarnLevel "Bucket should have ObjectExpiration lifecycle enabled."
             [("Bucket", S3Bucket);
              ("Reference",
               "http://docs.aws.amazon.com/AmazonS3/latest/dev/how-to-set-lifecycle-configuration-intro.html")];;
        mret None
    | _, false =>
        logf DebugLevel "Bucket lifecycle configuration" [("Bucket", S3Bucket)];;
        mret None
    end.

(** The deferred function of [uploadLocalFileToS3]. *)
Definition uploadCleanup (packagePath : string) : M unit :=
  emit (EvClose packagePath);;
  err ← call (EvRemove packagePath) (fun h => os_Remove w h packagePath);
  match err with
  | Some e => logf WarnLevel "Failed to delete local file" [("Path", packagePath); ("Error", e)]
  | None => mret tt
  end.

(** Upload a local file to S3.  Returns the key of the uploaded item, or
    an error. *)
Definition uploadLocalFileToS3 (packagePath S3Bucket : string) (noop : bool)
  : M (string * option error) :=
  err ← ensureExpirationPolicy S3Bucket noop;
  match err with
  | Some e => mret ("", Some ("Failed to ensure bucket policies: " +:+ e))
  | None =>
      oerr ← call (EvOpen packagePath) (fun h => os_Open w h packagePath);
      match oerr with
      | Some e => mret ("", Some ("Failed to open local archive for S3 upload: " +:+ e))
      | None =>
          defer_ (uploadCleanup packagePath)
            (let keyName := filepath_Base C packagePath in
             if noop then
               logf InfoLevel "Bypassing S3 ZIP upload due to -n/-noop command line argument"
                    [("Bucket", S3Bucket); ("Key", keyName)];;
               mret (keyName, None)
             else
               logf InfoLevel "Uploading local file to S3" [("Source", packagePath)];;
               result ← call (EvS3Upload S3Bucket keyName "application/zip")
                             (fun h => s3_Upload w h S3Bucket keyName);
               match result with
               | inl e => mret ("", Some e)
               | inr location =>
                   logf InfoLevel "Upload complete" [("URL", location)];;
                   mret (keyName, None)
               end)
      end
  end.

(** Creates an S3 rollback function that attempts to delete a previously
    uploaded item. *)
Definition createS3RollbackFunc (s3Bucket s3Key : string) (noop : bool) : rollbackFunction :=
  if negb noop then
    logf InfoLevel ("Attempting to cleanup S3 item: " +:+ s3Key) [];;
    err ← call (EvS3DeleteObject s3Bucket s3Key) (fun h => s3_DeleteObject w h s3Bucket s3Key);
    match err with
    | Some e => logf WarnLevel "Failed to delete S3 item during rollback cleanup" [("Error", e)]
    | None => logf DebugLevel "Item deleted during rollback cleanup"
                   [("Bucket", s3Bucket); ("Key", s3Key)]
    end;;
    mret err
  else
    logf InfoLevel "Bypassing rollback cleanup " [("S3Bucket", s3Bucket); ("S3Key", s3Key)];;
    mret None.

(** ** Stack convergence *)

(** Return the StackEvents for the given StackName/StackID. *)
Fixpoint stackEvents_loop (fuel : nat) (stackID nextToken : string)
         (events : list StackEvent) : M (list StackEvent * option error) :=
  match fuel with
  | O => diverge
  | S fuel' =>
      let token := if bool_decide (nextToken = "") then None else Some nextToken in
      resp ← call (EvCFDescribeStackEvents stackID token)
                  (fun h => cf_DescribeStackEvents w h stackID token);
      match resp with
      | inl err => mret ([], Some err)
      | inr (stackEvents, next) =>
          let events := events ++ stackEvents in
          match next with
          | None => mret (events, None)
          | Some t => stackEvents_loop fuel' stackID t events
          end
      end
  end.

Definition stackEvents (stackID : string) : M (list StackEvent * option error) :=
  stackEvents_loop (loopFuel w) stackID "" [].

(** Does a given stack exist? *)
Definition stackExists (stackNameOrID : string) : M (bool * option error) :=
  r ← call (EvCFDescribeStacks stackNameOrID) (fun h => cf_DescribeStacks w h stackNameOrID);
  logf DebugLevel "DescribeStackOutput results" [];;
  match r with
  | inl err =>
      logf DebugLevel "DescribeStackOutput" [("DescribeStackOutputError", err)];;
      if strings_Contains err "does not exist" then mret (false, None)
      else mret (false, Some err)
  | inr _ => mret (true, None)
  end.

(** One iteration of the loop of [stackCapabilities]. *)
Definition stackCapabilities_each (capabilities : list string) (eachResource : Resource)
  : list string :=
  if bool_decide (ResourceType (Properties eachResource) = "AWS::IAM::Role") then
    let found :=
      foldl (fun found eachElement => found || bool_decide (eachElement = "CAPABILITY_IAM"))
            false capabilities in
    if negb found then capabilities ++ ["CAPABILITY_IAM"] else capabilities
  else capabilities.

(** [stackCapabilities] along one enumeration of the resource map. *)
Definition stackCapabilities_range (rs : list Resource) : list string :=
  foldl stackCapabilities_each [] rs.

(** Only require IAM capability if the definition requires it. *)
Definition stackCapabilities (template : Template) : list string :=
  stackCapabilities_range (map_to_list (Resources template)).*2.

(** The [switch] on the stack status inside the poll loop: the new values
    of [(convegeStackStateSucceeded, waitComplete)]. *)
Definition stackStatusSwitch (status : string) (convegeStackStateSucceeded : bool)
  : bool * bool :=
  if bool_decide (status = StackStatusCreateComplete)
     || bool_decide (status = StackStatusUpdateComplete)
  then (true, true)
  else if bool_decide (status = StackStatusDeleteComplete)
          || bool_decide (status = StackStatusCreateFailed)
          || bool_decide (status = StackStatusDeleteFailed)
          || bool_decide (status = StackStatusRollbackFailed)
          || bool_decide (status = StackStatusRollbackComplete)
  then (false, true)
  else (convegeStackStateSucceeded, false).

(** The poll loop [for waitComplete := false; !waitComplete; { ... }]:
    the stack description and [convegeStackStateSucceeded] once the loop
    is left, or the error it returns with.  [rand.Int31n(13)] answers in
    [0, 13): the oracle's answer is reduced accordingly.  The loop has no
    bound of its own; the model follows it for [fuel] iterations. *)
Fixpoint pollLoop (fuel : nat) (exists_ : bool) (stackID : string)
         (convegeStackStateSucceeded : bool) : M (Stack * bool + error) :=
  match fuel with
  | O => diverge
  | S fuel' =>
      r ← call (EvRandInt31n 13) (fun h => rand_Int31n w h 13 `mod` 13);
      emit (EvSleep (11 + r));;
      out ← call (EvCFDescribeStacks stackID) (fun h => cf_DescribeStacks w h stackID);
      match out with
      | inl err => mret (inr err)
      | inr [] => mret (inr ("Failed to enumerate stack info: " +:+ stackID))
      | inr (stackInfo :: _) =>
          match stackStatusSwitch (StackStatus stackInfo) convegeStackStateSucceeded with
          | (succeeded, true) => mret (inl (stackInfo, succeeded))
          | (succeeded, false) =>
              logf InfoLevel (if exists_ then "Waiting for UpdateStack to complete"
                              else "Waiting for CreateStack to complete") [];;
              pollLoop fuel' exists_ stackID succeeded
          end
      end
  end.

Definition logFailedEvent (eachEvent : StackEvent) : M unit :=
  if bool_decide (ResourceStatus eachEvent = ResourceStatusCreateFailed)
     || bool_decide (ResourceStatus eachEvent = ResourceStatusDeleteFailed)
     || bool_decide (ResourceStatus eachEvent = ResourceStatusUpdateFailed)
  then logf ErrorLevel
            (String.concat ""
               [String (Ascii.ascii_of_nat 9) "Error ensuring ";
                EventResourceType eachEvent; " ("; LogicalResourceId eachEvent; "): ";
                ResourceStatusReason eachEvent]) []
  else mret tt.

Definition logStackOutput (eachOutput : StackOutput) : M unit :=
  logf InfoLevel "Stack output"
       [("Key", OutputKey eachOutput); ("Value", OutputValue eachOutput);
        ("Description", OutputDescription eachOutput)].

(** Converge the stack to the new state, taking into account whether it
    was previously provisioned. *)
Definition convergeStackState (cfTemplateURL : string) (ctx : workflowContext)
  : M (option Stack * option error) :=
  '(exists_, err) ← stackExists (serviceName ctx);
  match err with
  | Some e => mret (None, Some e)
  | None =>
      let capabilities := stackCapabilities (cfTemplate ctx) in
      issued ←
        (if exists_ then
           resp ← call (EvCFUpdateStack (serviceName ctx) cfTemplateURL capabilities)
                       (fun h => cf_UpdateStack w h (serviceName ctx) cfTemplateURL capabilities);
           match resp with
           | inl e => mret (inl e)
           | inr stackId =>
               logf InfoLevel "Issued stack update request" [("StackID", stackId)];;
               mret (inr stackId)
           end
         else
           resp ← call (EvCFCreateStack (serviceName ctx) cfTemplateURL 5 OnFailureDelete
                                        capabilities)
                       (fun h => cf_CreateStack w h (serviceName ctx) cfTemplateURL capabilities);
           match resp with
           | inl e => mret (inl e)
           | inr stackId =>
               logf InfoLevel "Creating stack" [("StackID", stackId)];;
               mret (inr stackId)
           end);
      match issued with
      | inl e => mret (None, Some e)
      | inr stackID =>
          polled ← pollLoop (loopFuel w) exists_ stackID false;
          match polled with
          | inr e => mret (None, Some e)
          | inl (stackInfo, false) =>
              '(events, err) ← stackEvents stackID;
              match err with
              | Some e => mret (None, Some e)
              | None =>
                  logf ErrorLevel "Stack provisioning error" [];;
                  runAll (logFailedEvent <$> events);;
                  mret (None, Some ("Failed to provision: " +:+ serviceName ctx))
              end
          | inl (stackInfo, true) =>
              runAll (logStackOutput <$> StackOutputs stackInfo);;
              mret (Some stackInfo, None)
          end
      end
  end.

(** ** Template synthesis and the final step *)

Definition OutputSpartaHomeKey := "SpartaHome".
Definition OutputSpartaVersionKey := "SpartaVersion".

Definition failStep (ctx : workflowContext) (err : error) : M stepResult :=
  mret (ctx, None, Some err).

(** The loop over the function descriptors: each exports into the shared
    template; the first error returns. *)
Definition exportLambda (ctx : workflowContext) (eachEntry : LambdaAWSInfo)
  : M (workflowContext + stepResult) :=
  let '(t, err) := lambda_export eachEntry (serviceName ctx) (s3Bucket ctx)
                     (s3LambdaZipKey ctx) (lambdaIAMRoleNameMap ctx) (cfTemplate ctx) in
  let ctx := set_cfTemplate ctx t in
  match err with
  | Some e => mret (inr (ctx, None, Some e))
  | None => mret (inl ctx)
  end.

(** [safeMetadataInsert] on the resource stored under [k]. *)
Definition insertMetadata (t : Template) (k key : string) (v : MetaValue) : Template :=
  match Resources t !! k with
  | Some r => setResource t k (safeMetadataInsert C r key v)
  | None => t
  end.

Definition exchangeDependency (k : string) (t : Template) (eachDependsKey : string)
  : M (Template + unit) :=
  match outputsForResource C t eachDependsKey with
  | Some dependencyOutputs =>
      if bool_decide (size dependencyOutputs ≠ 0%nat) then
        logf DebugLevel "Resource metadata" [("Resource", eachDependsKey)];;
        mret (inl (insertMetadata t k eachDependsKey (MetaOutputs dependencyOutputs)))
      else mret (inl t)
  | None => mret (inl t)
  end.

(** Next pass: exchange outputs between dependencies, for Lambda functions. *)
Definition exchangeOutputs (t : Template) (entry : string * Resource) : M (Template + unit) :=
  let '(k, eachResource) := entry in
  if bool_decide (ResourceType (Properties eachResource) = "AWS::Lambda::Function") then
    r ← forRange (exchangeDependency k) (DependsOn eachResource) t;
    let t := match r with inl t' => t' | inr _ => t end in
    let t := insertMetadata t k (TagStackRegion C) (MetaExpr (Ref "AWS::Region")) in
    let t := insertMetadata t k (TagStackID C) (MetaExpr (Ref "AWS::StackId")) in
    let t := insertMetadata t k (TagStackName C) (MetaExpr (Ref "AWS::StackName")) in
    mret (inl t)
  else mret (inl t).

(** The part of the final step that runs once the template text exists. *)
Definition uploadAndConverge (ctx : workflowContext) (contentBody s3keyName : string)
  : M stepResult :=
  if noop ctx then
    logf InfoLevel
         "Bypassing template upload & creation due to -n/-noop command line argument"
         [("Bucket", s3Bucket ctx); ("Key", s3keyName)];;
    mret (ctx, None, None)
  else
    logf InfoLevel "Uploading CloudFormation template" [];;
    templateUploadResult ← call (EvS3Upload (s3Bucket ctx) s3keyName "application/json")
                                (fun h => s3_Upload w h (s3Bucket ctx) s3keyName);
    match templateUploadResult with
    | inl e => failStep ctx e
    | inr location =>
        let ctx := registerRollback ctx
                     (createS3RollbackFunc (s3Bucket ctx) s3keyName (noop ctx)) in
        logf InfoLevel "Template uploaded" [("URL", location)];;
        '(stack, err) ← convergeStackState location ctx;
        match err, stack with
        | Some e, _ => failStep ctx e
        | None, Some stack =>
            logf InfoLevel "Stack provisioned"
                 [("StackName", StackName stack); ("StackId", StackId stack);
                  ("CreationTime", CreationTime stack)];;
            mret (ctx, None, None)
        | None, None => mret (ctx, None, None)
        end
    end.

Definition serializeAndConverge (ctx : workflowContext) : M stepResult :=
  match json_Marshal C (cfTemplate ctx) with
  | inl e =>
      logf ErrorLevel ("Failed to Marshal CloudFormation template: " +:+ e) [];;
      failStep ctx e
  | inr contentBody =>
      let sanitizedServiceName := sanitizedName C (serviceName ctx) in
      let s3keyName :=
        sanitizedServiceName +:+ "-" +:+ sha1_hex C contentBody +:+ "-cf.json" in
      match json_MarshalIndent C contentBody with
      | inl e => failStep ctx e
      | inr formatted =>
          logf DebugLevel "CloudFormation template body" [("Body", formatted)];;
          match templateWriter ctx with
          | Some tw => emit (EvWriteString tw formatted)
          | None => mret tt
          end;;
          uploadAndConverge ctx contentBody s3keyName
      end
  end.

Definition ensureCloudFormationStack_run (ctx : workflowContext) : M stepResult :=
  r ← forRange exportLambda (lambdaAWSInfos ctx) ctx;
  match r with
  | inr res => mret res
  | inl ctx =>
      (* the scratch template of the API gateway export *)
      let apiGatewayTemplate := NewTemplate in
      let '(apiGatewayTemplate, shared, err) :=
        match api ctx with
        | Some a =>
            let '(apiT, err) := api_export a (s3Bucket ctx) (s3LambdaZipKey ctx)
                                  (lambdaIAMRoleNameMap ctx) apiGatewayTemplate in
            match err with
            | None => let '(merged, err) := safeMergeTemplates C apiT (cfTemplate ctx) in
                      (apiT, merged, err)
            | Some e => (apiT, cfTemplate ctx, Some e)
            end
        | None => (apiGatewayTemplate, cfTemplate ctx, None)
        end in
      let ctx := set_cfTemplate ctx shared in
      match err with
      | Some _ => failStep ctx "Failed to export APIGateway template resources"
      | None =>
          match ctx_s3SiteContext ctx with
          | None => raise NilSiteContext
          | Some siteCtx =>
              let ctx :=
                match s3Site siteCtx with
                | Some site =>
                    set_cfTemplate ctx
                      (site_export site (s3Bucket ctx) (s3LambdaZipKey ctx)
                         (s3SiteLambdaZipKey siteCtx) (Outputs apiGatewayTemplate)
                         (lambdaIAMRoleNameMap ctx) (cfTemplate ctx)).1
                | None => ctx
                end in
              let t := setOutput (cfTemplate ctx) OutputSpartaHomeKey
                         {| out_Description := "Sparta Home";
                            out_Value := Literal "http://gosparta.io" |} in
              let t := setOutput t OutputSpartaVersionKey
                         {| out_Description := "Sparta Version";
                            out_Value := Literal (SpartaVersion C) |} in
              r ← forRange exchangeOutputs (map_to_list (Resources t)) t;
              let t := match r with inl t' => t' | inr _ => t end in
              serializeAndConverge (set_cfTemplate ctx t)
          end
      end
  end.

Definition ensureCloudFormationStack : workflowStep := Step ensureCloudFormationStack_run.

(** ** The upload step *)

Definition trimmedName (path rootSource : string) : string :=
  strings_TrimPrefix (strings_TrimPrefix path rootSource) "/".

(** The closure [appendFile] of [addToZip]. *)
Definition appendFile (archive rootSource sourceFile : string) : M (option error) :=
  let name := if bool_decide (sourceFile ≠ rootSource)
              then trimmedName sourceFile rootSource
              else filepath_Base C sourceFile in
  cerr ← call (EvZipCreate archive name) (fun h => zip_Create w h archive name);
  match cerr with
  | Some _ => mret (Some ("Failed to create ZIP entry: " +:+ filepath_Base C sourceFile))
  | None =>
      oerr ← call (EvOpen sourceFile) (fun h => os_Open w h sourceFile);
      match oerr with
      | Some _ => mret (Some ("Failed to open file: " +:+ sourceFile))
      | None =>
          defer_ (emit (EvClose sourceFile))
            (call (EvCopy name sourceFile) (fun h => io_Copy w h name sourceFile);;
             logf DebugLevel "Archiving file" [("Path", sourceFile)];;
             mret None)
      end
  end.

(** The closure [directoryWalker] of [addToZip]; [inr] stops the walk. *)
Definition directoryWalker (archive rootSource : string) (_ : unit) (e : WalkEntry)
  : M (unit + error) :=
  match we_err e with
  | Some err => mret (inr err)
  | None =>
      match zip_FileInfoHeader C (we_path e) with
      | Some err => mret (inr err)
      | None =>
          let name := trimmedName (we_path e) rootSource +:+
                      (if we_isDir e then "/" else "") in
          cerr ← call (EvZipCreateHeader archive name (negb (we_isDir e)))
                      (fun h => zip_CreateHeader w h archive name);
          match cerr with
          | Some err => mret (inr err)
          | None =>
              if we_isDir e then mret (inl tt)
              else
                oerr ← call (EvOpen (we_path e)) (fun h => os_Open w h (we_path e));
                match oerr with
                | Some err => mret (inr err)
                | None =>
                    defer_ (emit (EvClose (we_path e)))
                      (err ← call (EvCopy name (we_path e))
                                  (fun h => io_Copy w h name (we_path e));
                       mret (match err with Some x => inr x | None => inl tt end))
                end
          end
      end
  end.

(** Add a source object (a file, or a directory added recursively) to a
    previously opened zip writer. *)
Definition addToZip (archive source rootSource : string) : M (option error) :=
  abs ← call (EvAbs source) (fun h => filepath_Abs w h source);
  match abs with
  | inl err => mret (Some err)
  | inr fullPathSource =>
      st ← call (EvStat fullPathSource) (fun h => os_Stat w h fullPathSource);
      match st with
      | inl err => mret (Some err)
      | inr fileInfo =>
          err ← match fi_Mode fileInfo with
                | ModeDir =>
                    entries ← call (EvWalk fullPathSource)
                                   (fun h => filepath_Walk w h fullPathSource);
                    r ← forRange (directoryWalker archive rootSource) entries tt;
                    mret (match r with inl _ => None | inr x => Some x end)
                | ModeRegular => appendFile archive rootSource fullPathSource
                | ModeOther => mret (Some "Inavlid source type")
                end;
          emit (EvZipClose archive);;
          mret err
      end
  end.

Definition uploadState : Type := workflowContext * list error.

(** The goroutine that uploads the primary binary. *)
Definition uploadPrimary (packagePath : string) (st : uploadState) : M uploadState :=
  let '(ctx, uploadErrors) := st in
  '(keyName, err) ← uploadLocalFileToS3 packagePath (s3Bucket ctx) (noop ctx);
  let ctx := set_s3LambdaZipKey ctx keyName in
  match err with
  | Some e => mret (ctx, uploadErrors ++ [e])
  | None =>
      mret (registerRollback ctx
              (createS3RollbackFunc (s3Bucket ctx) (s3LambdaZipKey ctx) (noop ctx)),
            uploadErrors)
  end.

(** The goroutine that compresses and uploads the S3 site. *)
Definition uploadSite (site : S3Site) (st : uploadState) : M uploadState :=
  let '(ctx, uploadErrors) := st in
  let tempName := serviceName ctx +:+ "-S3Site" in
  tmp ← temporaryFile tempName;
  match tmp with
  | inl _ => mret (ctx, uploadErrors ++ ["Failed to create temporary S3 site archive file"])
  | inr tmpFile =>
      abs ← call (EvAbs (resources site)) (fun h => filepath_Abs w h (resources site));
      match abs with
      | inl err => mret (ctx, uploadErrors ++ [err])
      | inr absResourcePath =>
          logf InfoLevel "Creating S3Site archive"
               [("S3Key", path_Base C tmpFile); ("Source", absResourcePath)];;
          err ← addToZip tmpFile absResourcePath absResourcePath;
          match err with
          | Some e => mret (ctx, uploadErrors ++ [e])
          | None =>
              emit (EvZipClose tmpFile);;
              emit (EvClose tmpFile);;
              '(key, err) ← uploadLocalFileToS3 tmpFile (s3Bucket ctx) (noop ctx);
              match ctx_s3SiteContext ctx with
              | None => raise NilSiteContext
              | Some siteCtx =>
                  let ctx := set_s3SiteContext ctx
                               (Some {| s3Site := s3Site siteCtx;
                                        s3SiteLambdaZipKey := key |}) in
                  match err with
                  | Some e => mret (ctx, uploadErrors ++ [e])
                  | None =>
                      mret (registerRollback ctx
                              (createS3RollbackFunc (s3Bucket ctx) key (noop ctx)),
                            uploadErrors)
                  end
              end
          end
      end
  end.

Fixpoint runUnits {S} (units : list (S -> M S)) (s : S) : M S :=
  match units with
  | [] => mret s
  | u :: us => s' ← u s; runUnits us s'
  end.

(** The loop that builds the text of the upload error and returns it. *)
Definition uploadErrorText (errorText : string) (eachError : error) : M (string + error) :=
  let errorText := errorText +:+ (errorText +:+ eachError +:+ nl) in
  mret (inr errorText).

(** Given the zipped binary in packagePath, upload the primary code bundle
    and optional S3 site resources iff they're defined.  The read of the
    site descriptor through the wrapper is taken before either goroutine
    runs. *)
Definition createUploadStep_run (packagePath : string) (ctx : workflowContext)
  : M stepResult :=
  match ctx_s3SiteContext ctx with
  | None => raise NilSiteContext
  | Some siteCtx =>
      let units := uploadPrimary packagePath ::
                   match s3Site siteCtx with
                   | Some site => [uploadSite site]
                   | None => []
                   end in
      h ← history;
      '(ctx, uploadErrors) ← runUnits (schedule (sched w h) (length units) units) (ctx, []);
      if bool_decide (0 < length uploadErrors)%nat then
        r ← forRange uploadErrorText uploadErrors
                     ("Encountered multiple errors during upload:" +:+ nl);
        match r with
        | inr errorText => failStep ctx errorText
        | inl _ => mret (ctx, Some ensureCloudFormationStack, None)
        end
      else mret (ctx, Some ensureCloudFormationStack, None)
  end.

Definition createUploadStep (packagePath : string) : workflowStep :=
  Step (createUploadStep_run packagePath).

(** ** The build and package step *)

(** The basename of the scripts that are embedded into CONSTANTS.go. *)
Definition customResourceScripts : list string :=
  ["cfn-response.js"; "sparta_utils.js"; "apigateway.js"; "events.js"; "logs.js";
   "s3.js"; "ses.js"; "sns.js"; "s3Site.js"; "golang-constants.json";
   "apigateway/inputmapping_default.vtl"; "apigateway/inputmapping_json.vtl"].

Definition provisioningResourcesRelPath := "/resources/provision".

(** Return a string representation of a JS function call that can be
    exposed to AWS Lambda. *)
Definition createNewNodeJSProxyEntry (lambdaInfo : LambdaAWSInfo) : M string :=
  logf InfoLevel "Registering Sparta function" [("FunctionName", lambdaFnName lambdaInfo)];;
  mret (String.concat ""
          ["exports["; dquote; jsHandlerName lambdaInfo; dquote; "] = createForwarder(";
           dquote; "/"; lambdaFnName lambdaInfo; dquote; ");"; nl]).

Definition appendProxyEntry (nodeJSSource : string) (eachLambda : LambdaAWSInfo)
  : M (string + unit) :=
  entry ← createNewNodeJSProxyEntry eachLambda;
  mret (inl (nodeJSSource +:+ entry)).

(** Embed one custom resource script; [inr] returns from the step. *)
Definition embedScript (archive : string) (_ : unit) (eachName : string) : M (unit + error) :=
  let resourceName := provisioningResourcesRelPath +:+ "/" +:+ eachName in
  cerr ← call (EvZipCreate archive eachName) (fun h => zip_Create w h archive eachName);
  match cerr with
  | Some err => mret (inr err)
  | None =>
      logf DebugLevel "Script name" [("Name", eachName)];;
      call (EvCopy eachName resourceName) (fun h => io_Copy w h eachName resourceName);;
      mret (inl tt)
  end.

(** Copy one file of the embedded node_modules.zip; [inr] returns. *)
Definition embedNodeModule (archive : string) (_ : unit) (zipFile : string)
  : M (unit + error) :=
  cerr ← call (EvZipCreate archive zipFile) (fun h => zip_Create w h archive zipFile);
  match cerr with
  | Some err => mret (inr err)
  | None =>
      logf DebugLevel "Copying embedded node_module file" [("Name", zipFile)];;
      match zipFile_Open C zipFile with
      | Some err => mret (inr err)
      | None =>
          call (EvCopy zipFile zipFile) (fun h => io_Copy w h zipFile zipFile);;
          mret (inl tt)
      end
  end.

(** The step from the creation of index.js on. *)
Definition packageArchive (ctx : workflowContext) (executableOutput tmpFile : string)
  : M stepResult :=
  cerr ← call (EvZipCreate tmpFile "index.js") (fun h => zip_Create w h tmpFile "index.js");
  match cerr with
  | Some _ => failStep ctx "Failed to create ZIP entry: index.js"
  | None =>
      let nodeJSSource := escFSMustString C "/resources/index.js" in
      let nodeJSSource := nodeJSSource +:+ nl +:+
            "// DO NOT EDIT - CONTENT UNTIL EOF IS AUTOMATICALLY GENERATED" +:+ nl in
      r ← forRange appendProxyEntry (lambdaAWSInfos ctx) nodeJSSource;
      let nodeJSSource := match r with inl s => s | inr _ => nodeJSSource end in
      let nodeJSSource := nodeJSSource +:+ "SPARTA_BINARY_NAME='" +:+ executableOutput
                          +:+ "';" +:+ nl in
      let nodeJSSource := nodeJSSource +:+ "SPARTA_SERVICE_NAME='" +:+ serviceName ctx
                          +:+ "';" +:+ nl in
      logf DebugLevel "Dynamically generated NodeJS adapter" [("index.js", nodeJSSource)];;
      call (EvCopy "index.js" nodeJSSource) (fun h => io_Copy w h "index.js" nodeJSSource);;
      logf DebugLevel "Embedding CustomResource scripts" [];;
      r ← forRange (embedScript tmpFile) customResourceScripts tt;
      match r with
      | inr err => failStep ctx err
      | inl _ =>
          let nodeModulesZipRelName := provisioningResourcesRelPath +:+ "/node_modules.zip" in
          match escFSByte C nodeModulesZipRelName with
          | inr nodeModuleBytes =>
              match zip_NewReader C nodeModuleBytes with
              | inl err => failStep ctx err
              | inr files =>
                  logf DebugLevel "Embedding CustomResource node_modules.zip"
                       [("Name", nodeModulesZipRelName)];;
                  r ← forRange (embedNodeModule tmpFile) files tt;
                  match r with
                  | inr err => failStep ctx err
                  | inl _ => mret (ctx, Some (createUploadStep tmpFile), None)
                  end
              end
          | inl err =>
              logf WarnLevel "Failed to load node_modules.zip for embedding"
                   [("Name", nodeModulesZipRelName); ("Error", err)];;
              mret (ctx, Some (createUploadStep tmpFile), None)
          end
      end
  end.

Definition removeBinary (executableOutput : string) : M unit :=
  err ← call (EvRemove executableOutput) (fun h => os_Remove w h executableOutput);
  match err with
  | Some e => logf WarnLevel "Failed to delete binary" [("File", executableOutput); ("Error", e)]
  | None => mret tt
  end.

(** Build and package the application. *)
Definition createPackageStep_run (ctx : workflowContext) : M stepResult :=
  let sanitizedServiceName := sanitizedName C (serviceName ctx) in
  let executableOutput := sanitizedServiceName +:+ ".lambda.amd64" in
  let entry := filepath_Base C executableOutput in
  let args := ["go"; "build"; "-o"; executableOutput; "-tags"; "lambdabinary"; "."] in
  logf DebugLevel "Building application binary" [];;
  logf InfoLevel "Compiling binary" [("Name", executableOutput)];;
  logf DebugLevel "Compilation environment" [];;
  err ← call (EvExec args ["GOOS=linux"; "GOARCH=amd64"]) (fun h => exec_Run w h args);
  match err with
  | Some e => failStep ctx e
  | None =>
      defer_ (removeBinary executableOutput)
        (st ← call (EvStat executableOutput) (fun h => os_Stat w h executableOutput);
         match st with
         | inl _ => failStep ctx "Failed to stat build output"
         | inr stat =>
             logf InfoLevel "Executable binary size"
                  [("KB", pretty (fi_Size stat `quot` 1024));
                   ("MB", pretty (fi_Size stat `quot` (1024 * 1024)))];;
             tmp ← temporaryFile sanitizedServiceName;
             match tmp with
             | inl _ => failStep ctx "Failed to create temporary file"
             | inr tmpFile =>
                 defer_ (emit (EvClose tmpFile))
                   (logf InfoLevel "Creating ZIP archive for upload" [("TempName", tmpFile)];;
                    defer_ (emit (EvZipClose tmpFile))
                      (cerr ← call (EvZipCreate tmpFile entry)
                                   (fun h => zip_Create w h tmpFile entry);
                       match cerr with
                       | Some _ => failStep ctx ("Failed to create ZIP entry: " +:+ entry)
                       | None =>
                           oerr ← call (EvOpen executableOutput)
                                       (fun h => os_Open w h executableOutput);
                           match oerr with
                           | Some _ =>
                               failStep ctx ("Failed to open file: " +:+ executableOutput)
                           | None =>
                               defer_ (emit (EvClose executableOutput))
                                 (call (EvCopy entry executableOutput)
                                       (fun h => io_Copy w h entry executableOutput);;
                                  packageArchive ctx executableOutput tmpFile)
                           end
                       end))
             end
         end)
  end.

Definition createPackageStep : workflowStep := Step createPackageStep_run.

(** ** The role verification step *)

(** The body of the loop of [verifyIAMRoles]; [inr] returns from the step.
    Calling [logicalName] on a nil role definition dereferences it. *)
Definition verifyIAMRole (ctx : workflowContext) (eachLambda : LambdaAWSInfo)
  : M (workflowContext + stepResult) :=
  if bool_decide (RoleName eachLambda ≠ "") && bool_decide (is_Some (RoleDefinition eachLambda))
  then
    mret (inr (ctx, None,
               Some ("Both RoleName and RoleDefinition defined for lambda: "
                     +:+ lambdaFnName eachLambda)))
  else if bool_decide (RoleName eachLambda ≠ "") then
    match lambdaIAMRoleNameMap ctx !! RoleName eachLambda with
    | Some _ => mret (inl ctx)
    | None =>
        logf DebugLevel ("Checking IAM RoleName: " +:+ RoleName eachLambda) [];;
        resp ← call (EvIAMGetRole (RoleName eachLambda))
                    (fun h => iam_GetRole w h (RoleName eachLambda));
        match resp with
        | inl err =>
            logf ErrorLevel err [];;
            mret (inr (ctx, None, Some err))
        | inr arn =>
            mret (inl (set_lambdaIAMRoleNameMap ctx
                         (<[RoleName eachLambda := Literal arn]> (lambdaIAMRoleNameMap ctx))))
        end
    end
  else
    match RoleDefinition eachLambda with
    | None => raise NilRoleDefinition
    | Some roleDefinition =>
        let logicalName := logicalName roleDefinition in
        match lambdaIAMRoleNameMap ctx !! logicalName with
        | Some _ => mret (inl ctx)
        | None =>
            let ctx := set_cfTemplate ctx
                         (AddResource (cfTemplate ctx) logicalName
                            (toResource roleDefinition (EventSourceMappings eachLambda))) in
            mret (inl (set_lambdaIAMRoleNameMap ctx
                         (<[logicalName := GetAtt logicalName "Arn"]>
                            (lambdaIAMRoleNameMap ctx))))
        end
    end.

(** Verify and cache the IAM rolename to ARN mapping. *)
Definition verifyIAMRoles_run (ctx : workflowContext) : M stepResult :=
  logf InfoLevel "Verifying IAM Lambda execution roles" [];;
  let ctx := set_lambdaIAMRoleNameMap ctx ∅ in
  r ← forRange verifyIAMRole (lambdaAWSInfos ctx) ctx;
  match r with
  | inr res => mret res
  | inl ctx =>
      logf InfoLevel "IAM roles verified"
           [("Count", pretty (size (lambdaIAMRoleNameMap ctx)))];;
      mret (ctx, Some createPackageStep, None)
  end.

Definition verifyIAMRoles : workflowStep := Step verifyIAMRoles_run.

(** ** The entry point *)

(** The loop [for step := verifyIAMRoles; step != nil; { ... }] of
    [Provision]. *)
Fixpoint runWorkflow (step : workflowStep) (ctx : workflowContext) {struct step}
  : M (option error) :=
  match step with
  | Step run =>
      r ← run ctx;
      match r with
      | (ctx, _, Some err) => rollback ctx;; mret (Some err)
      | (ctx, None, None) =>
          elapsed ← call EvTimeSince (time_Since w);
          logf InfoLevel "Elapsed time" [("Seconds", elapsed)];;
          mret None
      | (ctx, Some next, None) => runWorkflow next ctx
      end
  end.

(** The context [Provision] builds before the workflow starts. *)
Definition newContext (noop : bool) (serviceName serviceDescription : string)
           (lambdaAWSInfos : list LambdaAWSInfo) (api : option API) (site : option S3Site)
           (s3Bucket : string) (templateWriter : option Writer) : workflowContext :=
  {| noop := noop;
     serviceName := serviceName;
     serviceDescription := serviceDescription;
     lambdaAWSInfos := lambdaAWSInfos;
     api := api;
     ctx_s3SiteContext := Some {| s3Site := site; s3SiteLambdaZipKey := "" |};
     cfTemplate := setDescription NewTemplate serviceDescription;
     lambdaIAMRoleNameMap := ∅;
     s3Bucket := s3Bucket;
     s3LambdaZipKey := "";
     templateWriter := templateWriter;
     rollbackFunctions := [] |}.

(** Provision compiles, packages, and provisions (either via create or
    update) a Sparta application. *)
Definition Provision (noop : bool) (serviceName serviceDescription : string)
           (lambdaAWSInfos : list LambdaAWSInfo) (api : option API) (site : option S3Site)
           (s3Bucket : string) (templateWriter : option Writer) : M (option error) :=
  emit EvTimeNow;;
  emit EvAwsSession;;
  let ctx := newContext noop serviceName serviceDescription lambdaAWSInfos api site
                        s3Bucket templateWriter in
  if bool_decide (length lambdaAWSInfos ≤ 0)%nat then
    mret (Some "No lambda functions provided to Sparta.Provision()")
  else runWorkflow verifyIAMRoles ctx.

End Workflow.

(** * Reasoning about runs *)

(** ** A specification over the events a computation appends

    [sat P N Q m]: from every history, [m] appends events that all satisfy
    [P]; when it returns [a] after appending [t], [Q a t] holds; when it
    panics, the panic satisfies [N]. *)

Definition sat {A} (P : event -> Prop) (N : panic -> Prop) (Q : A -> trace -> Prop)
           (m : M A) : Prop :=
  forall h, exists t, (m h).2 = h ++ t /\ Forall P t /\
    match (m h).1 with
    | Done a => Q a t
    | Panicked p => N p
    | Diverged => True
    end.

(** ** Kinds of events *)

(** [KLocal]: the process, its clock, its files and its child process;
    [KGetRole]: the IAM lookup; [KRemote]: every call to S3 and to
    CloudFormation. *)
Inductive evclass := KLocal | KGetRole | KRemote.

Definition classify (e : event) : evclass :=
  match e with
  | EvIAMGetRole _ => KGetRole
  | EvS3GetBucketLifecycleConfiguration _ | EvS3Upload _ _ _ | EvS3DeleteObject _ _
  | EvCFDescribeStacks _ | EvCFUpdateStack _ _ _ | EvCFCreateStack _ _ _ _ _
  | EvCFDescribeStackEvents _ _ => KRemote
  | _ => KLocal
  end.

Definition noSitePanic (p : panic) : Prop := p ≠ NilSiteContext.

(** Remote calls are allowed by [P] in a live run. *)
Definition remoteAllowed (P : event -> Prop) (nv : bool) : Prop :=
  nv = false -> forall e, classify e = KRemote -> P e.

(** The rollback functions the workflow registers. *)
Definition isS3RollbackOf (w : World) (nv : bool) (f : rollbackFunction) : Prop :=
  exists b k, f = createS3RollbackFunc w b k nv.

(** What every step keeps true of the context: the run mode, the output
    sink, the site wrapper being allocated, and the shape of the rollback
    registry. *)
Definition ctxInvariant (w : World) (tw : option Writer) (nv : bool)
           (ctx : workflowContext) : Prop :=
  noop ctx = nv /\ templateWriter ctx = tw /\ is_Some (ctx_s3SiteContext ctx) /\
  Forall (isS3RollbackOf w nv) (rollbackFunctions ctx).

(** What the package step answers: the context is untouched and the next
    step is the upload of some archive. *)
Definition packagePost (C : Collaborators) (w : World) (ctx : workflowContext)
           (r : stepResult) : Prop :=
  r.1.1 = ctx /\ (r.2 = None -> exists p, r.1.2 = Some (createUploadStep C w p)).

(** What a step answers: the invariant, and the next step when it
    succeeds. *)
Definition stepPostOf (w : World) (tw : option Writer) (nv : bool)
           (next : option workflowStep -> Prop) (r : stepResult) : Prop :=
  ctxInvariant w tw nv r.1.1 /\ (r.2 = None -> next r.1.2).

(** A post-condition of a run that an error satisfies and that later
    events do not undo. *)
Definition runPost (Q : option error -> trace -> Prop) : Prop :=
  (forall e t, Q (Some e) t) /\ (forall r t1 t t2, Q r t -> Q r (t1 ++ t ++ t2)).

(** Calls that reach AWS over the network. *)
Definition is_network (e : event) : bool :=
  match classify e with
  | KLocal => false
  | _ => true
  end.

(** Calls that touch the file system, start a process or write to the
    output sink. *)
Definition is_filesystem (e : event) : bool :=
  match e with
  | EvGetwd | EvTempFile _ _ | EvOpen _ | EvClose _ | EvRemove _ | EvStat _ | EvAbs _
  | EvWalk _ | EvExec _ _ | EvZipCreate _ _ | EvZipCreateHeader _ _ _ | EvZipClose _
  | EvCopy _ _ | EvWriteString _ _ => true
  | _ => false
  end.

Definition is_log (e : event) : bool :=
  match e with
  | EvLog _ _ _ => true
  | _ => false
  end.


(** How many role-existence lookups of [name] a history holds. *)
Fixpoint lookups (name : string) (t : trace) : nat :=
  match t with
  | [] => 0
  | EvIAMGetRole n :: t' => (if bool_decide (n = name) then 1 else 0) + lookups name t'
  | _ :: t' => lookups name t'
  end.

(** The name under which a descriptor's role is resolved is in the role
    map of the context. *)
Definition resolvedIn (ctx : workflowContext) (l : LambdaAWSInfo) : Prop :=
  (RoleName l ≠ "" -> is_Some (lambdaIAMRoleNameMap ctx !! RoleName l)) /\
  (RoleName l = "" ->
   forall d, RoleDefinition l = Some d ->
             is_Some (lambdaIAMRoleNameMap ctx !! logicalName d)).

(** [Reaches s c h s' c' h']: the loop of [Provision], started at step [s]
    with context [c] and history [h], arrives at step [s'] with context
    [c'] and history [h'], every step in between having succeeded. *)
Inductive Reaches : workflowStep -> workflowContext -> trace ->
                    workflowStep -> workflowContext -> trace -> Prop :=
| Reaches_here s c h : Reaches s c h s c h
| Reaches_next run c h c1 n h1 s2 c2 h2 :
    run c h = (Done (c1, Some n, None), h1) ->
    Reaches n c1 h1 s2 c2 h2 ->
    Reaches (Step run) c h s2 c2 h2.


(** The error a step answered, if it returned one. *)
Definition stepError (r : outcome stepResult * trace) : option error :=
  match r.1 with
  | Done (_, _, err) => err
  | _ => None
  end.

(** The errors the upload goroutines have gathered. *)
Definition gatheredErrors (r : outcome uploadState * trace) : list error :=
  match r.1 with
  | Done (_, uploadErrors) => uploadErrors
  | _ => []
  end.

(** A computation that always returns. *)
Definition returns {A} (m : M A) : Prop := forall h, exists a, (m h).1 = Done a.




(** The terminal statuses of a stack, as the specification lists them. *)
Definition terminalSuccess : list string :=
  ["CREATE_COMPLETE"; "UPDATE_COMPLETE"].

Definition terminalFailure : list string :=
  ["DELETE_COMPLETE"; "CREATE_FAILED"; "DELETE_FAILED"; "ROLLBACK_FAILED";
   "ROLLBACK_COMPLETE"].

(** How many IAM role resources an enumeration of resources holds. *)
Definition roleCount (rs : list Resource) : nat :=
  length (filter (fun r => ResourceType (Properties r) = "AWS::IAM::Role") rs).

(** ** A small world to run the model in *)

(** A world in which everything succeeds except what the arguments say. *)
Definition worldWith (pick : nat -> nat) (getRole : string -> error + string)
           (lifecycle : error + list string) (upload : string -> error + string)
           (describe : trace -> error + list Stack) (tempFile : option error) : World :=
  {| sched := fun _ => pick;
     loopFuel := 8;
     time_Since := fun _ => "1";
     rand_Int31n := fun _ _ => 3;
     iam_GetRole := fun _ => getRole;
     s3_GetBucketLifecycleConfiguration := fun _ _ => lifecycle;
     s3_Upload := fun _ _ => upload;
     s3_DeleteObject := fun _ _ _ => None;
     cf_DescribeStacks := fun h _ => describe h;
     cf_UpdateStack := fun _ _ _ _ => inr "stack-id";
     cf_CreateStack := fun _ _ _ _ => inr "stack-id";
     cf_DescribeStackEvents := fun _ _ _ => inr ([], None);
     os_Getwd := fun _ => inr "/work";
     ioutil_TempFile := fun _ d n => match tempFile with
                                     | Some e => inl e
                                     | None => inr (d +:+ "/" +:+ n +:+ "001")
                                     end;
     os_Open := fun _ _ => None;
     os_Remove := fun _ _ => None;
     os_Stat := fun _ _ => inr {| fi_Size := 2048; fi_Mode := ModeRegular |};
     filepath_Abs := fun _ p => inr p;
     filepath_Walk := fun _ _ => [];
     exec_Run := fun _ _ => None;
     zip_Create := fun _ _ _ => None;
     zip_CreateHeader := fun _ _ _ => None;
     io_Copy := fun _ _ _ => None |}.

Definition demoWorld : World :=
  worldWith (fun _ => 0%nat) (fun n => inr ("arn:aws:iam::role/" +:+ n)) (inr [])
            (fun k => inr ("https://s3/" +:+ k)) (fun _ => inl "Stack does not exist") None.

(** A world in which no IAM role exists. *)
Definition noRoleWorld : World :=
  worldWith (fun _ => 0%nat) (fun _ => inl "NoSuchEntity") (inr [])
            (fun k => inr ("https://s3/" +:+ k)) (fun _ => inl "Stack does not exist") None.

Definition demoContext (noop : bool) (ls : list LambdaAWSInfo) (tw : option Writer)
  : workflowContext :=
  newContext noop "demo" "a service" ls None None "bucket" tw.

(** A live world in which the S3 upload is refused and no temporary file
    can be created. *)
Definition brokenUploadWorld : World :=
  worldWith (fun _ => 0%nat) (fun n => inr ("arn:aws:iam::role/" +:+ n)) (inr [])
            (fun _ => inl "RequestError: send request failed") (fun _ => inl "Stack does not exist")
            (Some "no space left on device").

(** A live world in which describing the stack is refused; the scheduler
    answers [pick] at every decision. *)
Definition failingStackWorld (pick : nat) : World :=
  worldWith (fun _ => pick) (fun n => inr ("arn:aws:iam::role/" +:+ n)) (inr [])
            (fun k => inr ("https://s3/" +:+ k)) (fun _ => inl "AccessDenied") None.

(** The network calls of a history. *)
Definition networkCalls (t : trace) : trace :=
  filter (fun e => is_network e = true) t.


Definition demoStack (status : string) : Stack :=
  {| StackId := "stack-id"; StackName := "demo"; StackStatus := status;
     StackOutputs := []; CreationTime := "now" |}.

Definition demoCollaborators : Collaborators :=
  {| sanitizedName := fun s => s;
     SpartaVersion := "0.1.0";
     TagStackRegion := "StackRegion";
     TagStackID := "StackID";
     TagStackName := "StackName";
     escFSMustString := fun _ => "// index.js";
     escFSByte := fun _ => inl "file does not exist";
     zip_NewReader := fun _ => inr [];
     zipFile_Open := fun _ => None;
     zip_FileInfoHeader := fun _ => None;
     safeMergeTemplates := fun _ dst => (dst, None);
     outputsForResource := fun _ _ => None;
     safeMetadataInsert := fun r _ _ => r;
     filepath_Base := fun s => s;
     path_Base := fun s => s;
     json_Marshal := fun _ => inr "{}";
     json_MarshalIndent := fun s => inr s;
     sha1_hex := fun _ => "da39a3ee" |}.

Definition noExport : string -> string -> string -> gmap string StringExpr ->
                      Template -> Template * option error :=
  fun _ _ _ _ t => (t, None).

(** A descriptor that names a pre-existing role. *)
Definition demoNamed (fn role : string) : LambdaAWSInfo :=
  {| lambdaFnName := fn; jsHandlerName := fn; RoleName := role; RoleDefinition := None;
     EventSourceMappings := []; lambda_export := noExport |}.

Definition demoRole (name : string) : IAMRoleDefinition :=
  {| logicalName := name;
     toResource := fun _ => {| ResourceType := "AWS::IAM::Role"; payload := name |} |}.

(** A template with two IAM role resources. *)
Definition demoTemplate : Template :=
  AddResource (AddResource NewTemplate "RoleA" (toResource (demoRole "RoleA") []))
              "RoleB" (toResource (demoRole "RoleB") []).

(** A descriptor that declares a role to create. *)
Definition demoDefined (fn name : string) : LambdaAWSInfo :=
  {| lambdaFnName := fn; jsHandlerName := fn; RoleName := "";
     RoleDefinition := Some (demoRole name);
     EventSourceMappings := []; lambda_export := noExport |}.

(** A descriptor that gives both a role name and a role definition. *)
Definition demoBoth (fn role name : string) : LambdaAWSInfo :=
  {| lambdaFnName := fn; jsHandlerName := fn; RoleName := role;
     RoleDefinition := Some (demoRole name);
     EventSourceMappings := []; lambda_export := noExport |}.

Definition demoSite : S3Site :=
  {| resources := "./site"; site_export := fun _ _ _ _ _ t => (t, None) |}.

Definition demoSiteContext : workflowContext :=
  newContext false "demo" "a service" [demoNamed "hello" "lambda-role"] None
             (Some demoSite) "bucket" None.

(** ** Vocabulary of the further properties *)

(** The objects whose deletion a history requests, in order. *)
Definition s3Deletes (t : trace) : list (string * string) :=
  omap (fun e => match e with
                 | EvS3DeleteObject b k => Some (b, k)
                 | _ => None
                 end) t.

(** The rollback function that the workflow registers for an uploaded
    object: [item] is the bucket and the key. *)
Definition s3RollbackOf (w : World) (noop : bool) (item : string * string)
  : rollbackFunction :=
  createS3RollbackFunc w item.1 item.2 noop.

(** A live world whose bucket has one lifecycle rule, which is disabled. *)
Definition disabledRulesWorld : World :=
  worldWith (fun _ => 0%nat) (fun n => inr ("arn:aws:iam::role/" +:+ n)) (inr ["Disabled"])
            (fun k => inr ("https://s3/" +:+ k)) (fun _ => inl "Stack does not exist") None.

(** A sleep lasts between 11 and 23 seconds. *)
Definition sleepInRange (e : event) : Prop :=
  match e with
  | EvSleep seconds => 11 <= seconds <= 23
  | _ => True
  end.

(** The two requests that change a stack. *)
Definition is_stack_request (e : event) : bool :=
  match e with
  | EvCFCreateStack _ _ _ _ _ | EvCFUpdateStack _ _ _ => true
  | _ => false
  end.

(** The requests of a history that change a stack, in order. *)
Definition stackRequests (t : trace) : trace :=
  filter (fun e => is_stack_request e = true) t.

(** CloudFormation has described a stack in one of the two success
    statuses, and the history logs that stack as provisioned. *)
Definition stackConverged (w : World) (t : trace) : Prop :=
  exists stack h0 stackID rest,
    cf_DescribeStacks w h0 stackID = inr (stack :: rest) /\
    StackStatus stack ∈ terminalSuccess /\
    EvLog InfoLevel "Stack provisioned"
          [("StackName", StackName stack); ("StackId", StackId stack);
           ("CreationTime", CreationTime stack)] ∈ t.

(** A run that returns no error has converged. *)
Definition completedConverged (w : World) (r : option error) (t : trace) : Prop :=
  r = None -> stackConverged w t.

(** A live world in which the stack does not exist until its creation is
    requested and is complete at the first poll after that. *)
Definition convergingWorld : World :=
  worldWith (fun _ => 0%nat) (fun n => inr ("arn:aws:iam::role/" +:+ n)) (inr [])
            (fun k => inr ("https://s3/" +:+ k))
            (fun h => if existsb is_stack_request h
                      then inr [demoStack "CREATE_COMPLETE"]
                      else inl "Stack with id demo does not exist")
            None.

(** An entry of the role map is the ARN that a lookup of its key answered,
    or the reference to the ARN of a role resource of the template. *)
Definition roleMapOk (w : World) (ctx : workflowContext) : Prop :=
  forall k v, lambdaIAMRoleNameMap ctx !! k = Some v ->
    (exists arn h0, v = Literal arn /\ iam_GetRole w h0 k = inr arn) \/
    (v = GetAtt k "Arn" /\ is_Some (Resources (cfTemplate ctx) !! k)).

(** The line of index.js that forwards one Lambda function. *)
Definition forwarderLine (lambdaInfo : LambdaAWSInfo) : string :=
  String.concat ""
    ["exports["; dquote; jsHandlerName lambdaInfo; dquote; "] = createForwarder(";
     dquote; "/"; lambdaFnName lambdaInfo; dquote; ");"; nl].

(** The text of index.js that the package step generates. *)
Definition indexJSSource (C : Collaborators) (ctx : workflowContext)
           (executableOutput : string) : string :=
  escFSMustString C "/resources/index.js" +:+ nl +:+
  "// DO NOT EDIT - CONTENT UNTIL EOF IS AUTOMATICALLY GENERATED" +:+ nl +:+
  String.concat "" (forwarderLine <$> lambdaAWSInfos ctx) +:+
  "SPARTA_BINARY_NAME='" +:+ executableOutput +:+ "';" +:+ nl +:+
  "SPARTA_SERVICE_NAME='" +:+ serviceName ctx +:+ "';" +:+ nl.

(** What [createNewNodeJSProxyEntry] logs for one Lambda function. *)
Definition registrationLog (lambdaInfo : LambdaAWSInfo) : event :=
  EvLog InfoLevel "Registering Sparta function" [("FunctionName", lambdaFnName lambdaInfo)].




(** [t'] is [t] but for the resource stored under [k]. *)
Definition sameExcept (k : string) (t t' : Template) : Prop :=
  dom (Resources t') = dom (Resources t) /\
  (forall k', k' ≠ k -> Resources t' !! k' = Resources t !! k') /\
  Outputs t' = Outputs t /\ Description t' = Description t.

(** [t'] has the resources of [t], those that are not Lambda functions
    being untouched, and its outputs and description. *)
Definition onlyFunctionsTouched (t t' : Template) : Prop :=
  dom (Resources t') = dom (Resources t) /\
  (forall k r, Resources t !! k = Some r ->
               ResourceType (Properties r) ≠ "AWS::Lambda::Function" ->
               Resources t' !! k = Some r) /\
  Outputs t' = Outputs t /\ Description t' = Description t.




Section SatRules.

Context {P : event -> Prop} {N : panic -> Prop}.

Lemma bind_unfold {A B} (m : M A) (k : A -> M B) h :
  (m ≫= k) h = match m h with
               | (Done a, h') => k a h'
               | (Panicked p, h') => (Panicked p, h')
               | (Diverged, h') => (Diverged, h')
               end.
Proof. reflexivity. Qed.

Lemma sat_ret {A} (Q : A -> trace -> Prop) a : Q a [] -> sat P N Q (mret a).
Proof. intros HQ h. exists []. simpl. by rewrite app_nil_r. Qed.

Lemma sat_bind {A B} (Q1 : A -> trace -> Prop) (Q2 : B -> trace -> Prop)
      (m : M A) (k : A -> M B) :
  sat P N Q1 m ->
  (forall a t1, Q1 a t1 -> sat P N (fun b t2 => Q2 b (t1 ++ t2)) (k a)) ->
  sat P N Q2 (m ≫= k).
Proof.
  intros Hm Hk h. rewrite bind_unfold.
  destruct (Hm h) as (t1 & E1 & F1 & R1).
  destruct (m h) as [[a|p|] h1]; simpl in *; subst h1.
  - destruct (Hk a t1 R1 (h ++ t1)) as (t2 & E2 & F2 & R2).
    exists (t1 ++ t2). rewrite E2, app_assoc. split; [done|].
    split; [by apply Forall_app|done].
  - by exists t1.
  - by exists t1.
Qed.

Lemma sat_mono {A} (Q Q' : A -> trace -> Prop) (m : M A) :
  sat P N Q m -> (forall a t, Q a t -> Q' a t) -> sat P N Q' m.
Proof.
  intros Hm HQ h. destruct (Hm h) as (t & E & F & R). exists t.
  split; [done|]. split; [done|]. destruct ((m h).1); auto.
Qed.

Lemma sat_call {A} (Q : A -> trace -> Prop) e (o : trace -> A) :
  P e -> (forall h, Q (o h) [e]) -> sat P N Q (call e o).
Proof.
  intros He HQ h. exists [e]. simpl. split; [done|]. split; [by constructor|apply HQ].
Qed.

Lemma sat_call_any {A} e (o : trace -> A) :
  P e -> sat P N (fun _ _ => True) (call e o).
Proof. intros He. by apply sat_call. Qed.

Lemma sat_emit e : P e -> sat P N (fun _ t => t = [e]) (emit e).
Proof. intros He. by apply sat_call. Qed.

Lemma sat_logf l msg fs :
  P (EvLog l msg fs) -> sat P N (fun _ t => t = [EvLog l msg fs]) (logf l msg fs).
Proof. apply sat_emit. Qed.

Lemma sat_raise {A} (Q : A -> trace -> Prop) p : N p -> sat P N Q (raise p).
Proof. intros Hp h. exists []. simpl. by rewrite app_nil_r. Qed.

Lemma sat_diverge {A} (Q : A -> trace -> Prop) : sat P N Q diverge.
Proof. intros h. exists []. simpl. by rewrite app_nil_r. Qed.

Lemma sat_history (Q : trace -> trace -> Prop) :
  (forall h, Q h []) -> sat P N Q history.
Proof. intros HQ h. exists []. simpl. rewrite app_nil_r. auto. Qed.

Lemma sat_defer {A} (Q Q' : A -> trace -> Prop) (Qc : unit -> trace -> Prop)
      (cleanup : M unit) (body : M A) :
  sat P N Q body -> sat P N Qc cleanup ->
  (forall a t1 t2, Q a t1 -> Qc tt t2 -> Q' a (t1 ++ t2)) ->
  sat P N Q' (defer_ cleanup body).
Proof.
  intros Hb Hc HQ h. unfold defer_.
  destruct (Hb h) as (t1 & E1 & F1 & R1).
  destruct (body h) as [r h1]; simpl in *; subst h1.
  destruct r as [a|p|]; [| |by exists t1].
  - destruct (Hc (h ++ t1)) as (t2 & E2 & F2 & R2).
    destruct (cleanup (h ++ t1)) as [[[]|p'|] h2]; simpl in *; subst h2;
      exists (t1 ++ t2); rewrite app_assoc; (split; [done|]);
      (split; [by apply Forall_app|]); auto.
  - destruct (Hc (h ++ t1)) as (t2 & E2 & F2 & R2).
    destruct (cleanup (h ++ t1)) as [[[]|p'|] h2]; simpl in *; subst h2;
      exists (t1 ++ t2); rewrite app_assoc; (split; [done|]);
      (split; [by apply Forall_app|]); auto.
Qed.

Lemma sat_forRange {X S R} (I : S -> Prop) (J : R -> Prop)
      (body : S -> X -> M (S + R)) (l : list X) (s : S) :
  (forall s x, I s -> x ∈ l ->
     sat P N (fun r _ => match r with inl s' => I s' | inr v => J v end) (body s x)) ->
  I s ->
  sat P N (fun r _ => match r with inl s' => I s' | inr v => J v end) (forRange body l s).
Proof.
  revert s. induction l as [|x l IH]; intros s Hbody Hs; simpl.
  - by apply sat_ret.
  - eapply sat_bind; [apply Hbody; [done|by left]|].
    intros [s'|v] t1 Hr; simpl.
    + apply IH; [|done]. intros s0 x0 H0 Hin. apply Hbody; [done|by right].
    + by apply sat_ret.
Qed.

Lemma sat_runAll (units : list (M unit)) :
  Forall (sat P N (fun _ _ => True)) units -> sat P N (fun _ _ => True) (runAll units).
Proof.
  induction 1 as [|u us Hu _ IH]; simpl.
  - by apply sat_ret.
  - eapply sat_bind; [exact Hu|]. intros a t1 _. exact IH.
Qed.

Lemma sat_runUnits {S} (I : S -> Prop) (units : list (S -> M S)) (s : S) :
  Forall (fun u => forall s, I s -> sat P N (fun s' _ => I s') (u s)) units ->
  I s -> sat P N (fun s' _ => I s') (runUnits units s).
Proof.
  intros Hu. revert s. induction Hu as [|u us Hu _ IH]; intros s Hs; simpl.
  - by apply sat_ret.
  - eapply sat_bind; [by apply Hu|]. intros s' t1 Hs'. by apply IH.
Qed.

End SatRules.

(** ** The scheduler only reorders *)

Lemma schedule_Permutation {X} (pick : nat -> nat) (l : list X) :
  schedule pick (length l) l ≡ₚ l.
Proof.
  remember (length l) as n eqn:Hn. revert l Hn.
  induction n as [|n IH]; intros l Hn; simpl.
  - destruct l; [done|discriminate].
  - assert (Hlt : (pick n `mod` length l < length l)%nat)
      by (apply Nat.mod_upper_bound; lia).
    destruct (lookup_lt_is_Some_2 l _ Hlt) as [x Hx]. rewrite Hx.
    etrans; [|symmetry; apply (delete_Permutation l _ x Hx)].
    constructor. apply IH. pose proof (length_delete l _ (mk_is_Some _ _ Hx)). lia.
Qed.

(** ** The steps of the workflow *)

Section StepFacts.
Context (C : Collaborators) (w : World).
Context (P : event -> Prop) (tw : option Writer).
Hypothesis HLocal : forall e, classify e = KLocal -> P e.

Local Abbreviation remoteOK := (remoteAllowed P).
Local Abbreviation isS3Rollback := (isS3RollbackOf w).
Local Abbreviation ctx_inv := (ctxInvariant w tw).
Local Abbreviation stepPost := (stepPostOf w tw).

Ltac ev_ok :=
  first [ apply HLocal; reflexivity
        | match goal with
          | H : remoteOK _ |- _ => apply H; [congruence | reflexivity]
          end ].

Abbreviation top := (fun _ _ => True).

Ltac sat_step :=
  lazymatch goal with
  | |- sat _ _ _ (mret _) => apply sat_ret
  | |- sat _ _ _ (call _ _ ≫= _) =>
      eapply sat_bind; [apply sat_call_any; ev_ok | intros ? ? _]
  | |- sat _ _ _ (emit _ ≫= _) =>
      eapply sat_bind; [apply sat_emit; ev_ok | intros ? ? _]
  | |- sat _ _ _ (logf _ _ _ ≫= _) =>
      eapply sat_bind; [apply sat_logf; ev_ok | intros ? ? _]
  | |- sat _ _ _ (history ≫= _) =>
      eapply (sat_bind top); [by apply sat_history | intros ? ? _]
  | |- sat _ _ _ (_ ≫= _) => eapply (sat_bind top); [| intros ? ? _]
  | |- sat _ _ _ (call _ _) => apply sat_call; [ev_ok | intros ?]
  | |- sat _ _ _ (emit _) => apply sat_call; [ev_ok | intros ?]
  | |- sat _ _ _ (logf _ _ _) => apply sat_call; [ev_ok | intros ?]
  | |- sat _ _ _ (raise _) => apply sat_raise
  | |- sat _ _ _ diverge => apply sat_diverge
  | |- sat _ _ _ (defer_ _ _) => eapply (sat_defer top _ top); [| |intros ? ? ? _ _]
  | |- sat _ _ _ (if negb ?x then _ else _) => destruct x eqn:?; simpl negb; cbv iota
  | |- sat _ _ _ (match ?x with _ => _ end) => destruct x eqn:?
  end.

Lemma temporaryFile_sat name : sat P noSitePanic top (temporaryFile w name).
Proof. unfold temporaryFile. repeat sat_step; done. Qed.

Lemma ensureExpirationPolicy_sat nv b :
  remoteOK nv -> sat P noSitePanic top (ensureExpirationPolicy w b nv).
Proof. intros HR. unfold ensureExpirationPolicy. repeat sat_step; done. Qed.

Lemma uploadCleanup_sat path : sat P noSitePanic top (uploadCleanup w path).
Proof. unfold uploadCleanup. repeat sat_step; done. Qed.

Lemma uploadLocalFileToS3_sat nv path b :
  remoteOK nv -> sat P noSitePanic top (uploadLocalFileToS3 C w path b nv).
Proof.
  intros HR. unfold uploadLocalFileToS3.
  sat_step; [by apply ensureExpirationPolicy_sat|].
  repeat sat_step; try done. apply uploadCleanup_sat.
Qed.

Lemma createS3RollbackFunc_sat nv b k :
  remoteOK nv -> sat P noSitePanic top (createS3RollbackFunc w b k nv).
Proof. intros HR. unfold createS3RollbackFunc. repeat sat_step; done. Qed.

Lemma rollbackUnit_sat nv f :
  remoteOK nv -> isS3Rollback nv f -> sat P noSitePanic top (rollbackUnit f).
Proof.
  intros HR (b & k & ->). unfold rollbackUnit.
  sat_step; [by apply createS3RollbackFunc_sat|]. repeat sat_step; done.
Qed.

Lemma rollback_sat nv ctx :
  remoteOK nv -> ctx_inv nv ctx -> sat P noSitePanic top (rollback w ctx).
Proof.
  intros HR (_ & _ & _ & Hf). unfold rollback. do 2 sat_step.
  apply sat_runAll. apply Forall_fmap.
  rewrite schedule_Permutation.
  eapply Forall_impl; [exact Hf|]. intros f. by apply rollbackUnit_sat.
Qed.

Ltac inv_solve :=
  repeat match goal with
         | H : ctx_inv _ _ |- _ => destruct H as (? & ? & ? & ?)
         end;
  unfold ctxInvariant, stepPostOf, isS3RollbackOf, registerRollback, set_cfTemplate,
    set_lambdaIAMRoleNameMap, set_s3LambdaZipKey, set_s3SiteContext,
    set_rollbackFunctions in *; simpl in *;
  repeat split; try done; try congruence;
  try (apply Forall_app; split; [done|]; apply Forall_singleton; eexists _, _;
       repeat match goal with H : noop _ = _ |- _ => rewrite H end; reflexivity).

(** The site wrapper is allocated: reading through it cannot panic. *)
Ltac no_site :=
  match goal with
  | H : ctx_s3SiteContext _ = None |- _ =>
      simpl in H;
      match goal with
      | Hi : ctx_inv _ _ |- _ => destruct Hi as (_ & _ & [? ?] & _); congruence
      end
  end.

Lemma uploadPrimary_sat nv path st :
  remoteOK nv -> ctx_inv nv st.1 ->
  sat P noSitePanic (fun st' _ => ctx_inv nv st'.1) (uploadPrimary C w path st).
Proof.
  destruct st as [ctx errs]. intros HR Hinv. unfold uploadPrimary.
  assert (Hn : noop ctx = nv) by apply Hinv. rewrite Hn.
  sat_step; [by apply uploadLocalFileToS3_sat|].
  repeat sat_step; inv_solve.
Qed.


Lemma appendFile_sat archive root src : sat P noSitePanic top (appendFile C w archive root src).
Proof. unfold appendFile. repeat sat_step; done. Qed.

Lemma directoryWalker_sat archive root u e :
  sat P noSitePanic top (directoryWalker C w archive root u e).
Proof. unfold directoryWalker. repeat sat_step; done. Qed.

Lemma forRange_sat_top {X S R} (body : S -> X -> M (S + R)) l s :
  (forall s x, sat P noSitePanic top (body s x)) ->
  sat P noSitePanic top (forRange body l s).
Proof.
  intros Hb. eapply sat_mono.
  - apply (sat_forRange (fun _ => True) (fun _ => True)); [|done].
    intros s0 x _ _. eapply sat_mono; [apply Hb|]. by intros [].
  - done.
Qed.

Lemma addToZip_sat archive src root : sat P noSitePanic top (addToZip C w archive src root).
Proof.
  unfold addToZip. repeat sat_step; try done.
  - apply forRange_sat_top. intros. apply directoryWalker_sat.
  - apply appendFile_sat.
Qed.

Lemma uploadSite_sat nv site st :
  remoteOK nv -> ctx_inv nv st.1 ->
  sat P noSitePanic (fun st' _ => ctx_inv nv st'.1) (uploadSite C w site st).
Proof.
  destruct st as [ctx errs]. intros HR Hinv. simpl in Hinv. unfold uploadSite.
  assert (Hn : noop ctx = nv) by apply Hinv. rewrite Hn.
  destruct (ctx_s3SiteContext ctx) as [siteCtx|] eqn:Hsite;
    [|destruct Hinv as (_ & _ & [? ?] & _); congruence].
  repeat sat_step;
    eauto using temporaryFile_sat, addToZip_sat, uploadLocalFileToS3_sat; inv_solve.
Qed.

Lemma uploadErrorText_sat s e : sat P noSitePanic top (uploadErrorText s e).
Proof. unfold uploadErrorText. by sat_step. Qed.

Lemma createUploadStep_sat nv path ctx :
  remoteOK nv -> ctx_inv nv ctx ->
  sat P noSitePanic
      (fun r _ => stepPost nv (fun n => n = Some (ensureCloudFormationStack C w)) r)
      (createUploadStep_run C w path ctx).
Proof.
  intros HR Hinv. unfold createUploadStep_run.
  destruct (ctx_s3SiteContext ctx) as [siteCtx|] eqn:Hsite;
    [|destruct Hinv as (_ & _ & [? ?] & _); congruence].
  sat_step.
  eapply sat_bind.
  - apply (sat_runUnits (fun st => ctx_inv nv st.1)); [|done].
    rewrite schedule_Permutation.
    apply Forall_cons. split; [intros; by apply uploadPrimary_sat|].
    destruct (s3Site siteCtx); [|done].
    apply Forall_singleton. intros; by apply uploadSite_sat.
  - intros [ctx' errs] tu Hinv'. simpl in Hinv'.
    sat_step.
    + sat_step; [apply forRange_sat_top; intros; apply uploadErrorText_sat|].
      unfold failStep. repeat sat_step; by split.
    + sat_step. by split.
Qed.


Lemma stackEvents_loop_sat fuel stackID token events :
  remoteOK false -> sat P noSitePanic top (stackEvents_loop w fuel stackID token events).
Proof.
  intros HR. revert token events.
  induction fuel as [|fuel IH]; intros token events; simpl; [by sat_step|].
  repeat sat_step; done.
Qed.

Lemma stackExists_sat name : remoteOK false -> sat P noSitePanic top (stackExists w name).
Proof. intros HR. unfold stackExists. repeat sat_step; done. Qed.

Lemma pollLoop_sat fuel ex stackID succ :
  remoteOK false -> sat P noSitePanic top (pollLoop w fuel ex stackID succ).
Proof.
  intros HR. revert succ.
  induction fuel as [|fuel IH]; intros succ; simpl; [by sat_step|].
  repeat sat_step; done.
Qed.

Lemma runAll_sat_top {X} (f : X -> M unit) l :
  (forall x, sat P noSitePanic top (f x)) -> sat P noSitePanic top (runAll (f <$> l)).
Proof. intros Hf. apply sat_runAll, Forall_fmap, Forall_forall. intros x _. apply Hf. Qed.

Lemma logFailedEvent_sat e : sat P noSitePanic top (logFailedEvent e).
Proof. unfold logFailedEvent. repeat sat_step; done. Qed.

Lemma logStackOutput_sat o : sat P noSitePanic top (logStackOutput o).
Proof. unfold logStackOutput. repeat sat_step; done. Qed.

Lemma convergeStackState_sat url ctx :
  remoteOK false -> sat P noSitePanic top (convergeStackState w url ctx).
Proof.
  intros HR. unfold convergeStackState, stackEvents.
  repeat sat_step;
    eauto using stackExists_sat, pollLoop_sat, stackEvents_loop_sat,
      runAll_sat_top, logFailedEvent_sat, logStackOutput_sat.
Qed.

Lemma uploadAndConverge_sat nv ctx body key :
  remoteOK nv -> ctx_inv nv ctx ->
  sat P noSitePanic (fun r _ => stepPost nv (fun n => n = None) r)
      (uploadAndConverge w ctx body key).
Proof.
  intros HR Hinv. unfold uploadAndConverge, failStep.
  assert (Hn : noop ctx = nv) by apply Hinv. rewrite Hn.
  destruct nv; repeat sat_step; try (split; [inv_solve|done]).
  by apply convergeStackState_sat.
Qed.


Lemma serializeAndConverge_sat nv ctx :
  remoteOK nv -> ctx_inv nv ctx ->
  sat P noSitePanic (fun r _ => stepPost nv (fun n => n = None) r)
      (serializeAndConverge C w ctx).
Proof.
  intros HR Hinv. unfold serializeAndConverge, failStep.
  repeat sat_step; try done; try (split; [inv_solve|done]);
    (eapply sat_mono; [by apply uploadAndConverge_sat|done]).
Qed.

Lemma exchangeDependency_sat k t key : sat P noSitePanic top (exchangeDependency C k t key).
Proof. unfold exchangeDependency. repeat sat_step; done. Qed.

Lemma exchangeOutputs_sat t entry : sat P noSitePanic top (exchangeOutputs C t entry).
Proof.
  unfold exchangeOutputs. repeat sat_step; try done.
  apply forRange_sat_top. intros. apply exchangeDependency_sat.
Qed.

Lemma exportLambda_sat nv ctx l :
  ctx_inv nv ctx ->
  sat P noSitePanic
      (fun r _ => match r with
                  | inl ctx' => ctx_inv nv ctx'
                  | inr res => stepPost nv (fun n => n = None) res /\ res.2 ≠ None
                  end)
      (exportLambda ctx l).
Proof.
  intros Hinv. unfold exportLambda.
  repeat sat_step; [split; [split; [inv_solve|done]|done]|inv_solve].
Qed.

Lemma ensureCloudFormationStack_sat nv ctx :
  remoteOK nv -> ctx_inv nv ctx ->
  sat P noSitePanic (fun r _ => stepPost nv (fun n => n = None) r)
      (ensureCloudFormationStack_run C w ctx).
Proof.
  intros HR Hinv. unfold ensureCloudFormationStack_run, failStep.
  eapply sat_bind.
  - apply (sat_forRange (ctx_inv nv)
             (fun res => stepPost nv (fun n => n = None) res /\ res.2 ≠ None)); [|done].
    intros s x Hs _. by apply exportLambda_sat.
  - intros [ctx1|res] t1 H1; [|sat_step; by destruct H1].
    repeat sat_step; try done; try no_site; try (split; [inv_solve|done]);
      try (apply forRange_sat_top; intros; apply exchangeOutputs_sat);
      (eapply sat_mono;
         [apply serializeAndConverge_sat; [done|destruct (s3Site _); inv_solve]|done]).
Qed.

(** The build and package step. *)

Lemma createNewNodeJSProxyEntry_sat l : sat P noSitePanic top (createNewNodeJSProxyEntry l).
Proof. unfold createNewNodeJSProxyEntry. repeat sat_step; done. Qed.

Lemma appendProxyEntry_sat s l : sat P noSitePanic top (appendProxyEntry s l).
Proof.
  unfold appendProxyEntry. repeat sat_step; try done. apply createNewNodeJSProxyEntry_sat.
Qed.

Lemma embedScript_sat archive u name : sat P noSitePanic top (embedScript w archive u name).
Proof. unfold embedScript. repeat sat_step; done. Qed.

Lemma embedNodeModule_sat archive u f : sat P noSitePanic top (embedNodeModule C w archive u f).
Proof. unfold embedNodeModule. repeat sat_step; done. Qed.

Lemma packageArchive_sat ctx exe tmp :
  sat P noSitePanic (fun r _ => packagePost C w ctx r) (packageArchive C w ctx exe tmp).
Proof.
  unfold packageArchive, failStep, packagePost.
  repeat sat_step; try (split; [done|intros; first [done|eauto]]);
    apply forRange_sat_top; intros;
    eauto using appendProxyEntry_sat, embedScript_sat, embedNodeModule_sat.
Qed.

Lemma removeBinary_sat exe : sat P noSitePanic top (removeBinary w exe).
Proof. unfold removeBinary. repeat sat_step; done. Qed.

Lemma createPackageStep_sat nv ctx :
  ctx_inv nv ctx ->
  sat P noSitePanic
      (fun r _ => stepPost nv (fun n => exists p, n = Some (createUploadStep C w p)) r)
      (createPackageStep_run C w ctx).
Proof.
  intros Hinv. eapply sat_mono with (Q := fun r _ => packagePost C w ctx r).
  - unfold createPackageStep_run, failStep.
    repeat lazymatch goal with
           | |- sat _ _ _ (defer_ _ _) =>
               eapply (sat_defer (fun r _ => packagePost C w ctx r) _ top);
               [| |intros ? ? ? HQ _; exact HQ]
           | |- _ => sat_step
           end;
      try done; try (split; [done|intros; done]);
      eauto using removeBinary_sat, temporaryFile_sat, packageArchive_sat.
  - intros [[ctx' next] err] _ [Hctx Hnext]. simpl in *. subst ctx'. by split.
Qed.

(** The role verification step, for a [P] that allows the IAM lookup. *)

Lemma verifyIAMRole_sat nv ctx l :
  (forall n, P (EvIAMGetRole n)) -> ctx_inv nv ctx ->
  sat P noSitePanic
      (fun r _ => match r with
                  | inl ctx' => ctx_inv nv ctx'
                  | inr res => stepPost nv (fun n => n = None) res /\ res.2 ≠ None
                  end)
      (verifyIAMRole w ctx l).
Proof.
  intros HG Hinv. unfold verifyIAMRole.
  repeat lazymatch goal with
         | |- sat _ _ _ (call (EvIAMGetRole _) _ ≫= _) =>
             eapply sat_bind; [apply sat_call_any; apply HG | intros ? ? _]
         | |- _ => sat_step
         end;
    try done; try (split; [split; [inv_solve|done]|done]); inv_solve.
Qed.

Lemma verifyIAMRoles_sat nv ctx :
  (forall n, P (EvIAMGetRole n)) -> ctx_inv nv ctx ->
  sat P noSitePanic
      (fun r _ => stepPost nv (fun n => n = Some (createPackageStep C w)) r)
      (verifyIAMRoles_run C w ctx).
Proof.
  intros HG Hinv. unfold verifyIAMRoles_run. sat_step.
  eapply sat_bind.
  - apply (sat_forRange (ctx_inv nv)
             (fun res => stepPost nv (fun n => n = None) res /\ res.2 ≠ None)).
    + intros s x Hs _. by apply verifyIAMRole_sat.
    + inv_solve.
  - intros [ctx1|res] tv H1; repeat sat_step.
    + by split.
    + destruct H1 as [[H1 H2] H3]. by split.
Qed.

(** ** The engine *)

Lemma runWorkflow_unfold run ctx :
  runWorkflow w (Step run) ctx =
  (r ← run ctx;
   match r with
   | (ctx, _, Some err) => rollback w ctx;; mret (Some err)
   | (ctx, None, None) =>
       elapsed ← call EvTimeSince (time_Since w);
       logf InfoLevel "Elapsed time" [("Seconds", elapsed)];;
       mret None
   | (ctx, Some next, None) => runWorkflow w next ctx
   end).
Proof. reflexivity. Qed.

(** One turn of the loop, for a step that does not end the run. *)
Lemma runWorkflow_continue nv Q (next : option workflowStep -> Prop) run ctx :
  runPost Q -> remoteOK nv ->
  sat P noSitePanic (fun r _ => stepPost nv next r) (run ctx) ->
  ~ next None ->
  (forall n ctx', next (Some n) -> ctx_inv nv ctx' ->
                  sat P noSitePanic Q (runWorkflow w n ctx')) ->
  sat P noSitePanic Q (runWorkflow w (Step run) ctx).
Proof.
  intros [HQe HQm] HR Hrun Hnone Hnext. rewrite runWorkflow_unfold.
  eapply sat_bind; [exact Hrun|].
  intros [[ctx' n] [err|]] t1 [Hinv Hn]; simpl in *.
  - destruct n; (eapply sat_bind; [by eapply rollback_sat|]);
      intros; apply sat_ret; apply HQe.
  - specialize (Hn eq_refl). destruct n as [n|]; [|done].
    eapply sat_mono; [by apply Hnext|]. intros r t2 Hr.
    rewrite <- (app_nil_r t2). by apply HQm.
Qed.

(** The last turn of the loop. *)
Lemma runWorkflow_last nv Q run ctx :
  runPost Q -> remoteOK nv ->
  sat P noSitePanic (fun r t => stepPost nv (fun n => n = None) r /\ (r.2 = None -> Q None t))
      (run ctx) ->
  sat P noSitePanic Q (runWorkflow w (Step run) ctx).
Proof.
  intros [HQe HQm] HR Hrun. rewrite runWorkflow_unfold.
  eapply sat_bind; [exact Hrun|].
  intros [[ctx' n] [err|]] t1 [[Hinv Hn] HQ]; simpl in *.
  - destruct n; (eapply sat_bind; [by eapply rollback_sat|]);
      intros; apply sat_ret; apply HQe.
  - rewrite (Hn eq_refl). repeat sat_step.
    apply (HQm None [] t1). by apply HQ.
Qed.

(** The run from the package step on performs no IAM lookup, so [P] need
    not allow it. *)
Lemma runWorkflow_package_sat nv Q ctx :
  runPost Q -> remoteOK nv -> ctx_inv nv ctx ->
  (forall ctx', ctx_inv nv ctx' ->
     sat P noSitePanic
         (fun r t => stepPost nv (fun n => n = None) r /\ (r.2 = None -> Q None t))
         (ensureCloudFormationStack_run C w ctx')) ->
  sat P noSitePanic Q (runWorkflow w (createPackageStep C w) ctx).
Proof.
  intros HQ HR Hinv Hlast.
  eapply runWorkflow_continue; [done|done|by apply createPackageStep_sat| |].
  { by intros [p Hp]. }
  intros n ctx1 [p Hp] Hinv1. simplify_eq/=.
  eapply runWorkflow_continue; [done|done|by apply createUploadStep_sat|done|].
  intros n ctx2 Hn Hinv2. simplify_eq/=.
  eapply runWorkflow_last; [done|done|]. by apply Hlast.
Qed.

Lemma runWorkflow_sat nv Q ctx :
  runPost Q -> remoteOK nv -> (forall n, P (EvIAMGetRole n)) -> ctx_inv nv ctx ->
  (forall ctx', ctx_inv nv ctx' ->
     sat P noSitePanic
         (fun r t => stepPost nv (fun n => n = None) r /\ (r.2 = None -> Q None t))
         (ensureCloudFormationStack_run C w ctx')) ->
  sat P noSitePanic Q (runWorkflow w (verifyIAMRoles C w) ctx).
Proof.
  intros HQ HR HG Hinv Hlast.
  eapply runWorkflow_continue; [done|done|by apply verifyIAMRoles_sat|done|].
  intros n ctx1 Hn Hinv1. simplify_eq/=.
  by eapply runWorkflow_package_sat.
Qed.

Lemma runPost_top : runPost top.
Proof. by split. Qed.

Lemma ensureCloudFormationStack_last_top nv ctx :
  remoteOK nv -> ctx_inv nv ctx ->
  sat P noSitePanic
      (fun r t => stepPost nv (fun n => n = None) r /\ (r.2 = None -> True))
      (ensureCloudFormationStack_run C w ctx).
Proof.
  intros HR Hinv. eapply sat_mono; [by apply ensureCloudFormationStack_sat|].
  intros r t Hr. by split.
Qed.

Lemma newContext_inv nv sn sd ls a site b :
  ctx_inv nv (newContext nv sn sd ls a site b tw).
Proof. unfold newContext. inv_solve. Qed.

Lemma Provision_sat nv Q sn sd ls a site b :
  runPost Q -> remoteOK nv -> (forall n, P (EvIAMGetRole n)) ->
  (forall ctx', ctx_inv nv ctx' ->
     sat P noSitePanic
         (fun r t => stepPost nv (fun n => n = None) r /\ (r.2 = None -> Q None t))
         (ensureCloudFormationStack_run C w ctx')) ->
  sat P noSitePanic Q (Provision C w nv sn sd ls a site b tw).
Proof.
  intros HQ HR HG Hlast. unfold Provision. do 2 sat_step.
  pose proof HQ as [HQe HQm]. case_bool_decide.
  - apply sat_ret. apply HQe.
  - eapply sat_mono.
    + eapply runWorkflow_sat; [exact HQ|done|done|apply newContext_inv|done].
    + intros r t Hr. simpl. rewrite <- (app_nil_r t). rewrite app_assoc.
      by apply HQm.
Qed.

(** The final step of a no-op run: what it leaves in the history. *)






End StepFacts.

(** * Running the model *)

Example strings_Contains_not_found :
  strings_Contains "ValidationError: Stack with id demo does not exist" "does not exist"
  = true.
Proof. reflexivity. Qed.

Example strings_Contains_other : strings_Contains "AccessDenied" "does not exist" = false.
Proof. reflexivity. Qed.

Example trimmedName_nested : trimmedName "/work/site/css/main.css" "/work/site" = "css/main.css".
Proof. reflexivity. Qed.

Example schedule_second_first : schedule (fun _ => 1%nat) 2 ["a"; "b"] = ["b"; "a"].
Proof. reflexivity. Qed.

Example stackStatusSwitch_in_progress :
  stackStatusSwitch "UPDATE_IN_PROGRESS" false = (false, false).
Proof. reflexivity. Qed.

Example stackStatusSwitch_update_complete :
  stackStatusSwitch "UPDATE_COMPLETE" false = (true, true).
Proof. reflexivity. Qed.

Example stackStatusSwitch_delete_complete :
  stackStatusSwitch "DELETE_COMPLETE" true = (false, true).
Proof. reflexivity. Qed.

Example stackCapabilities_no_role : stackCapabilities NewTemplate = [].
Proof. reflexivity. Qed.

Example stackCapabilities_two_roles : stackCapabilities demoTemplate = ["CAPABILITY_IAM"].
Proof. by vm_compute. Qed.

Example proxy_entry :
  (createNewNodeJSProxyEntry (demoNamed "hello" "lambda-role") []).1 =
    Done (String.concat "" ["exports["; dquote; "hello"; dquote; "] = createForwarder(";
                            dquote; "/hello"; dquote; ");"; nl]).
Proof. reflexivity. Qed.

(** A no-op run of one function with a pre-existing role completes; its
    only network call is the role lookup. *)
Example noop_run_completes :
  (Provision demoCollaborators demoWorld true "demo" "a service"
             [demoNamed "hello" "lambda-role"] None None "bucket" (Some "template.json")
             []).1 = Done None /\
  networkCalls
    (Provision demoCollaborators demoWorld true "demo" "a service"
               [demoNamed "hello" "lambda-role"] None None "bucket" (Some "template.json")
               []).2 = [EvIAMGetRole "lambda-role"].
Proof. split; by vm_compute. Qed.

(** A live run whose stack cannot be described fails after two uploads;
    the rollback deletes both objects, in the order the scheduler picks. *)
Example live_run_rolls_back_uploads :
  (Provision demoCollaborators (failingStackWorld 0) false "demo" "a service"
             [demoNamed "hello" "lambda-role"] None None "bucket" None []).1 =
    Done (Some "AccessDenied") /\
  networkCalls
    (Provision demoCollaborators (failingStackWorld 0) false "demo" "a service"
               [demoNamed "hello" "lambda-role"] None None "bucket" None []).2 =
    [EvIAMGetRole "lambda-role";
     EvS3GetBucketLifecycleConfiguration "bucket";
     EvS3Upload "bucket" "/work/demo001" "application/zip";
     EvS3Upload "bucket" "demo-da39a3ee-cf.json" "application/json";
     EvCFDescribeStacks "demo";
     EvS3DeleteObject "bucket" "/work/demo001";
     EvS3DeleteObject "bucket" "demo-da39a3ee-cf.json"].
Proof. split; by vm_compute. Qed.

Example live_run_rolls_back_uploads_reordered :
  networkCalls
    (Provision demoCollaborators (failingStackWorld 1) false "demo" "a service"
               [demoNamed "hello" "lambda-role"] None None "bucket" None []).2 =
    [EvIAMGetRole "lambda-role";
     EvS3GetBucketLifecycleConfiguration "bucket";
     EvS3Upload "bucket" "/work/demo001" "application/zip";
     EvS3Upload "bucket" "demo-da39a3ee-cf.json" "application/json";
     EvCFDescribeStacks "demo";
     EvS3DeleteObject "bucket" "demo-da39a3ee-cf.json";
     EvS3DeleteObject "bucket" "/work/demo001"].
Proof. by vm_compute. Qed.

(** * The claims *)

Lemma Provision_empty C w noop sn sd ls api site b tw h :
  length ls = 0%nat ->
  Provision C w noop sn sd ls api site b tw h =
    (Done (Some "No lambda functions provided to Sparta.Provision()"),
     h ++ [EvTimeNow; EvAwsSession]).
Proof.
  intros Hlen. unfold Provision. rewrite bool_decide_true by lia.
  cbv [mbind M_bind bind emit call mret M_ret ret]. by rewrite <- app_assoc.
Qed.

(** C1: a call of [Provision] with a function-descriptor list of length 0
    returns the configuration error at once.  The history only grows by
    the clock read and the creation of the session handle: no step has run
    (nothing was logged) and nothing touched the network or the file
    system. *)
Theorem Provision_empty_list_fails C w noop sn sd ls api site b tw h :
  length ls = 0%nat ->
  Provision C w noop sn sd ls api site b tw h =
    (Done (Some "No lambda functions provided to Sparta.Provision()"),
     h ++ [EvTimeNow; EvAwsSession]) /\
  Forall (fun e => is_network e = false /\ is_filesystem e = false /\ is_log e = false)
         [EvTimeNow; EvAwsSession].
Proof.
  intros Hlen. split; [by apply Provision_empty|by repeat constructor].
Qed.

Lemma Provision_empty_list_fails_witness :
  Provision demoCollaborators demoWorld false "demo" "a service" [] None None "bucket"
            None [] =
    (Done (Some "No lambda functions provided to Sparta.Provision()"),
     [] ++ [EvTimeNow; EvAwsSession]) /\
  Forall (fun e => is_network e = false /\ is_filesystem e = false /\ is_log e = false)
         [EvTimeNow; EvAwsSession].
Proof.
  apply (Provision_empty_list_fails demoCollaborators demoWorld false "demo" "a service"
           [] None None "bucket" None []).
  reflexivity.
Defined.

(** The [switch] of the poll loop, against the lists of the specification. *)
Lemma stackStatusSwitch_spec status succeeded :
  stackStatusSwitch status succeeded =
    if decide (status ∈ terminalSuccess) then (true, true)
    else if decide (status ∈ terminalFailure) then (false, true)
    else (succeeded, false).
Proof.
  unfold stackStatusSwitch, terminalSuccess, terminalFailure,
    StackStatusCreateComplete, StackStatusUpdateComplete, StackStatusDeleteComplete,
    StackStatusCreateFailed, StackStatusDeleteFailed, StackStatusRollbackFailed,
    StackStatusRollbackComplete.
  destruct (decide (status ∈ _)) as [Hs|Hs].
  { apply list_elem_of_In in Hs. simpl in Hs.
    destruct Hs as [<-|[<-|[]]]; reflexivity. }
  destruct (decide (status ∈ _)) as [Hf|Hf].
  { apply list_elem_of_In in Hf. simpl in Hf.
    destruct Hf as [<-|[<-|[<-|[<-|[<-|[]]]]]]; reflexivity. }
  repeat (apply not_elem_of_cons in Hs as [? Hs]).
  repeat (apply not_elem_of_cons in Hf as [? Hf]).
  by rewrite !bool_decide_false by done.
Qed.

(** C3: in the convergence poll loop, a described stack whose status is
    CREATE_COMPLETE or UPDATE_COMPLETE ends the loop as a success; one
    whose status is DELETE_COMPLETE, CREATE_FAILED, DELETE_FAILED,
    ROLLBACK_FAILED or ROLLBACK_COMPLETE ends it as a failure; any other
    status logs the wait and polls again. *)
Theorem pollLoop_classifies_status w fuel exists_ stackID succeeded h stackInfo rest :
  let h1 := h ++ [EvRandInt31n 13; EvSleep (11 + rand_Int31n w h 13 `mod` 13)] in
  let h2 := h1 ++ [EvCFDescribeStacks stackID] in
  cf_DescribeStacks w h1 stackID = inr (stackInfo :: rest) ->
  pollLoop w (S fuel) exists_ stackID succeeded h =
    if decide (StackStatus stackInfo ∈ terminalSuccess)
    then (Done (inl (stackInfo, true)), h2)
    else if decide (StackStatus stackInfo ∈ terminalFailure)
    then (Done (inl (stackInfo, false)), h2)
    else pollLoop w fuel exists_ stackID succeeded
           (h2 ++ [EvLog InfoLevel
                     (if exists_ then "Waiting for UpdateStack to complete"
                      else "Waiting for CreateStack to complete") []]).
Proof.
  intros h1 h2 Hdescribe. subst h1 h2. simpl pollLoop.
  cbv [mbind M_bind bind emit call mret M_ret ret logf].
  rewrite <- !app_assoc in *. simpl in *.
  rewrite Hdescribe, stackStatusSwitch_spec.
  repeat case_decide; try done.
  by rewrite <- !app_assoc.
Qed.

Lemma pollLoop_classifies_status_witness :
  pollLoop (worldWith (fun _ => 0%nat) inr (inr []) inr
                      (fun _ => inr [demoStack "ROLLBACK_COMPLETE"]) None)
           1 false "stack-id" false [] =
    (Done (inl (demoStack "ROLLBACK_COMPLETE", false)),
     [EvRandInt31n 13; EvSleep 14; EvCFDescribeStacks "stack-id"]).
Proof.
  apply (pollLoop_classifies_status
           (worldWith (fun _ => 0%nat) inr (inr []) inr
                      (fun _ => inr [demoStack "ROLLBACK_COMPLETE"]) None)
           0 false "stack-id" false [] (demoStack "ROLLBACK_COMPLETE") []).
  reflexivity.
Defined.

(** The loop of [stackCapabilities] from a list that is empty or holds the
    one entry. *)
Lemma stackCapabilities_fold rs acc :
  acc = [] \/ acc = ["CAPABILITY_IAM"] ->
  foldl stackCapabilities_each acc rs =
    if decide (roleCount rs = 0%nat) then acc else ["CAPABILITY_IAM"].
Proof.
  revert acc. induction rs as [|r rs IH]; intros acc Hacc; [reflexivity|].
  simpl. unfold roleCount in *.
  unfold stackCapabilities_each at 2. case_bool_decide as Hr.
  - rewrite filter_cons_True by done. simpl length.
    destruct Hacc as [-> | ->]; simpl; rewrite IH by auto;
      repeat case_decide; done.
  - rewrite filter_cons_False by done. by apply IH.
Qed.

Lemma roleCount_Permutation rs rs' : rs ≡ₚ rs' -> roleCount rs = roleCount rs'.
Proof. intros Hp. unfold roleCount. by rewrite Hp. Qed.

(** C4: [stackCapabilities] returns the empty list for a template with no
    resource of type AWS::IAM::Role and the list holding the single entry
    CAPABILITY_IAM for a template with one or more of them, in whatever
    order the resource map is enumerated. *)
Theorem stackCapabilities_spec template rs :
  rs ≡ₚ (map_to_list (Resources template)).*2 ->
  stackCapabilities_range rs = stackCapabilities template /\
  stackCapabilities template =
    if decide (roleCount (map_to_list (Resources template)).*2 = 0%nat)
    then [] else ["CAPABILITY_IAM"].
Proof.
  intros Hp. unfold stackCapabilities, stackCapabilities_range.
  rewrite !stackCapabilities_fold by auto.
  by rewrite (roleCount_Permutation _ _ Hp).
Qed.

Lemma stackCapabilities_spec_witness :
  stackCapabilities_range (map_to_list (Resources demoTemplate)).*2 =
    stackCapabilities demoTemplate /\
  stackCapabilities demoTemplate =
    if decide (roleCount (map_to_list (Resources demoTemplate)).*2 = 0%nat)
    then [] else ["CAPABILITY_IAM"].
Proof.
  apply (stackCapabilities_spec demoTemplate (map_to_list (Resources demoTemplate)).*2).
  reflexivity.
Defined.

(** ** Runs of the engine *)


Lemma Reaches_inv run c h s2 c2 h2 :
  Reaches (Step run) c h s2 c2 h2 ->
  (s2 = Step run /\ c2 = c /\ h2 = h) \/
  exists c1 n h1, run c h = (Done (c1, Some n, None), h1) /\ Reaches n c1 h1 s2 c2 h2.
Proof. inversion 1; subst; eauto 10. Qed.

(** What [sat] says of one run that returned. *)
Lemma sat_Done {A} P N (Q : A -> trace -> Prop) (m : M A) h a h' :
  sat P N Q m -> m h = (Done a, h') -> exists t, h' = h ++ t /\ Forall P t /\ Q a t.
Proof.
  intros Hm Heq. destruct (Hm h) as (t & E & F & R). rewrite Heq in *. eauto.
Qed.

Section EngineFacts.

Context (C : Collaborators) (w : World) (tw : option Writer) (nv : bool).

Local Abbreviation anyEvent := (fun _ : event => True).

Lemma anyEvent_local : forall e, classify e = KLocal -> anyEvent e.
Proof. done. Qed.

Lemma anyEvent_remote : remoteAllowed anyEvent nv.
Proof. done. Qed.

(** The steps the loop of [Provision] can be at, and what holds there. *)
Lemma Reaches_Provision c0 h0 s c h :
  Reaches (verifyIAMRoles C w) c0 h0 s c h -> ctxInvariant w tw nv c0 ->
  ctxInvariant w tw nv c /\
  (s = verifyIAMRoles C w \/ s = createPackageStep C w \/
   (exists p, s = createUploadStep C w p) \/ s = ensureCloudFormationStack C w).
Proof.
  intros HR Hinv.
  apply Reaches_inv in HR as [(-> & -> & ->)|(c1 & n & h1 & Hrun & HR)]; [by eauto|].
  eapply sat_Done in Hrun as (t1 & _ & _ & HQ1);
    [|by apply (verifyIAMRoles_sat C w anyEvent tw anyEvent_local nv)].
  destruct HQ1 as [Hinv1 Hn1]. specialize (Hn1 eq_refl). simplify_eq/=.
  apply Reaches_inv in HR as [(-> & -> & ->)|(c2 & n & h2 & Hrun & HR)]; [by eauto|].
  eapply sat_Done in Hrun as (t2 & _ & _ & HQ2);
    [|by apply (createPackageStep_sat C w anyEvent tw anyEvent_local nv)].
  destruct HQ2 as [Hinv2 Hn2]. destruct (Hn2 eq_refl) as [p Hp]. simplify_eq/=.
  apply Reaches_inv in HR as [(-> & -> & ->)|(c3 & n & h3 & Hrun & HR)]; [by eauto 10|].
  eapply sat_Done in Hrun as (t3 & _ & _ & HQ3);
    [|by apply (createUploadStep_sat C w anyEvent tw anyEvent_local nv _ _ anyEvent_remote)].
  destruct HQ3 as [Hinv3 Hn3]. specialize (Hn3 eq_refl). simplify_eq/=.
  apply Reaches_inv in HR as [(-> & -> & ->)|(c4 & n & h4 & Hrun & HR)]; [by eauto 10|].
  eapply sat_Done in Hrun as (t4 & _ & _ & HQ4);
    [|by apply (ensureCloudFormationStack_sat C w anyEvent tw anyEvent_local nv _
                  anyEvent_remote)].
  destruct HQ4 as [Hinv4 Hn]. by specialize (Hn eq_refl).
Qed.


End EngineFacts.

(** The rollback functions of the workflow always return. *)

Lemma createS3RollbackFunc_returns w b k nv : returns (createS3RollbackFunc w b k nv).
Proof.
  intros h. unfold createS3RollbackFunc.
  destruct nv; cbv [negb mbind M_bind bind emit call mret M_ret ret logf]; [by eauto|].
  destruct (s3_DeleteObject w _ b k); by eauto.
Qed.


Lemma runAll_returns (units : list (M unit)) : Forall returns units -> returns (runAll units).
Proof.
  induction 1 as [|u us Hu _ IH]; intros h; simpl; [by eauto|].
  rewrite bind_unfold. destruct (Hu h) as [[] Ha].
  destruct (u h) as [[[]|p|] h1]; simplify_eq/=. apply IH.
Qed.

Lemma Provision_nonempty C w noop sn sd ls api site b tw h :
  ls ≠ [] ->
  Provision C w noop sn sd ls api site b tw h =
    runWorkflow w (verifyIAMRoles C w) (newContext noop sn sd ls api site b tw)
                (h ++ [EvTimeNow; EvAwsSession]).
Proof.
  intros Hls. unfold Provision.
  rewrite bool_decide_false by (destruct ls; simpl; [done|lia]).
  cbv [mbind M_bind bind emit call]. by rewrite <- app_assoc.
Qed.



(** ** The upload step *)

(** The loop over the gathered upload errors returns in its first turn. *)
Lemma uploadErrorText_first e rest hdr h :
  forRange uploadErrorText (e :: rest) hdr h = (Done (inr (hdr +:+ (hdr +:+ e +:+ nl))), h).
Proof. reflexivity. Qed.

(** C5 (the code departs from the claim): with the primary upload refused
    and the site archive impossible to create, both goroutines record a
    failure, yet the error of the step holds the first message only (after
    the header, twice): the [return] sits inside the loop. *)
Theorem upload_error_keeps_first_failure_only :
  gatheredErrors
    (runUnits [uploadPrimary demoCollaborators brokenUploadWorld "/work/demo001";
               uploadSite demoCollaborators brokenUploadWorld demoSite]
              (demoSiteContext, []) []) =
    ["RequestError: send request failed";
     "Failed to create temporary S3 site archive file"] /\
  stepError (createUploadStep_run demoCollaborators brokenUploadWorld "/work/demo001"
                                  demoSiteContext []) =
    Some (String.concat ""
            ["Encountered multiple errors during upload:"; nl;
             "Encountered multiple errors during upload:"; nl;
             "RequestError: send request failed"; nl]) /\
  (forall text,
     stepError (createUploadStep_run demoCollaborators brokenUploadWorld "/work/demo001"
                                     demoSiteContext []) = Some text ->
     strings_Contains text "Failed to create temporary S3 site archive file" = false).
Proof.
  split; [by vm_compute|]. split; [by vm_compute|].
  intros text Htext. vm_compute in Htext. injection Htext as <-. by vm_compute.
Qed.

(** ** The role verification step *)

(** C6 (counterexample): the third descriptor gives both a role name and a
    role definition and the step returns the conflict error, yet the role
    of the second descriptor has been looked up and the role resource of
    the first has been added to the template. *)
Lemma verifyIAMRoles_conflict_partial_effect :
  stepError (verifyIAMRoles_run demoCollaborators demoWorld
               (demoContext false
                  [demoDefined "f1" "RoleA"; demoNamed "f2" "lambda-role";
                   demoBoth "f3" "other-role" "RoleB"] None) []) =
    Some "Both RoleName and RoleDefinition defined for lambda: f3" /\
  lookups "lambda-role"
    (verifyIAMRoles_run demoCollaborators demoWorld
       (demoContext false
          [demoDefined "f1" "RoleA"; demoNamed "f2" "lambda-role";
           demoBoth "f3" "other-role" "RoleB"] None) []).2 = 1%nat /\
  match (verifyIAMRoles_run demoCollaborators demoWorld
           (demoContext false
              [demoDefined "f1" "RoleA"; demoNamed "f2" "lambda-role";
               demoBoth "f3" "other-role" "RoleB"] None) []).1 with
  | Done (ctx, _, _) =>
      ResourceType <$> (Properties <$> Resources (cfTemplate ctx) !! "RoleA") =
        Some "AWS::IAM::Role"
  | _ => False
  end.
Proof. split; [by vm_compute|]. split; by vm_compute. Qed.

(** [forRange] over a list cut at one element. *)
Lemma forRange_app {X S R} (body : S -> X -> M (S + R)) l1 l2 s h :
  forRange body (l1 ++ l2) s h =
    match forRange body l1 s h with
    | (Done (inl s1), h1) => forRange body l2 s1 h1
    | other => other
    end.
Proof.
  revert s h. induction l1 as [|x l1 IH]; intros s h; [done|].
  simpl. rewrite !bind_unfold. destruct (body s x h) as [[[s1|r]|p|] h1]; [|done..].
  apply IH.
Qed.

(** Execute the monad operations at the head of a goal. *)
Ltac run_m := cbv [mbind M_bind bind emit call mret M_ret ret logf raise diverge history].

(** When the loop body of [verifyIAMRoles] returns, it returns an error. *)
Lemma verifyIAMRole_inr w ctx l h res h' :
  verifyIAMRole w ctx l h = (Done (inr res), h') -> exists e, res.2 = Some e.
Proof.
  unfold verifyIAMRole.
  repeat (run_m; case_match); run_m; intros; simplify_eq/=; eauto.
Qed.

Lemma forRange_verifyIAMRole_inr w ls ctx h res h' :
  forRange (verifyIAMRole w) ls ctx h = (Done (inr res), h') -> exists e, res.2 = Some e.
Proof.
  revert ctx h. induction ls as [|l ls IH]; intros ctx h; simpl; [by run_m|].
  rewrite bind_unfold.
  destruct (verifyIAMRole w ctx l h) as [[[ctx1|r]|p|] h1] eqn:E; try by run_m.
  - apply IH.
  - run_m. intros. simplify_eq. by eapply verifyIAMRole_inr.
Qed.

(** C6 (as amended): when a descriptor gives both a role name and a role
    definition, the step goes no further than the descriptors before it:
    its history and its context are those of these earlier descriptors, so
    no role is looked up and no role resource is added for the conflicting
    descriptor nor for any later one; once the earlier descriptors have all
    resolved it returns the conflict error naming the descriptor; and the
    run never completes. *)
Theorem verifyIAMRoles_conflict C w ctx pre bad post h :
  lambdaAWSInfos ctx = pre ++ bad :: post ->
  RoleName bad ≠ "" -> is_Some (RoleDefinition bad) ->
  verifyIAMRoles_run C w ctx h =
    match forRange (verifyIAMRole w) pre (set_lambdaIAMRoleNameMap ctx ∅)
                   (h ++ [EvLog InfoLevel "Verifying IAM Lambda execution roles" []]) with
    | (Done (inl ctx1), h1) =>
        (Done (ctx1, None,
               Some ("Both RoleName and RoleDefinition defined for lambda: "
                     +:+ lambdaFnName bad)), h1)
    | (Done (inr res), h1) => (Done res, h1)
    | (Panicked p, h1) => (Panicked p, h1)
    | (Diverged, h1) => (Diverged, h1)
    end /\
  (runWorkflow w (verifyIAMRoles C w) ctx h).1 ≠ Done None.
Proof.
  intros Hls Hname Hdef.
  assert (Hrun : verifyIAMRoles_run C w ctx h =
    match forRange (verifyIAMRole w) pre (set_lambdaIAMRoleNameMap ctx ∅)
                   (h ++ [EvLog InfoLevel "Verifying IAM Lambda execution roles" []]) with
    | (Done (inl ctx1), h1) =>
        (Done (ctx1, None,
               Some ("Both RoleName and RoleDefinition defined for lambda: "
                     +:+ lambdaFnName bad)), h1)
    | (Done (inr res), h1) => (Done res, h1)
    | (Panicked p, h1) => (Panicked p, h1)
    | (Diverged, h1) => (Diverged, h1)
    end).
  { unfold verifyIAMRoles_run. rewrite bind_unfold. cbv [logf emit call]. cbv beta iota.
    rewrite bind_unfold. simpl lambdaAWSInfos. rewrite Hls, forRange_app.
    destruct (forRange (verifyIAMRole w) pre _ _) as [[[ctx1|res]|p|] h1]; try done.
    simpl forRange. rewrite bind_unfold. unfold verifyIAMRole at 1.
    rewrite !bool_decide_true by done. done. }
  split; [exact Hrun|].
  unfold verifyIAMRoles. rewrite runWorkflow_unfold, bind_unfold, Hrun.
  destruct (forRange (verifyIAMRole w) pre _ _) as [[[ctx1|res]|p|] h1] eqn:E; try done.
  - rewrite bind_unfold. by destruct (rollback w ctx1 h1) as [[[]|p|] h2].
  - destruct (forRange_verifyIAMRole_inr _ _ _ _ _ _ E) as [e He].
    destruct res as [[c n] err]. simpl in He. subst err.
    destruct n; rewrite bind_unfold; by destruct (rollback w c h1) as [[[]|p|] h2].
Qed.

Lemma verifyIAMRoles_conflict_witness :
  verifyIAMRoles_run demoCollaborators demoWorld
    (demoContext false [demoNamed "f2" "lambda-role"; demoBoth "f3" "other-role" "RoleB"]
                 None) [] =
    match forRange (verifyIAMRole demoWorld) [demoNamed "f2" "lambda-role"]
                   (set_lambdaIAMRoleNameMap
                      (demoContext false
                         [demoNamed "f2" "lambda-role"; demoBoth "f3" "other-role" "RoleB"]
                         None) ∅)
                   ([] ++ [EvLog InfoLevel "Verifying IAM Lambda execution roles" []]) with
    | (Done (inl ctx1), h1) =>
        (Done (ctx1, None,
               Some ("Both RoleName and RoleDefinition defined for lambda: "
                     +:+ lambdaFnName (demoBoth "f3" "other-role" "RoleB"))), h1)
    | (Done (inr res), h1) => (Done res, h1)
    | (Panicked p, h1) => (Panicked p, h1)
    | (Diverged, h1) => (Diverged, h1)
    end /\
  (runWorkflow demoWorld (verifyIAMRoles demoCollaborators demoWorld)
     (demoContext false [demoNamed "f2" "lambda-role"; demoBoth "f3" "other-role" "RoleB"]
                  None) []).1 ≠ Done None.
Proof.
  apply (verifyIAMRoles_conflict demoCollaborators demoWorld
           (demoContext false
              [demoNamed "f2" "lambda-role"; demoBoth "f3" "other-role" "RoleB"] None)
           [demoNamed "f2" "lambda-role"] (demoBoth "f3" "other-role" "RoleB") [] []).
  - reflexivity.
  - discriminate.
  - simpl. eauto.
Defined.

(** ** The per-file upload *)




(** ** No-op runs *)






(** ** The site wrapper *)

(** C10: the context that [Provision] builds holds an allocated site
    wrapper around the (possibly nil) site descriptor, every context the
    loop reaches still holds one, and no run of [Provision] panics on a
    nil wrapper. *)
Theorem Provision_site_wrapper_allocated C w noop sn sd ls api site b tw h :
  ctx_s3SiteContext (newContext noop sn sd ls api site b tw) =
    Some {| s3Site := site; s3SiteLambdaZipKey := "" |} /\
  (forall s c h',
     Reaches (verifyIAMRoles C w) (newContext noop sn sd ls api site b tw)
             (h ++ [EvTimeNow; EvAwsSession]) s c h' ->
     is_Some (ctx_s3SiteContext c)) /\
  (Provision C w noop sn sd ls api site b tw h).1 ≠ Panicked NilSiteContext.
Proof.
  split; [done|]. split.
  - intros s c h' HR.
    by destruct (Reaches_Provision C w tw noop _ _ _ _ _ HR (newContext_inv w tw noop _ _ _ _ _ _))
      as [(_ & _ & Hsome & _) _].
  - destruct (Provision_sat C w (fun _ => True) tw (fun _ _ => I) noop (fun _ _ => True)
                sn sd ls api site b) with (h := h) as (t & E & F & R); try done.
    + intros ctx' Hinv. eapply sat_mono.
      * by apply (ensureCloudFormationStack_sat C w (fun _ => True) tw (fun _ _ => I) noop).
      * intros r t Hr. by split.
    + intros Hpanic. rewrite Hpanic in R. by apply R.
Qed.

Lemma Provision_site_wrapper_allocated_witness :
  ctx_s3SiteContext (newContext true "demo" "a service" [demoNamed "hello" "lambda-role"]
                                None None "bucket" None) =
    Some {| s3Site := None; s3SiteLambdaZipKey := "" |} /\
  (forall s c h',
     Reaches (verifyIAMRoles demoCollaborators demoWorld)
             (newContext true "demo" "a service" [demoNamed "hello" "lambda-role"]
                         None None "bucket" None)
             ([] ++ [EvTimeNow; EvAwsSession]) s c h' ->
     is_Some (ctx_s3SiteContext c)) /\
  (Provision demoCollaborators demoWorld true "demo" "a service"
             [demoNamed "hello" "lambda-role"] None None "bucket" None []).1
    ≠ Panicked NilSiteContext.
Proof.
  exact (Provision_site_wrapper_allocated demoCollaborators demoWorld true "demo"
           "a service" [demoNamed "hello" "lambda-role"] None None "bucket" None []).
Defined.

(** ** Role lookups *)

Lemma lookups_app name t1 t2 : lookups name (t1 ++ t2) = (lookups name t1 + lookups name t2)%nat.
Proof.
  induction t1 as [|e t1 IH]; [done|]. destruct e; simpl; rewrite ?IH; lia.
Qed.

Lemma lookups_none name t :
  Forall (fun e => classify e ≠ KGetRole) t -> lookups name t = 0%nat.
Proof. induction 1 as [|e t He _ IH]; [done|]. by destruct e. Qed.

Lemma resolvedIn_mono ctx ctx' l :
  (forall k, is_Some (lambdaIAMRoleNameMap ctx !! k) ->
             is_Some (lambdaIAMRoleNameMap ctx' !! k)) ->
  resolvedIn ctx l -> resolvedIn ctx' l.
Proof. intros Hm [H1 H2]. split; eauto. Qed.

(** One turn of the loop of [verifyIAMRoles]: a name is looked up only
    when the map does not hold it, and is in the map afterwards. *)
Lemma verifyIAMRole_lookups w ctx l h name :
  exists t,
    (verifyIAMRole w ctx l h).2 = h ++ t /\
    (lookups name t ≤ 1)%nat /\
    (is_Some (lambdaIAMRoleNameMap ctx !! name) -> lookups name t = 0%nat) /\
    match (verifyIAMRole w ctx l h).1 with
    | Done (inl ctx') =>
        (forall k, is_Some (lambdaIAMRoleNameMap ctx !! k) ->
                   is_Some (lambdaIAMRoleNameMap ctx' !! k)) /\
        (lookups name t = 1%nat -> is_Some (lambdaIAMRoleNameMap ctx' !! name)) /\
        resolvedIn ctx' l
    | _ => True
    end.
Proof.
  unfold verifyIAMRole, resolvedIn.
  repeat (run_m; case_match); run_m; simpl; rewrite <- ?app_assoc; simpl;
    (eexists; split; [try reflexivity; by rewrite app_nil_r|]); simpl;
    repeat case_bool_decide; simplify_eq/=;
    repeat split; try done; try lia; try (intros [? ?]; congruence);
    try (intros; simplify_eq; done);
    try (intros k Hk; rewrite lookup_insert; by case_decide);
    try (intros; simplify_eq; rewrite lookup_insert_eq; eauto).
Qed.

(** The whole loop: at most one lookup of a name, none for a name the map
    already holds, and every descriptor resolved when the loop ends. *)
Lemma forRange_verifyIAMRole_lookups w ls ctx h name :
  exists t,
    (forRange (verifyIAMRole w) ls ctx h).2 = h ++ t /\
    (lookups name t ≤ 1)%nat /\
    (is_Some (lambdaIAMRoleNameMap ctx !! name) -> lookups name t = 0%nat) /\
    match (forRange (verifyIAMRole w) ls ctx h).1 with
    | Done (inl ctx') =>
        (forall k, is_Some (lambdaIAMRoleNameMap ctx !! k) ->
                   is_Some (lambdaIAMRoleNameMap ctx' !! k)) /\
        Forall (resolvedIn ctx') ls
    | _ => True
    end.
Proof.
  revert ctx h. induction ls as [|l ls IH]; intros ctx h; simpl.
  { exists []. run_m. simpl. rewrite app_nil_r.
    split; [done|]. split; [lia|]. split; [done|]. by split. }
  rewrite bind_unfold.
  destruct (verifyIAMRole_lookups w ctx l h name) as (t1 & E1 & L1 & Z1 & Post1).
  destruct (verifyIAMRole w ctx l h) as [[[ctx1|r]|p|] h1]; simpl in *; subst h1;
    try (by exists t1).
  destruct Post1 as (Hm1 & Hone & Hres).
  destruct (IH ctx1 (h ++ t1)) as (t2 & E2 & L2 & Z2 & Post2).
  exists (t1 ++ t2). rewrite E2, app_assoc, lookups_app. split; [done|].
  assert (Hsum : (lookups name t1 + lookups name t2 ≤ 1)%nat).
  { destruct (decide (lookups name t1 = 1%nat)) as [H1|H1]; [|lia].
    rewrite (Z2 (Hone H1)). lia. }
  split; [exact Hsum|]. split.
  { intros Hin. rewrite (Z1 Hin), (Z2 (Hm1 _ Hin)). done. }
  destruct (forRange (verifyIAMRole w) ls ctx1 (h ++ t1)) as [[[ctx2|r]|p|] h2]; try done.
  destruct Post2 as (Hm2 & Hall). split; [by eauto|].
  constructor; [|done]. by apply (resolvedIn_mono ctx1).
Qed.

(** The step: at most one lookup of a name, and every descriptor resolved
    in the role map when the step hands over to the next one. *)
Lemma verifyIAMRoles_run_lookups C w ctx h name :
  exists t,
    (verifyIAMRoles_run C w ctx h).2 = h ++ t /\
    (lookups name t ≤ 1)%nat /\
    match (verifyIAMRoles_run C w ctx h).1 with
    | Done (ctx', _, None) => Forall (resolvedIn ctx') (lambdaAWSInfos ctx)
    | _ => True
    end.
Proof.
  unfold verifyIAMRoles_run. rewrite bind_unfold. cbv [logf emit call]. cbv beta iota.
  rewrite bind_unfold. simpl lambdaAWSInfos.
  destruct (forRange_verifyIAMRole_lookups w (lambdaAWSInfos ctx)
              (set_lambdaIAMRoleNameMap ctx ∅)
              (h ++ [EvLog InfoLevel "Verifying IAM Lambda execution roles" []]) name)
    as (t & E & L & _ & Post).
  destruct (forRange (verifyIAMRole w) _ _ _) as [[[ctx1|r]|p|] h1] eqn:Efor;
    simpl in *; subst h1.
  - run_m. simpl. eexists. rewrite <- !app_assoc. split; [reflexivity|].
    simpl. split; [|by destruct Post].
    rewrite lookups_app. simpl. lia.
  - run_m. simpl. exists (EvLog InfoLevel "Verifying IAM Lambda execution roles" [] :: t).
    rewrite <- app_assoc. split; [done|]. split; [done|].
    destruct (forRange_verifyIAMRole_inr _ _ _ _ _ _ Efor) as [e He].
    destruct r as [[c n] err]. simpl in He. by subst err.
  - exists (EvLog InfoLevel "Verifying IAM Lambda execution roles" [] :: t).
    rewrite <- app_assoc. by split.
  - exists (EvLog InfoLevel "Verifying IAM Lambda execution roles" [] :: t).
    rewrite <- app_assoc. by split.
Qed.

Lemma notGetRole_local e : classify e = KLocal -> classify e ≠ KGetRole.
Proof. congruence. Qed.

Lemma notGetRole_remote nv : remoteAllowed (fun e => classify e ≠ KGetRole) nv.
Proof. intros _ e He. congruence. Qed.

(** C7: in a run of [Provision] the role-existence lookup of any one name
    is performed at most once, however many descriptors share that name;
    and when the role verification step hands over to the next step, the
    name under which each descriptor's role is resolved is in the shared
    role map. *)
Theorem role_lookup_at_most_once C w noop sn sd ls api site b tw h name :
  (exists t,
     (Provision C w noop sn sd ls api site b tw h).2 = h ++ t /\
     (lookups name t ≤ 1)%nat) /\
  (forall ctx h1 ctx' next h2,
     verifyIAMRoles_run C w ctx h1 = (Done (ctx', Some next, None), h2) ->
     Forall (resolvedIn ctx') (lambdaAWSInfos ctx)).
Proof.
  split.
  - destruct (decide (ls = [])) as [->|Hls].
    { exists [EvTimeNow; EvAwsSession]. split; [|simpl; lia].
      by rewrite Provision_empty. }
    rewrite Provision_nonempty by done.
    set (c0 := newContext noop sn sd ls api site b tw).
    set (h1 := h ++ [EvTimeNow; EvAwsSession]).
    unfold verifyIAMRoles. rewrite runWorkflow_unfold, bind_unfold.
    destruct (verifyIAMRoles_run_lookups C w c0 h1 name) as (t1 & E1 & L1 & _).
    pose proof (verifyIAMRoles_sat C w (fun _ => True) tw (fun _ _ => I) noop c0
                  (fun _ => I) (newContext_inv w tw noop _ _ _ _ _ _) h1)
      as (t1' & E1' & _ & Post).
    destruct (verifyIAMRoles_run C w c0 h1) as [[[[c1 n] err]|p|] h2]; simpl in *;
      subst h2; subst h1;
      try (exists ([EvTimeNow; EvAwsSession] ++ t1); rewrite app_assoc;
           split; [done|]; by rewrite lookups_app).
    destruct Post as [Hinv Hnext].
    assert (Hrest : exists t2,
      (match err with
       | Some e => rollback w c1 ≫= λ _ : (), mret (Some e)
       | None => match n with
                 | Some next => runWorkflow w next c1
                 | None =>
                     call EvTimeSince (time_Since w)
                     ≫= λ elapsed, logf InfoLevel "Elapsed time" [("Seconds", elapsed)]
                     ≫= λ _ : (), mret None
                 end
       end ((h ++ [EvTimeNow; EvAwsSession]) ++ t1)).2 =
        ((h ++ [EvTimeNow; EvAwsSession]) ++ t1) ++ t2 /\
      lookups name t2 = 0%nat).
    { destruct err as [e|].
      - destruct (rollback_sat w (fun e => classify e ≠ KGetRole) tw notGetRole_local
                    noop c1 (notGetRole_remote noop) Hinv
                    ((h ++ [EvTimeNow; EvAwsSession]) ++ t1)) as (t2 & E2 & F2 & _).
        exists t2. rewrite bind_unfold.
        destruct (rollback w c1 _) as [[[]|p|] h3]; simpl in *; subst h3;
          (split; [done|by apply lookups_none]).
      - pose proof (Hnext eq_refl) as Hn. simpl in Hn. subst n.
        destruct (runWorkflow_package_sat C w (fun e => classify e ≠ KGetRole) tw
                    notGetRole_local noop (fun _ _ => True) c1
                    (runPost_top) (notGetRole_remote noop) Hinv) with
          (h := (h ++ [EvTimeNow; EvAwsSession]) ++ t1) as (t2 & E2 & F2 & _).
        + intros ctx' Hinv'. eapply sat_mono.
          * by apply (ensureCloudFormationStack_sat C w _ tw notGetRole_local noop
                        ctx' (notGetRole_remote noop)).
          * intros r t Hr. by split.
        + exists t2. split; [done|by apply lookups_none]. }
    destruct Hrest as (t2 & E2 & L2).
    exists ([EvTimeNow; EvAwsSession] ++ t1 ++ t2).
    rewrite !lookups_app, L2. simpl. split; [|lia].
    transitivity (((h ++ [EvTimeNow; EvAwsSession]) ++ t1) ++ t2);
      [by destruct err, n|by rewrite <- !app_assoc].
  - intros ctx h1 ctx' next h2 Hrun.
    destruct (verifyIAMRoles_run_lookups C w ctx h1 name) as (t & _ & _ & Post).
    by rewrite Hrun in Post.
Qed.

Lemma role_lookup_at_most_once_witness :
  (exists t,
     (Provision demoCollaborators demoWorld true "demo" "a service"
                [demoNamed "f1" "lambda-role"; demoNamed "f2" "lambda-role"]
                None None "bucket" None []).2 = [] ++ t /\
     (lookups "lambda-role" t ≤ 1)%nat) /\
  Forall (resolvedIn
            (set_lambdaIAMRoleNameMap
               (demoContext true [demoNamed "f1" "lambda-role"; demoNamed "f2" "lambda-role"]
                            None)
               {["lambda-role" := Literal "arn:aws:iam::role/lambda-role"]}))
         (lambdaAWSInfos
            (demoContext true [demoNamed "f1" "lambda-role"; demoNamed "f2" "lambda-role"]
                         None)).
Proof.
  destruct (role_lookup_at_most_once demoCollaborators demoWorld true "demo" "a service"
              [demoNamed "f1" "lambda-role"; demoNamed "f2" "lambda-role"]
              None None "bucket" None [] "lambda-role") as [Honce Hresolved].
  split; [exact Honce|].
  apply (Hresolved
           (demoContext true [demoNamed "f1" "lambda-role"; demoNamed "f2" "lambda-role"]
                        None)
           [] _ (createPackageStep demoCollaborators demoWorld)
           [EvLog InfoLevel "Verifying IAM Lambda execution roles" [];
            EvLog DebugLevel "Checking IAM RoleName: lambda-role" [];
            EvIAMGetRole "lambda-role";
            EvLog InfoLevel "IAM roles verified" [("Count", "1")]]).
  reflexivity.
Defined.


(** * Further properties of the code *)

(** ** Further rules *)

Abbreviation anyResult := (fun _ _ => True).

Section SatTop.
Context {P : event -> Prop} {N : panic -> Prop}.

Lemma sat_top {A} (Q : A -> trace -> Prop) (m : M A) : sat P N Q m -> sat P N anyResult m.
Proof. intros Hm. by eapply sat_mono. Qed.

Lemma sat_bind_top {A B} (m : M A) (k : A -> M B) :
  sat P N anyResult m -> (forall a, sat P N anyResult (k a)) -> sat P N anyResult (m ≫= k).
Proof. intros Hm Hk. eapply sat_bind; [exact Hm|]. intros a t _. apply Hk. Qed.

Lemma sat_emit_top e : P e -> sat P N anyResult (emit e).
Proof. intros He. by apply sat_call. Qed.

Lemma sat_defer_top {A} (cleanup : M unit) (body : M A) :
  sat P N anyResult body -> sat P N anyResult cleanup ->
  sat P N anyResult (defer_ cleanup body).
Proof. intros Hb Hc. by eapply sat_defer. Qed.

Lemma sat_forRange_top {X S R} (body : S -> X -> M (S + R)) l s :
  (forall s x, sat P N anyResult (body s x)) -> sat P N anyResult (forRange body l s).
Proof.
  intros Hb. revert s. induction l as [|x l IH]; intros s; simpl.
  - by apply sat_ret.
  - apply sat_bind_top; [apply Hb|]. intros [s'|v]; [apply IH|by apply sat_ret].
Qed.

Lemma sat_runAll_top {X} (f : X -> M unit) l :
  (forall x, sat P N anyResult (f x)) -> sat P N anyResult (runAll (f <$> l)).
Proof. intros Hf. apply sat_runAll, Forall_fmap, Forall_forall. intros x _. apply Hf. Qed.

Lemma sat_runUnits_top {S} (units : list (S -> M S)) (s : S) :
  Forall (fun u => forall s, sat P N anyResult (u s)) units ->
  sat P N anyResult (runUnits units s).
Proof.
  intros Hu. eapply sat_top. apply (sat_runUnits (fun _ => True)); [|done].
  eapply Forall_impl; [exact Hu|]. intros u H s0 _. eapply sat_mono; [apply H|done].
Qed.

End SatTop.

(** One step through a computation, every post-condition being trivial:
    [ev] settles that an event is allowed, [pn] that a panic is. *)
Ltac sat_walk ev pn :=
  lazymatch goal with
  | |- sat _ _ _ (mret _) => by apply sat_ret
  | |- sat _ _ _ (ret _) => by apply sat_ret
  | |- sat _ _ _ (_ ≫= _) => apply sat_bind_top; [|intros ?]
  | |- sat _ _ _ (call _ _) => apply sat_call_any; ev
  | |- sat _ _ _ (emit _) => apply sat_emit_top; ev
  | |- sat _ _ _ (logf _ _ _) => apply sat_emit_top; ev
  | |- sat _ _ _ (raise _) => apply sat_raise; pn
  | |- sat _ _ _ diverge => apply sat_diverge
  | |- sat _ _ _ history => by apply sat_history
  | |- sat _ _ _ (failStep _ _) => by apply sat_ret
  | |- sat _ _ _ (defer_ _ _) => apply sat_defer_top
  | |- sat _ _ _ (forRange _ _ _) => apply sat_forRange_top; intros ? ?
  | |- sat _ _ _ (runAll (_ <$> _)) => apply sat_runAll_top; intros ?
  | |- sat _ _ _ (let '(_, _) := ?x in _) => destruct x eqn:?
  | |- sat _ _ _ (if negb ?x then _ else _) => destruct x eqn:?; simpl negb; cbv iota
  | |- sat _ _ _ (match ?x with _ => _ end) => destruct x eqn:?
  end.

(** ** Computations that return *)

Lemma returns_ret {A} (a : A) : returns (mret a : M A).
Proof. intros h. by exists a. Qed.

Lemma returns_bind {A B} (m : M A) (k : A -> M B) :
  returns m -> (forall a, returns (k a)) -> returns (m ≫= k).
Proof.
  intros Hm Hk h. rewrite bind_unfold. destruct (Hm h) as [a Ha].
  destruct (m h) as [[a'|p|] h1]; simplify_eq/=. apply Hk.
Qed.

Lemma returns_call {A} e (o : trace -> A) : returns (call e o).
Proof. intros h. by eexists. Qed.

Lemma returns_defer {A} (cleanup : M unit) (body : M A) :
  returns body -> returns cleanup -> returns (defer_ cleanup body).
Proof.
  intros Hb Hc h. unfold defer_. destruct (Hb h) as [a Ha].
  destruct (body h) as [[a'|p|] h1]; simplify_eq/=.
  destruct (Hc h1) as [[] Hu]. destruct (cleanup h1) as [[[]|p|] h2]; simplify_eq/=.
  by eexists.
Qed.

Lemma returns_forRange {X S R} (body : S -> X -> M (S + R)) l s :
  (forall s x, returns (body s x)) -> returns (forRange body l s).
Proof.
  intros Hb. revert s. induction l as [|x l IH]; intros s; simpl.
  - apply returns_ret.
  - apply returns_bind; [apply Hb|]. intros [s'|v]; [apply IH|apply returns_ret].
Qed.

Ltac returns_walk :=
  lazymatch goal with
  | |- returns (mret _) => apply returns_ret
  | |- returns (ret _) => apply returns_ret
  | |- returns (_ ≫= _) => apply returns_bind; [|intros ?]
  | |- returns (call _ _) => apply returns_call
  | |- returns (emit _) => apply returns_call
  | |- returns (logf _ _ _) => apply returns_call
  | |- returns (failStep _ _) => apply returns_ret
  | |- returns (defer_ _ _) => apply returns_defer
  | |- returns (forRange _ _ _) => apply returns_forRange; intros ? ?
  | |- returns (let '(_, _) := ?x in _) => destruct x eqn:?
  | |- returns (if negb ?x then _ else _) => destruct x eqn:?; simpl negb; cbv iota
  | |- returns (match ?x with _ => _ end) => destruct x eqn:?
  end.

(** What [sat] and [returns] say together of one run. *)
Lemma sat_returns {A} P N (Q : A -> trace -> Prop) (m : M A) h :
  sat P N Q m -> returns m -> exists a t, m h = (Done a, h ++ t) /\ Forall P t /\ Q a t.
Proof.
  intros Hs Hr. destruct (Hs h) as (t & E & F & R). destruct (Hr h) as [a Ha].
  destruct (m h) as [o h1]. simpl in *. subst. by exists a, t.
Qed.

(** ** rollback *)

Lemma s3Deletes_app t1 t2 : s3Deletes (t1 ++ t2) = s3Deletes t1 ++ s3Deletes t2.
Proof. apply omap_app. Qed.

Lemma rollbackUnit_deletes w noop item h :
  exists t, rollbackUnit (s3RollbackOf w noop item) h = (Done tt, h ++ t) /\
            s3Deletes t = if noop then [] else [item].
Proof.
  destruct item as [b k]. unfold rollbackUnit, s3RollbackOf, createS3RollbackFunc. simpl.
  destruct noop; simpl; run_m; [|destruct (s3_DeleteObject w _ b k)];
    rewrite <- ?app_assoc; simpl; by eexists.
Qed.

Lemma runAll_deletes w noop items h :
  exists t, runAll (rollbackUnit <$> (s3RollbackOf w noop <$> items)) h = (Done tt, h ++ t) /\
            s3Deletes t = if noop then [] else items.
Proof.
  revert h. induction items as [|item items IH]; intros h.
  - exists []. simpl. rewrite app_nil_r. by destruct noop.
  - rewrite !fmap_cons. cbn [runAll]. rewrite bind_unfold.
    destruct (rollbackUnit_deletes w noop item h) as (t1 & E1 & D1). rewrite E1.
    destruct (IH (h ++ t1)) as (t2 & E2 & D2). rewrite E2.
    exists (t1 ++ t2). rewrite app_assoc, s3Deletes_app, D1, D2. by destruct noop.
Qed.

(** X1: [rollback] over a registry of S3 rollback functions returns, and
    the objects whose deletion it requests are, up to the order the
    scheduler picked, the registered ones, each once, when the functions
    were made for a live run; functions made for a no-op run request no
    deletion. *)
Theorem rollback_deletes_each_registered_item w ctx noop items h :
  exists t,
    rollback w (set_rollbackFunctions ctx (s3RollbackOf w noop <$> items)) h =
      (Done tt, h ++ t) /\
    s3Deletes t ≡ₚ (if noop then [] else items).
Proof.
  unfold rollback. simpl rollbackFunctions.
  rewrite bind_unfold. cbv [logf emit call]. cbv beta iota.
  rewrite bind_unfold. cbv [history]. cbv beta iota.
  set (h1 := h ++ _).
  pose proof (schedule_Permutation (sched w h1) (s3RollbackOf w noop <$> items)) as Hp.
  rewrite length_fmap in Hp |- *.
  apply (Permutation_map_inv (s3RollbackOf w noop)) in Hp as (items' & Heq & Hperm).
  rewrite Heq. change (map (s3RollbackOf w noop) items') with (s3RollbackOf w noop <$> items').
  destruct (runAll_deletes w noop items' h1) as (t & -> & D).
  subst h1. eexists. rewrite <- app_assoc. split; [reflexivity|].
  rewrite s3Deletes_app, D. simpl. destruct noop; [done|]. by symmetry.
Qed.

(** ** Strings *)

Lemma append_cons c s1 s2 : String c s1 +:+ s2 = String c (s1 +:+ s2).
Proof. reflexivity. Qed.

Lemma append_assoc (s1 s2 s3 : string) : (s1 +:+ s2) +:+ s3 = s1 +:+ (s2 +:+ s3).
Proof.
  induction s1 as [|c s1 IH]; [reflexivity|]. by rewrite !append_cons, IH.
Qed.

Lemma prefix_append p s : String.prefix p (p +:+ s) = true.
Proof.
  induction p as [|c p IH]; [by destruct s|].
  rewrite append_cons. simpl. by destruct (Ascii.ascii_dec c c).
Qed.

Lemma prefix_append_inv p s : String.prefix p s = true -> exists b, s = p +:+ b.
Proof.
  revert s. induction p as [|c p IH]; intros s Hp; [by exists s|].
  destruct s as [|c' s]; [done|]. simpl in Hp.
  destruct (Ascii.ascii_dec c c') as [->|]; [|done].
  destruct (IH s Hp) as [b ->]. by exists b.
Qed.

Lemma substring_all s : String.substring 0 (String.length s) s = s.
Proof. induction s as [|c s IH]; [done|]. simpl. by rewrite IH. Qed.

Lemma substring_append p s :
  String.substring (String.length p) (String.length (p +:+ s) - String.length p) (p +:+ s) = s.
Proof.
  induction p as [|c p IH].
  - change ("" +:+ s) with s. simpl String.length. rewrite Nat.sub_0_r. apply substring_all.
  - rewrite append_cons. simpl. exact IH.
Qed.

Lemma strings_TrimPrefix_append p s : strings_TrimPrefix (p +:+ s) p = s.
Proof. unfold strings_TrimPrefix. by rewrite prefix_append, substring_append. Qed.

Lemma strings_Contains_unfold s sub :
  strings_Contains s sub =
    String.prefix sub s || match s with
                           | EmptyString => false
                           | String _ s' => strings_Contains s' sub
                           end.
Proof. by destruct s. Qed.

Lemma strings_Contains_spec s sub :
  strings_Contains s sub = true <-> exists a b, s = a +:+ sub +:+ b.
Proof.
  split.
  - induction s as [|c s IH]; rewrite strings_Contains_unfold;
      intros H; apply orb_true_iff in H as [H|H]; try done.
    + destruct (prefix_append_inv _ _ H) as [b ->]. by exists "", b.
    + destruct (prefix_append_inv _ _ H) as [b ->]. by exists "", b.
    + destruct (IH H) as (a & b & ->). by exists (String c a), b.
  - intros (a & b & ->). induction a as [|c a IH].
    + change ("" +:+ sub +:+ b) with (sub +:+ b).
      by rewrite strings_Contains_unfold, prefix_append.
    + rewrite append_cons, strings_Contains_unfold, IH. apply orb_true_r.
Qed.

(** ** addToZip *)

(** X2: the walk callback of [addToZip], on an entry [root/rel] that
    the walk reports without error, always returns.  When the header of the
    entry cannot be built it returns that error and nothing is written;
    otherwise the first thing it does is to create the archive entry named
    by the path relative to the root: followed by a slash and stored as is
    for a directory, deflated for a file. *)
Theorem directoryWalker_entry_name C w archive root rel isDir h :
  exists r t,
    directoryWalker C w archive root tt
      {| we_path := root +:+ "/" +:+ rel; we_isDir := isDir; we_err := None |} h =
      (Done r, h ++ t) /\
    match zip_FileInfoHeader C (root +:+ "/" +:+ rel) with
    | Some err => r = inr err /\ t = []
    | None =>
        exists t', t = EvZipCreateHeader archive (rel +:+ (if isDir then "/" else ""))
                                         (negb isDir) :: t'
    end.
Proof.
  unfold directoryWalker, trimmedName, defer_. simpl.
  rewrite !strings_TrimPrefix_append.
  destruct (zip_FileInfoHeader C _).
  { run_m. eexists _, []. by rewrite app_nil_r. }
  destruct isDir; run_m; repeat case_match; simplify_eq/=;
    rewrite <- ?app_assoc; simpl; eexists _, _; (split; [reflexivity|]); by eexists.
Qed.

Lemma bind_call {A B} e (o : trace -> A) (k : A -> M B) h :
  (call e o ≫= k) h = k (o h) (h ++ [e]).
Proof. reflexivity. Qed.

Lemma bind_emit {B} e (k : unit -> M B) h : (emit e ≫= k) h = k tt (h ++ [e]).
Proof. reflexivity. Qed.

Lemma bind_logf {B} l msg fs (k : unit -> M B) h :
  (logf l msg fs ≫= k) h = k tt (h ++ [EvLog l msg fs]).
Proof. reflexivity. Qed.

Lemma appendFile_returns C w archive root src : returns (appendFile C w archive root src).
Proof. unfold appendFile. repeat returns_walk. Qed.

Lemma directoryWalker_returns C w archive root u e :
  returns (directoryWalker C w archive root u e).
Proof. unfold directoryWalker. repeat returns_walk. Qed.

(** X3: [addToZip] always returns.  When the absolute path or the stat
    of the source fails it returns that error and leaves the zip writer
    open; in every other case (directory, regular file, any other kind of
    source, and whatever failed while archiving) closing the zip writer is
    the last thing it does, and it does so once. *)
Theorem addToZip_closes_archive C w archive source root h :
  match filepath_Abs w h source with
  | inl err => addToZip C w archive source root h = (Done (Some err), h ++ [EvAbs source])
  | inr p =>
      match os_Stat w (h ++ [EvAbs source]) p with
      | inl err =>
          addToZip C w archive source root h =
            (Done (Some err), h ++ [EvAbs source; EvStat p])
      | inr _ =>
          exists r t,
            addToZip C w archive source root h =
              (Done r, h ++ [EvAbs source; EvStat p] ++ t ++ [EvZipClose archive]) /\
            EvZipClose archive ∉ t
      end
  end.
Proof.
  unfold addToZip. rewrite bind_call.
  destruct (filepath_Abs w h source) as [err|p]; [done|].
  rewrite bind_call.
  destruct (os_Stat w (h ++ [EvAbs source]) p) as [err|fi].
  { by rewrite <- app_assoc. }
  rewrite bind_unfold.
  set (P := fun e => e ≠ EvZipClose archive).
  assert (Hinner : forall m : M (option error),
            sat P (fun _ => True) anyResult m -> returns m ->
            exists r t, m ((h ++ [EvAbs source]) ++ [EvStat p]) =
                          (Done r, ((h ++ [EvAbs source]) ++ [EvStat p]) ++ t) /\
                        EvZipClose archive ∉ t).
  { intros m Hs Hr. destruct (sat_returns _ _ _ m ((h ++ [EvAbs source]) ++ [EvStat p]) Hs Hr)
      as (r & t & E & F & _).
    exists r, t. split; [done|]. intros Hin.
    by apply (proj1 (Forall_forall _ _) F _ Hin). }
  destruct (fi_Mode fi).
  - lazymatch goal with
    | |- context [match ?m ((h ++ [EvAbs source]) ++ [EvStat p]) with _ => _ end] =>
        destruct (Hinner m) as (r & t & E & Hno); [| |rewrite E]
    end.
    + repeat sat_walk ltac:(done) ltac:(done).
      unfold directoryWalker. repeat sat_walk ltac:(done) ltac:(done).
    + repeat returns_walk. apply directoryWalker_returns.
    + run_m. exists r, t. by rewrite <- !app_assoc.
  - lazymatch goal with
    | |- context [match ?m ((h ++ [EvAbs source]) ++ [EvStat p]) with _ => _ end] =>
        destruct (Hinner m) as (r & t & E & Hno); [| |rewrite E]
    end.
    + unfold appendFile. repeat sat_walk ltac:(done) ltac:(done).
    + apply appendFile_returns.
    + run_m. exists r, t. by rewrite <- !app_assoc.
  - run_m. exists (Some "Inavlid source type"), []. split; [by rewrite <- !app_assoc|].
    apply not_elem_of_nil.
Qed.

(** ** ensureExpirationPolicy *)

Lemma lifecycle_rules_never_warn rules :
  foldl (fun showWarning status =>
           if bool_decide (status = ExpirationStatusEnabled) then false else showWarning)
        false rules = false.
Proof. induction rules as [|r rules IH]; [done|]. simpl. by case_bool_decide. Qed.

(** X4: in a live run, once the lifecycle configuration of the bucket
    has been fetched, [ensureExpirationPolicy] returns no error and logs
    the configuration at debug level whatever the rules are: the warning
    that the bucket should have an expiration rule is not logged, even when
    no rule is enabled or there is no rule at all. *)
Theorem ensureExpirationPolicy_ignores_rules w bucket h rules :
  s3_GetBucketLifecycleConfiguration w h bucket = inr rules ->
  ensureExpirationPolicy w bucket false h =
    (Done None,
     h ++ [EvS3GetBucketLifecycleConfiguration bucket;
           EvLog DebugLevel "Bucket lifecycle configuration" [("Bucket", bucket)]]).
Proof.
  intros Hrules. unfold ensureExpirationPolicy. rewrite bind_call, Hrules.
  rewrite lifecycle_rules_never_warn. run_m. by rewrite <- app_assoc.
Qed.

Lemma ensureExpirationPolicy_ignores_rules_witness :
  ensureExpirationPolicy disabledRulesWorld "bucket" false [] =
    (Done None,
     [] ++ [EvS3GetBucketLifecycleConfiguration "bucket";
            EvLog DebugLevel "Bucket lifecycle configuration" [("Bucket", "bucket")]]).
Proof.
  apply (ensureExpirationPolicy_ignores_rules disabledRulesWorld "bucket" [] ["Disabled"]).
  reflexivity.
Defined.

(** X5: [ensureExpirationPolicy] returns an error exactly in a live run
    whose lifecycle lookup failed with an error that does not contain
    NoSuchLifecycleConfiguration; the error is then the text Failed to fetch
    S3 Bucket Policy followed by that of the lookup. *)
Theorem ensureExpirationPolicy_error_iff w bucket noop h e :
  (ensureExpirationPolicy w bucket noop h).1 = Done (Some e) <->
  noop = false /\
  exists err, s3_GetBucketLifecycleConfiguration w h bucket = inl err /\
              strings_Contains err "NoSuchLifecycleConfiguration" = false /\
              e = "Failed to fetch S3 Bucket Policy: " +:+ err.
Proof.
  unfold ensureExpirationPolicy. destruct noop; [run_m; split; [done|by intros [? _]]|].
  rewrite bind_call.
  destruct (s3_GetBucketLifecycleConfiguration w h bucket) as [err|rules].
  - destruct (strings_Contains err "NoSuchLifecycleConfiguration") eqn:Hc; run_m; simpl.
    + split; [done|]. intros (_ & err' & [= <-] & ? & _). congruence.
    + split.
      * intros [= <-]. split; [done|]. by exists err.
      * intros (_ & err' & [= <-] & _ & ->). done.
  - rewrite lifecycle_rules_never_warn. run_m. simpl.
    split; [done|]. by intros (_ & err' & ? & _).
Qed.

(** ** uploadLocalFileToS3 *)

Lemma ensureExpirationPolicy_returns w bucket noop : returns (ensureExpirationPolicy w bucket noop).
Proof. unfold ensureExpirationPolicy. repeat returns_walk. Qed.

(** X6: [uploadLocalFileToS3] always returns, and it returns either
    the base name of the local path as the key together with no error, or
    the empty key together with an error. *)
Theorem uploadLocalFileToS3_key_or_error C w path bucket noop h :
  match (uploadLocalFileToS3 C w path bucket noop h).1 with
  | Done (key, None) => key = filepath_Base C path
  | Done (key, Some _) => key = ""
  | Panicked _ => False
  | Diverged => False
  end.
Proof.
  unfold uploadLocalFileToS3. rewrite bind_unfold.
  destruct (ensureExpirationPolicy_returns w bucket noop h) as [r Hr].
  destruct (ensureExpirationPolicy w bucket noop h) as [[[e|]|p|] h1]; simplify_eq/=; [done|].
  rewrite bind_call. destruct (os_Open w h1 path) as [e|]; [done|].
  unfold defer_, uploadCleanup. destruct noop.
  - rewrite bind_logf. run_m. by destruct (os_Remove w _ path).
  - rewrite bind_logf, bind_call.
    destruct (s3_Upload w _ bucket (filepath_Base C path)) as [e|location];
      run_m; by destruct (os_Remove w _ path).
Qed.

(** ** stackExists *)

(** X7: [stackExists] describes the stack once and logs the answer.
    A description that succeeds means the stack exists; a failure whose
    text contains the words does not exist means that it does not exist,
    and is no error; any other failure is returned as the error. *)
Theorem stackExists_missing_is_not_an_error w name h :
  (stackExists w name h).2 =
    h ++ EvCFDescribeStacks name :: EvLog DebugLevel "DescribeStackOutput results" [] ::
         match cf_DescribeStacks w h name with
         | inl err => [EvLog DebugLevel "DescribeStackOutput" [("DescribeStackOutputError", err)]]
         | inr _ => []
         end /\
  match cf_DescribeStacks w h name with
  | inr _ => (stackExists w name h).1 = Done (true, None)
  | inl err =>
      ((exists a b, err = a +:+ "does not exist" +:+ b) ->
       (stackExists w name h).1 = Done (false, None)) /\
      ((forall a b, err ≠ a +:+ "does not exist" +:+ b) ->
       (stackExists w name h).1 = Done (false, Some err))
  end.
Proof.
  unfold stackExists. rewrite bind_call, bind_logf.
  destruct (cf_DescribeStacks w h name) as [err|stacks].
  - rewrite bind_logf.
    destruct (strings_Contains err "does not exist") eqn:Hc; run_m; simpl;
      rewrite <- !app_assoc; (split; [done|]); split; try done.
    + intros Hno. apply strings_Contains_spec in Hc as (a & b & ->). by destruct (Hno a b).
    + intros Hex. apply strings_Contains_spec in Hex. congruence.
  - run_m. simpl. by rewrite <- !app_assoc.
Qed.

(** ** stackEvents *)

Lemma stackEvents_loop_outcome w fuel stackID nextToken events h :
  match (stackEvents_loop w fuel stackID nextToken events h).1 with
  | Done (result, Some _) => result = []
  | Done (result, None) => exists more, result = events ++ more
  | Panicked _ => False
  | Diverged => True
  end.
Proof.
  revert nextToken events h. induction fuel as [|fuel IH]; intros nextToken events h; [done|].
  simpl. rewrite bind_call.
  destruct (cf_DescribeStackEvents w h stackID _) as [err|[page [next|]]]; run_m; simpl.
  - done.
  - specialize (IH next (events ++ page) (h ++ [EvCFDescribeStackEvents stackID
                  (if bool_decide (nextToken = "") then None else Some nextToken)])).
    destruct (stackEvents_loop w fuel stackID next (events ++ page) _) as [[[res [e|]]|p|] h1];
      simpl in *; try done.
    destruct IH as [more ->]. exists (page ++ more). by rewrite app_assoc.
  - by exists page.
Qed.


(** ** The poll loop *)

Lemma pollLoop_outcome w fuel exists_ stackID succeeded h :
  match pollLoop w fuel exists_ stackID succeeded h with
  | (Done (inl (stackInfo, ok)), h') =>
      (exists t0 rest, h' = h ++ t0 ++ [EvCFDescribeStacks stackID] /\
                       cf_DescribeStacks w (h ++ t0) stackID = inr (stackInfo :: rest)) /\
      ((ok = true /\ StackStatus stackInfo ∈ terminalSuccess) \/
       (ok = false /\ StackStatus stackInfo ∈ terminalFailure))
  | (Done (inr _), _) => True
  | (Panicked _, _) => False
  | (Diverged, _) => True
  end.
Proof.
  revert succeeded h. induction fuel as [|fuel IH]; intros succeeded h; [done|].
  simpl. rewrite bind_call, bind_emit, bind_call.
  set (pre := [EvRandInt31n 13; EvSleep (11 + rand_Int31n w h 13 `mod` 13)]).
  replace ((h ++ [EvRandInt31n 13]) ++ [EvSleep (11 + rand_Int31n w h 13 `mod` 13)])
    with (h ++ pre) by (by rewrite <- app_assoc).
  destruct (cf_DescribeStacks w (h ++ pre) stackID) as [err|[|stackInfo rest]] eqn:Hd;
    run_m; simpl; try done.
  rewrite stackStatusSwitch_spec.
  assert (Hprov : exists t0 rest0,
             (h ++ pre) ++ [EvCFDescribeStacks stackID] =
               h ++ t0 ++ [EvCFDescribeStacks stackID] /\
             cf_DescribeStacks w (h ++ t0) stackID = inr (stackInfo :: rest0)).
  { exists pre, rest. by rewrite <- app_assoc. }
  repeat case_decide; simpl; [by split; [|left]|by split; [|right]|].
  set (wait := [EvCFDescribeStacks stackID;
                EvLog InfoLevel (if exists_ then "Waiting for UpdateStack to complete"
                                 else "Waiting for CreateStack to complete") []]).
  replace (((h ++ pre) ++ [EvCFDescribeStacks stackID]) ++
           [EvLog InfoLevel (if exists_ then "Waiting for UpdateStack to complete"
                             else "Waiting for CreateStack to complete") []])
    with (h ++ pre ++ wait) by (by rewrite <- !app_assoc).
  specialize (IH succeeded (h ++ pre ++ wait)).
  destruct (pollLoop w fuel exists_ stackID succeeded (h ++ pre ++ wait))
    as [[[[info ok]|e]|p|] h']; try done.
  destruct IH as [(t0 & rest0 & -> & Hd0) Hcls]. split; [|done].
  exists ((pre ++ wait) ++ t0), rest0.
  split; [by rewrite <- !app_assoc|]. by rewrite <- !app_assoc in *.
Qed.

(** X9: however many rounds the poll loop of [convergeStackState] takes,
    it leaves with a stack description only when the status of that stack
    is terminal: one of the two success statuses when it reports success,
    one of the five failure statuses when it reports failure.  The loop
    never panics. *)
Theorem pollLoop_exits_on_terminal_status w fuel exists_ stackID succeeded h :
  match (pollLoop w fuel exists_ stackID succeeded h).1 with
  | Done (inl (stackInfo, ok)) =>
      (ok = true /\ StackStatus stackInfo ∈ terminalSuccess) \/
      (ok = false /\ StackStatus stackInfo ∈ terminalFailure)
  | Done (inr _) => True
  | Panicked _ => False
  | Diverged => True
  end.
Proof.
  pose proof (pollLoop_outcome w fuel exists_ stackID succeeded h) as H.
  destruct (pollLoop w fuel exists_ stackID succeeded h) as [[[[info ok]|e]|p|] h'];
    simpl; try done. by destruct H.
Qed.

(** ** convergeStackState *)

Lemma stackExists_returns w name : returns (stackExists w name).
Proof. unfold stackExists. repeat returns_walk. Qed.

Lemma logStackOutput_trace outputs h :
  exists tl, runAll (logStackOutput <$> outputs) h = (Done tt, h ++ tl) /\
             Forall (fun e => is_log e = true) tl.
Proof.
  revert h. induction outputs as [|o outputs IH]; intros h.
  - exists []. by rewrite app_nil_r.
  - rewrite fmap_cons. cbn [runAll]. rewrite bind_unfold.
    change (logStackOutput o h) with
      (Done tt, h ++ [EvLog InfoLevel "Stack output"
                        [("Key", OutputKey o); ("Value", OutputValue o);
                         ("Description", OutputDescription o)]]).
    cbv beta iota.
    destruct (IH (h ++ [EvLog InfoLevel "Stack output"
                          [("Key", OutputKey o); ("Value", OutputValue o);
                           ("Description", OutputDescription o)]])) as (tl & E & F).
    rewrite E. eexists (_ :: tl). rewrite <- app_assoc. split; [reflexivity|].
    by constructor.
Qed.

Lemma logFailedEvent_returns e : returns (logFailedEvent e).
Proof. unfold logFailedEvent. repeat returns_walk. Qed.

Lemma convergeStackState_outcome w url ctx h :
  match convergeStackState w url ctx h with
  | (Done (Some stack, None), h') =>
      exists t0 stackID rest tl,
        h' = h ++ t0 ++ EvCFDescribeStacks stackID :: tl /\
        Forall (fun e => is_log e = true) tl /\
        cf_DescribeStacks w (h ++ t0) stackID = inr (stack :: rest) /\
        StackStatus stack ∈ terminalSuccess
  | (Done (None, Some _), _) => True
  | (Done _, _) => False
  | (Panicked _, _) => False
  | (Diverged, _) => True
  end.
Proof.
  unfold convergeStackState. rewrite bind_unfold.
  destruct (sat_returns (fun _ => True) (fun _ => True) anyResult
              (stackExists w (serviceName ctx)) h) as ([ex err] & t1 & E & _).
  { unfold stackExists. repeat sat_walk ltac:(done) ltac:(done). }
  { apply stackExists_returns. }
  rewrite E. destruct err as [e|]; [done|].
  rewrite bind_unfold.
  set (caps := stackCapabilities (cfTemplate ctx)).
  assert (Hpoll : forall stackID hp tp, hp = h ++ tp ->
    match
      (pollLoop w (loopFuel w) ex stackID false ≫= λ polled,
         match polled with
         | inl (stackInfo, true) =>
             runAll (logStackOutput <$> StackOutputs stackInfo) ≫= λ _ : (),
               mret (Some stackInfo, None)
         | inl (stackInfo, false) =>
             stackEvents w stackID ≫= λ '(events, err),
               match err with
               | Some e => mret (None, Some e)
               | None =>
                   logf ErrorLevel "Stack provisioning error" [] ≫= λ _ : (),
                     runAll (logFailedEvent <$> events) ≫= λ _ : (),
                       mret (None, Some ("Failed to provision: " +:+ serviceName ctx))
               end
         | inr e => mret (None, Some e)
         end) hp
    with
    | (Done (Some stack, None), h') =>
        exists t0 stackID rest tl,
          h' = h ++ t0 ++ EvCFDescribeStacks stackID :: tl /\
          Forall (fun e => is_log e = true) tl /\
          cf_DescribeStacks w (h ++ t0) stackID = inr (stack :: rest) /\
          StackStatus stack ∈ terminalSuccess
    | (Done (None, Some _), _) => True
    | (Done _, _) => False
    | (Panicked _, _) => False
    | (Diverged, _) => True
    end).
  { intros stackID hp tp ->. rewrite bind_unfold.
    pose proof (pollLoop_outcome w (loopFuel w) ex stackID false (h ++ tp)) as Hp.
    destruct (pollLoop w (loopFuel w) ex stackID false (h ++ tp))
      as [[[[info ok]|e]|p|] h2]; try done.
    destruct Hp as [(t0 & rest & -> & Hd) Hcls]. destruct ok.
    - destruct Hcls as [[_ Hs]|[? _]]; [|done].
      rewrite bind_unfold.
      destruct (logStackOutput_trace (StackOutputs info)
                  ((h ++ tp) ++ t0 ++ [EvCFDescribeStacks stackID])) as (tl & -> & Hlog).
      run_m. exists (tp ++ t0), stackID, rest, tl.
      rewrite <- !app_assoc in *. simpl. done.
    - rewrite bind_unfold.
      pose proof (stackEvents_loop_outcome w (loopFuel w) stackID "" []
                    ((h ++ tp) ++ t0 ++ [EvCFDescribeStacks stackID])) as He.
      unfold stackEvents.
      destruct (stackEvents_loop w (loopFuel w) stackID "" [] _)
        as [[[events [e|]]|p|] h3]; simpl in *; try done.
      rewrite bind_logf, bind_unfold.
      destruct (runAll_returns (logFailedEvent <$> events)) with
        (h := h3 ++ [EvLog ErrorLevel "Stack provisioning error" []]) as [[] Hr].
      { apply Forall_fmap, Forall_forall. intros ? _. apply logFailedEvent_returns. }
      by destruct (runAll (logFailedEvent <$> events) _) as [[[]|p|] h4]; simplify_eq/=. }
  destruct ex.
  - rewrite bind_call.
    destruct (cf_UpdateStack w (h ++ t1) (serviceName ctx) url caps) as [e|stackID].
    + done.
    + rewrite bind_logf. cbv [mret M_ret ret]. cbv beta iota.
      eapply Hpoll. rewrite <- !app_assoc. reflexivity.
  - rewrite bind_call.
    destruct (cf_CreateStack w (h ++ t1) (serviceName ctx) url caps) as [e|stackID].
    + done.
    + rewrite bind_logf. cbv [mret M_ret ret]. cbv beta iota.
      eapply Hpoll. rewrite <- !app_assoc. reflexivity.
Qed.


(** Two specifications of one computation hold together. *)
Lemma sat_with {A} P N P' N' (Q Q' : A -> trace -> Prop) (m : M A) :
  sat P N Q m -> sat P' N' Q' m -> sat P N (fun a t => Q a t /\ Q' a t) m.
Proof.
  intros H1 H2 h. destruct (H1 h) as (t & E & F & R). destruct (H2 h) as (t' & E' & _ & R').
  assert (t' = t) as -> by (rewrite E in E'; by apply app_inv_head in E').
  exists t. split; [done|]. split; [done|]. by destruct ((m h).1).
Qed.

(** The events and panics of one specification, the result of another. *)
Lemma sat_events {A} P N P' N' (Q : A -> trace -> Prop) (m : M A) :
  sat P N anyResult m -> sat P' N' Q m -> sat P N Q m.
Proof.
  intros H1 H2. eapply sat_mono; [exact (sat_with _ _ _ _ _ _ _ H1 H2)|]. by intros a t [_ ?].
Qed.

Section StepsAny.

Context (C : Collaborators) (w : World) (tw : option Writer).
Context (P : event -> Prop) (N : panic -> Prop).
Hypothesis HP : forall e, (forall seconds, e ≠ EvSleep seconds) -> P e.
Hypothesis HSleep : forall seconds, 11 <= seconds <= 23 -> P (EvSleep seconds).

Local Abbreviation inv := (ctxInvariant w tw).

Ltac ev_any := first [ apply HP; intros ?; discriminate | apply HSleep; lia ].

(** A read through the site wrapper cannot panic: the wrapper is allocated. *)
Ltac pn_any :=
  exfalso;
  match goal with
  | H : ctx_s3SiteContext _ = None |- _ =>
      simpl in H;
      match goal with
      | Hi : inv _ _ |- _ => destruct Hi as (_ & _ & [? ?] & _); congruence
      end
  end.

Ltac walk := repeat sat_walk ev_any pn_any.

Lemma temporaryFile_any name : sat P N anyResult (temporaryFile w name).
Proof. unfold temporaryFile. walk. Qed.

Lemma uploadLocalFileToS3_any path b nv : sat P N anyResult (uploadLocalFileToS3 C w path b nv).
Proof. unfold uploadLocalFileToS3, ensureExpirationPolicy, uploadCleanup. walk. Qed.

Lemma createS3RollbackFunc_any b k nv : sat P N anyResult (createS3RollbackFunc w b k nv).
Proof. unfold createS3RollbackFunc. walk. Qed.

Lemma rollback_any nv ctx : inv nv ctx -> sat P N anyResult (rollback w ctx).
Proof.
  intros (_ & _ & _ & Hf). unfold rollback.
  apply sat_bind_top; [walk|]. intros _. apply sat_bind_top; [walk|]. intros h.
  apply sat_runAll, Forall_fmap. rewrite schedule_Permutation.
  eapply Forall_impl; [exact Hf|]. intros f (b & k & ->). unfold compose, rollbackUnit.
  sat_walk ev_any pn_any; [apply createS3RollbackFunc_any|]. walk.
Qed.

Lemma addToZip_any archive src root : sat P N anyResult (addToZip C w archive src root).
Proof. unfold addToZip. walk; unfold directoryWalker, appendFile; walk. Qed.

Lemma uploadPrimary_any nv path st :
  inv nv st.1 -> sat P N (fun st' _ => inv nv st'.1) (uploadPrimary C w path st).
Proof.
  intros Hinv. eapply sat_events;
    [|by apply (uploadPrimary_sat C w (fun _ => True) tw (fun _ _ => I) nv)].
  destruct st as [ctx errs]. unfold uploadPrimary.
  apply sat_bind_top; [apply uploadLocalFileToS3_any|]. intros [key err]. walk.
Qed.

Lemma uploadSite_any nv site st :
  inv nv st.1 -> sat P N (fun st' _ => inv nv st'.1) (uploadSite C w site st).
Proof.
  intros Hinv. eapply sat_events;
    [|by apply (uploadSite_sat C w (fun _ => True) tw (fun _ _ => I) nv)].
  destruct st as [ctx errs]. simpl in Hinv. unfold uploadSite.
  apply sat_bind_top; [apply temporaryFile_any|]. intros tmp.
  destruct tmp as [e|tmpFile]; [walk|].
  sat_walk ev_any pn_any; [walk|]. destruct a as [e|absResourcePath]; [walk|].
  sat_walk ev_any pn_any; [walk|].
  sat_walk ev_any pn_any; [apply addToZip_any|].
  destruct a0 as [e|]; [walk|].
  do 2 (sat_walk ev_any pn_any; [walk|]).
  sat_walk ev_any pn_any; [apply uploadLocalFileToS3_any|]. walk.
Qed.

Lemma createUploadStep_any nv path ctx :
  inv nv ctx -> sat P N anyResult (createUploadStep_run C w path ctx).
Proof.
  intros Hinv. unfold createUploadStep_run.
  destruct (ctx_s3SiteContext ctx) as [siteCtx|] eqn:Hsite;
    [|destruct Hinv as (_ & _ & [? ?] & _); congruence].
  apply sat_bind_top; [walk|]. intros h. apply sat_bind_top.
  - eapply sat_top. apply (sat_runUnits (fun st => inv nv st.1)); [|done].
    rewrite schedule_Permutation.
    apply Forall_cons. split; [intros; by apply uploadPrimary_any|].
    destruct (s3Site siteCtx); [|done].
    apply Forall_singleton. intros; by apply uploadSite_any.
  - intros [ctx' errs]. unfold uploadErrorText. walk.
Qed.

Lemma createPackageStep_any ctx : sat P N anyResult (createPackageStep_run C w ctx).
Proof.
  unfold createPackageStep_run, removeBinary, packageArchive.
  walk; try apply temporaryFile_any;
    unfold appendProxyEntry, createNewNodeJSProxyEntry, embedScript, embedNodeModule; walk.
Qed.

Lemma pollLoop_any fuel exists_ stackID succeeded :
  sat P N anyResult (pollLoop w fuel exists_ stackID succeeded).
Proof.
  revert succeeded. induction fuel as [|fuel IH]; intros succeeded; simpl; [walk|].
  eapply sat_bind with (Q1 := fun r _ => 0 <= r < 13).
  { apply sat_call; [ev_any|]. intros h. by apply Z.mod_pos_bound. }
  intros r t1 Hr. walk. apply IH.
Qed.

Lemma stackEvents_loop_any fuel stackID nextToken events :
  sat P N anyResult (stackEvents_loop w fuel stackID nextToken events).
Proof.
  revert nextToken events.
  induction fuel as [|fuel IH]; intros nextToken events; simpl; walk. apply IH.
Qed.

Lemma convergeStackState_any url ctx : sat P N anyResult (convergeStackState w url ctx).
Proof.
  unfold convergeStackState, stackExists, stackEvents, logFailedEvent, logStackOutput.
  walk; first [apply pollLoop_any|apply stackEvents_loop_any].
Qed.

Lemma ensureCloudFormationStack_any nv ctx :
  inv nv ctx -> sat P N anyResult (ensureCloudFormationStack_run C w ctx).
Proof.
  intros Hinv. unfold ensureCloudFormationStack_run.
  eapply sat_bind.
  - apply (sat_forRange (inv nv) (fun _ => True)); [|done].
    intros s x Hs _. eapply sat_events.
    + unfold exportLambda. walk.
    + eapply sat_mono; [by apply (exportLambda_sat w (fun _ => True) tw nv)|].
      by intros [?|?] ? ?.
  - intros [ctx1|res] t1 H1; [|walk].
    unfold serializeAndConverge, uploadAndConverge, exchangeOutputs, exchangeDependency.
    walk; apply convergeStackState_any.
Qed.

Lemma verifyIAMRoles_any ctx :
  (N NilRoleDefinition \/
   Forall (fun l => RoleName l ≠ "" \/ is_Some (RoleDefinition l)) (lambdaAWSInfos ctx)) ->
  sat P N anyResult (verifyIAMRoles_run C w ctx).
Proof.
  intros Hwf. unfold verifyIAMRoles_run.
  apply sat_bind_top; [walk|]. intros _. apply sat_bind_top; [|intros; walk].
  simpl lambdaAWSInfos.
  generalize (set_lambdaIAMRoleNameMap ctx ∅).
  induction (lambdaAWSInfos ctx) as [|l ls IH]; intros c; simpl; [by apply sat_ret|].
  apply sat_bind_top.
  - unfold verifyIAMRole. repeat case_bool_decide; simpl; walk.
    all: apply sat_raise; destruct Hwf as [?|Hwf]; [done|].
    all: apply Forall_cons in Hwf as [[?|[? ?]] _]; [done|congruence].
  - intros [c'|r]; [|walk]. apply IH.
    destruct Hwf as [?|Hwf]; [by left|right]. by apply Forall_cons in Hwf as [_ ?].
Qed.

(** One turn of the loop of [Provision]. *)
Lemma runWorkflow_turn nv (next : option workflowStep -> Prop) run ctx :
  sat P N anyResult (run ctx) ->
  sat (fun _ => True) noSitePanic (fun r _ => stepPostOf w tw nv next r) (run ctx) ->
  (forall n ctx', next (Some n) -> inv nv ctx' -> sat P N anyResult (runWorkflow w n ctx')) ->
  sat P N anyResult (runWorkflow w (Step run) ctx).
Proof.
  intros Hany Hpost Hnext. rewrite runWorkflow_unfold.
  eapply sat_bind; [exact (sat_events _ _ _ _ _ _ Hany Hpost)|].
  intros [[ctx' n] [err|]] t1 [Hinv Hn]; simpl in *.
  - destruct n; (apply sat_bind_top; [by eapply rollback_any|]); intros; walk.
  - specialize (Hn eq_refl). destruct n as [n|]; [by apply Hnext|]. walk.
Qed.

Lemma Provision_any nv sn sd ls a site b :
  (N NilRoleDefinition \/
   Forall (fun l => RoleName l ≠ "" \/ is_Some (RoleDefinition l)) ls) ->
  sat P N anyResult (Provision C w nv sn sd ls a site b tw).
Proof.
  intros Hwf. unfold Provision.
  apply sat_bind_top; [walk|]. intros _. apply sat_bind_top; [walk|]. intros _.
  case_bool_decide; [walk|].
  pose proof (newContext_inv w tw nv sn sd ls a site b) as Hinv0.
  eapply runWorkflow_turn;
    [by apply verifyIAMRoles_any
    |by apply (verifyIAMRoles_sat C w (fun _ => True) tw (fun _ _ => I) nv)|].
  intros n ctx1 Hn Hinv1. simplify_eq/=.
  eapply runWorkflow_turn;
    [apply createPackageStep_any
    |by apply (createPackageStep_sat C w (fun _ => True) tw (fun _ _ => I) nv)|].
  intros n ctx2 [p Hp] Hinv2. simplify_eq/=.
  eapply runWorkflow_turn;
    [by eapply createUploadStep_any
    |by apply (createUploadStep_sat C w (fun _ => True) tw (fun _ _ => I) nv)|].
  intros n ctx3 Hn Hinv3. simplify_eq/=.
  eapply runWorkflow_turn;
    [by eapply ensureCloudFormationStack_any
    |by apply (ensureCloudFormationStack_sat C w (fun _ => True) tw (fun _ _ => I) nv)|].
  by intros n ctx4 Hn Hinv4.
Qed.

End StepsAny.

(** X12: when every function descriptor gives a role name or a role
    definition, no run of [Provision] panics, in any world and under any
    schedule. *)
Theorem Provision_never_panics C w noop sn sd ls api site b tw h :
  Forall (fun l => RoleName l ≠ "" \/ is_Some (RoleDefinition l)) ls ->
  match (Provision C w noop sn sd ls api site b tw h).1 with
  | Panicked _ => False
  | _ => True
  end.
Proof.
  intros Hwf.
  destruct (Provision_any C w tw (fun _ => True) (fun _ => False) (fun _ _ => I)
              (fun _ _ => I) noop sn sd ls api site b (or_intror Hwf) h) as (t & _ & _ & R).
  by destruct (Provision C w noop sn sd ls api site b tw h).1.
Qed.

Lemma Provision_never_panics_witness :
  match (Provision demoCollaborators demoWorld true "demo" "a service"
                   [demoNamed "hello" "lambda-role"] None None "bucket" None []).1 with
  | Panicked _ => False
  | _ => True
  end.
Proof.
  apply (Provision_never_panics demoCollaborators demoWorld true "demo" "a service"
           [demoNamed "hello" "lambda-role"] None None "bucket" None []).
  apply Forall_cons. split; [left; discriminate|constructor].
Defined.

(** X13: every sleep of a run of [Provision] lasts between 11 and 23
    seconds. *)
Theorem Provision_sleeps_in_range C w noop sn sd ls api site b tw h :
  exists t, (Provision C w noop sn sd ls api site b tw h).2 = h ++ t /\
            Forall sleepInRange t.
Proof.
  destruct (Provision_any C w tw sleepInRange (fun _ => True)) with
    (nv := noop) (sn := sn) (sd := sd) (ls := ls) (a := api) (site := site) (b := b) (h := h)
    as (t & E & F & _).
  - intros e He. destruct e; try exact I. by destruct (He seconds).
  - by intros.
  - by left.
  - by exists t.
Qed.

Lemma sat_outcome {A} P N (R : A -> Prop) (m : M A) :
  sat P N anyResult m ->
  (forall h, match m h with (Done a, _) => R a | _ => True end) ->
  sat P N (fun a _ => R a) m.
Proof.
  intros Hs Ho h. destruct (Hs h) as (t & E & F & Hr). specialize (Ho h).
  exists t. split; [done|]. split; [done|]. by destruct (m h) as [[a|p|] h1].
Qed.

Lemma stackConverged_mono w t1 t t2 : stackConverged w t -> stackConverged w (t1 ++ t ++ t2).
Proof.
  intros (stack & h0 & stackID & rest & Hd & Hs & Hin).
  exists stack, h0, stackID, rest. split; [done|]. split; [done|].
  rewrite !elem_of_app. tauto.
Qed.

Lemma stackConverged_prefix w t1 t : stackConverged w t -> stackConverged w (t1 ++ t).
Proof. intros H. rewrite <- (app_nil_r t). by apply stackConverged_mono. Qed.

Lemma runPost_completedConverged w : runPost (completedConverged w).
Proof.
  split; [by intros e t ?|]. intros r t1 t t2 Hr Hnone. by apply stackConverged_mono, Hr.
Qed.

Section Live.
Context (C : Collaborators) (w : World) (tw : option Writer).

Local Abbreviation anyEvent := (fun _ : event => True).
Local Abbreviation anyPanic := (fun _ : panic => True).

Ltac live_walk := repeat sat_walk ltac:(exact I) ltac:(exact I).

Lemma convergeStackState_live url ctx :
  sat anyEvent anyPanic
      (fun r _ => match r with
                  | (Some stack, None) =>
                      exists h0 stackID rest,
                        cf_DescribeStacks w h0 stackID = inr (stack :: rest) /\
                        StackStatus stack ∈ terminalSuccess
                  | (None, Some _) => True
                  | _ => False
                  end)
      (convergeStackState w url ctx).
Proof.
  apply sat_outcome.
  - apply (convergeStackState_any w anyEvent anyPanic); by intros.
  - intros h. pose proof (convergeStackState_outcome w url ctx h) as H.
    destruct (convergeStackState w url ctx h) as [[[[stack|] [e|]]|p|] h']; try done.
    destruct H as (t0 & stackID & rest & tl & _ & _ & Hd & Hs). by eauto.
Qed.

Lemma uploadAndConverge_live ctx body key :
  noop ctx = false ->
  sat anyEvent anyPanic (fun r t => r.2 = None -> stackConverged w t)
      (uploadAndConverge w ctx body key).
Proof.
  intros Hlive. unfold uploadAndConverge, failStep. rewrite Hlive.
  eapply sat_bind; [by apply sat_logf|]. intros _ t1 _.
  eapply (sat_bind anyResult); [by apply sat_call_any|]. intros [e|location] t2 _.
  { by apply sat_ret. }
  eapply sat_bind; [by apply sat_logf|]. intros _ t3 _.
  eapply sat_bind; [apply convergeStackState_live|].
  intros [[stack|] [e|]] t4 Hconv; try done; try by apply sat_ret.
  destruct Hconv as (h0 & stackID & rest & Hd & Hs).
  eapply sat_bind; [by apply sat_logf|]. intros _ t5 ->.
  apply sat_ret. intros _. exists stack, h0, stackID, rest.
  split; [done|]. split; [done|]. rewrite !elem_of_app, list_elem_of_singleton. tauto.
Qed.

Lemma ensureCloudFormationStack_live ctx :
  noop ctx = false ->
  sat anyEvent anyPanic (fun r t => r.2 = None -> stackConverged w t)
      (ensureCloudFormationStack_run C w ctx).
Proof.
  intros Hlive. unfold ensureCloudFormationStack_run, failStep.
  eapply sat_bind.
  - apply (sat_forRange (fun c => noop c = false) (fun res => res.2 ≠ None)); [|done].
    intros s x Hs _. unfold exportLambda. live_walk; by apply sat_ret.
  - intros [ctx1|res] t1 H1; [|by apply sat_ret].
    assert (Hser : forall c, noop c = false ->
              sat anyEvent anyPanic
                  (fun r t => r.2 = None -> stackConverged w t)
                  (serializeAndConverge C w c)).
    { intros c Hc. unfold serializeAndConverge, failStep.
      destruct (json_Marshal C (cfTemplate c)) as [e|contentBody].
      { eapply sat_bind; [by apply sat_logf|]. intros. by apply sat_ret. }
      destruct (json_MarshalIndent C contentBody) as [e|formatted]; [by apply sat_ret|].
      eapply sat_bind; [by apply sat_logf|]. intros _ ta _.
      eapply (sat_bind anyResult); [live_walk|]. intros _ tb _.
      eapply sat_mono; [by apply uploadAndConverge_live|].
      intros r t Hr Hnone. repeat apply stackConverged_prefix. by apply Hr. }
    repeat lazymatch goal with
           | |- sat _ _ _ (serializeAndConverge _ _ _) => fail
           | |- sat _ _ _ (forRange _ _ _ ≫= _) =>
               eapply (sat_bind anyResult);
               [unfold exchangeOutputs, exchangeDependency; live_walk | intros ? ? _]
           | |- sat _ _ _ (mret _) => by apply sat_ret
           | |- sat _ _ _ (raise _) => by apply sat_raise
           | |- sat _ _ _ (let '(_, _) := ?x in _) => destruct x eqn:?
           | |- sat _ _ _ (match ?x with _ => _ end) => destruct x eqn:?
           end.
    all: eapply sat_mono; [apply Hser; by destruct (s3Site _)|].
    all: intros res tr Hr Hnone; repeat apply stackConverged_prefix; by apply Hr.
Qed.

End Live.

(** X14: a live run of [Provision] returns no error only when
    CloudFormation has described the stack with status CREATE_COMPLETE or
    UPDATE_COMPLETE and the run has logged that stack as provisioned. *)
Theorem live_run_completes_only_when_converged C w sn sd ls api site b tw h :
  exists t,
    (Provision C w false sn sd ls api site b tw h).2 = h ++ t /\
    ((Provision C w false sn sd ls api site b tw h).1 = Done None -> stackConverged w t).
Proof.
  destruct (Provision_sat C w (fun _ => True) tw (fun _ _ => I) false (completedConverged w)
              sn sd ls api site b (runPost_completedConverged w)) with (h := h)
    as (t & E & _ & R).
  - done.
  - done.
  - intros ctx' Hinv. eapply sat_with.
    + by apply (ensureCloudFormationStack_sat C w (fun _ => True) tw (fun _ _ => I) false).
    + eapply sat_mono; [apply ensureCloudFormationStack_live; apply Hinv|].
      intros r t0 Hr Hnone _. by apply Hr.
  - exists t. split; [done|]. intros Hdone. rewrite Hdone in R. by apply R.
Qed.

Lemma live_run_completes_only_when_converged_witness :
  exists t,
    (Provision demoCollaborators convergingWorld false "demo" "a service"
               [demoNamed "hello" "lambda-role"] None None "bucket" None []).2 = [] ++ t /\
    stackConverged convergingWorld t.
Proof.
  destruct (live_run_completes_only_when_converged demoCollaborators convergingWorld
              "demo" "a service" [demoNamed "hello" "lambda-role"] None None "bucket"
              None []) as (t & E & S).
  exists t. split; [exact E|]. apply S. by vm_compute.
Defined.

Lemma verifyIAMRole_roleMapOk w ctx l h :
  roleMapOk w ctx ->
  match (verifyIAMRole w ctx l h).1 with
  | Done (inl ctx') => roleMapOk w ctx'
  | Done (inr res) => roleMapOk w res.1.1
  | _ => True
  end.
Proof.
  intros Hok. unfold verifyIAMRole.
  repeat (run_m; case_match); run_m; simplify_eq/=; try done.
  - intros k v. simpl. rewrite lookup_insert.
    destruct (decide (RoleName l = k)) as [<-|Hk].
    + intros ?. simplify_eq. left. eauto.
    + intros Hv. destruct (Hok k v Hv) as [?|[-> ?]]; [by left|by right].
  - intros k v. simpl. rewrite lookup_insert.
    destruct (decide (logicalName i = k)) as [<-|Hk].
    + intros ?. simplify_eq. right. split; [done|]. by rewrite lookup_insert_eq.
    + intros Hv. destruct (Hok k v Hv) as [?|[-> [r Hr]]]; [by left|right].
      split; [done|]. simpl. rewrite lookup_insert.
      destruct (decide (logicalName i = k)); [by eexists|by exists r].
Qed.

Lemma forRange_verifyIAMRole_roleMapOk w ls ctx h :
  roleMapOk w ctx ->
  match (forRange (verifyIAMRole w) ls ctx h).1 with
  | Done (inl ctx') => roleMapOk w ctx'
  | Done (inr res) => roleMapOk w res.1.1
  | _ => True
  end.
Proof.
  revert ctx h. induction ls as [|l ls IH]; intros ctx h Hok; simpl; [done|].
  rewrite bind_unfold. pose proof (verifyIAMRole_roleMapOk w ctx l h Hok) as H1.
  destruct (verifyIAMRole w ctx l h) as [[[ctx1|r]|p|] h1]; simpl in *; try done.
  by apply IH.
Qed.

(** X15: whenever the role verification step returns, with or without
    an error, every entry of the role map of the context is either the ARN
    that an IAM lookup of its key answered, or the reference to the Arn
    attribute of a role resource that the template holds under that key. *)
Theorem verifyIAMRoles_role_map_entries C w ctx h :
  match (verifyIAMRoles_run C w ctx h).1 with
  | Done (ctx', _, _) => roleMapOk w ctx'
  | _ => True
  end.
Proof.
  unfold verifyIAMRoles_run. rewrite bind_logf, bind_unfold. simpl lambdaAWSInfos.
  pose proof (forRange_verifyIAMRole_roleMapOk w (lambdaAWSInfos ctx)
                (set_lambdaIAMRoleNameMap ctx ∅)
                (h ++ [EvLog InfoLevel "Verifying IAM Lambda execution roles" []])) as H.
  destruct (forRange (verifyIAMRole w) _ _ _) as [[[ctx1|[[c n] e]]|p|] h1] eqn:E;
    run_m; simpl in *; try done; apply H; intros k v; simpl; by rewrite lookup_empty.
Qed.

(** The role verification step registers no rollback function. *)
Lemma verifyIAMRole_rollbackFunctions w ctx l h :
  match (verifyIAMRole w ctx l h).1 with
  | Done (inl ctx') => rollbackFunctions ctx' = rollbackFunctions ctx
  | Done (inr res) => rollbackFunctions res.1.1 = rollbackFunctions ctx
  | _ => True
  end.
Proof. unfold verifyIAMRole. repeat (run_m; case_match); run_m; by simplify_eq/=. Qed.

Lemma forRange_verifyIAMRole_rollbackFunctions w ls ctx h :
  match (forRange (verifyIAMRole w) ls ctx h).1 with
  | Done (inl ctx') => rollbackFunctions ctx' = rollbackFunctions ctx
  | Done (inr res) => rollbackFunctions res.1.1 = rollbackFunctions ctx
  | _ => True
  end.
Proof.
  revert ctx h. induction ls as [|l ls IH]; intros ctx h; simpl; [done|].
  rewrite bind_unfold. pose proof (verifyIAMRole_rollbackFunctions w ctx l h) as H1.
  destruct (verifyIAMRole w ctx l h) as [[[ctx1|r]|p|] h1]; simpl in *; try done.
  rewrite <- H1. apply IH.
Qed.

Lemma verifyIAMRoles_run_rollbackFunctions C w ctx h ctx' next err h' :
  verifyIAMRoles_run C w ctx h = (Done (ctx', next, err), h') ->
  rollbackFunctions ctx' = rollbackFunctions ctx.
Proof.
  unfold verifyIAMRoles_run. rewrite bind_logf, bind_unfold. simpl lambdaAWSInfos.
  pose proof (forRange_verifyIAMRole_rollbackFunctions w (lambdaAWSInfos ctx)
                (set_lambdaIAMRoleNameMap ctx ∅)
                (h ++ [EvLog InfoLevel "Verifying IAM Lambda execution roles" []])) as H.
  destruct (forRange (verifyIAMRole w) _ _ _) as [[[ctx1|[[c n] e]]|p|] h1];
    run_m; simpl in *; intros; by simplify_eq.
Qed.

(** X16: when the role verification step fails, [Provision] returns
    the error of the step after a rollback that has nothing to undo: the
    step registers no rollback function, so the run ends with the log of a
    rollback count of 0 and no deletion is requested. *)
Theorem Provision_role_failure_rolls_back_nothing
        C w noop sn sd ls api site b tw h ctx' next err h' :
  ls ≠ [] ->
  verifyIAMRoles_run C w (newContext noop sn sd ls api site b tw)
                     (h ++ [EvTimeNow; EvAwsSession]) = (Done (ctx', next, Some err), h') ->
  Provision C w noop sn sd ls api site b tw h =
    (Done (Some err),
     h' ++ [EvLog InfoLevel "Invoking rollback functions" [("RollbackCount", "0")]]).
Proof.
  intros Hls Hrun. rewrite Provision_nonempty by done.
  unfold verifyIAMRoles. rewrite runWorkflow_unfold, bind_unfold, Hrun.
  pose proof (verifyIAMRoles_run_rollbackFunctions _ _ _ _ _ _ _ _ Hrun) as Hrb.
  simpl in Hrb.
  assert (Hroll : rollback w ctx' h' =
            (Done tt, h' ++ [EvLog InfoLevel "Invoking rollback functions"
                               [("RollbackCount", "0")]])).
  { unfold rollback. rewrite Hrb. reflexivity. }
  destruct next; rewrite bind_unfold, Hroll; reflexivity.
Qed.

Lemma Provision_role_failure_rolls_back_nothing_witness :
  Provision demoCollaborators noRoleWorld false "demo" "a service"
            [demoNamed "hello" "lambda-role"] None None "bucket" None [] =
    (Done (Some "NoSuchEntity"),
     [EvTimeNow; EvAwsSession;
      EvLog InfoLevel "Verifying IAM Lambda execution roles" [];
      EvLog DebugLevel "Checking IAM RoleName: lambda-role" [];
      EvIAMGetRole "lambda-role";
      EvLog ErrorLevel "NoSuchEntity" []] ++
     [EvLog InfoLevel "Invoking rollback functions" [("RollbackCount", "0")]]).
Proof.
  apply (Provision_role_failure_rolls_back_nothing demoCollaborators noRoleWorld false
           "demo" "a service" [demoNamed "hello" "lambda-role"] None None "bucket" None []
           (demoContext false [demoNamed "hello" "lambda-role"] None) None).
  - discriminate.
  - reflexivity.
Defined.

(** X17: a descriptor that gives neither a role name nor a role
    definition makes the role verification step, and the workflow with it,
    panic on the nil role definition once the descriptors before it have
    been resolved; no rollback runs and nothing more is logged. *)
Theorem verifyIAMRoles_nil_role_definition_panics C w ctx pre bad post h ctx1 h1 :
  lambdaAWSInfos ctx = pre ++ bad :: post ->
  RoleName bad = "" -> RoleDefinition bad = None ->
  forRange (verifyIAMRole w) pre (set_lambdaIAMRoleNameMap ctx ∅)
           (h ++ [EvLog InfoLevel "Verifying IAM Lambda execution roles" []]) =
    (Done (inl ctx1), h1) ->
  verifyIAMRoles_run C w ctx h = (Panicked NilRoleDefinition, h1) /\
  runWorkflow w (verifyIAMRoles C w) ctx h = (Panicked NilRoleDefinition, h1).
Proof.
  intros Hls Hname Hdef Hpre.
  assert (Hrun : verifyIAMRoles_run C w ctx h = (Panicked NilRoleDefinition, h1)).
  { unfold verifyIAMRoles_run. rewrite bind_logf, bind_unfold. simpl lambdaAWSInfos.
    rewrite Hls, forRange_app, Hpre. simpl forRange. rewrite bind_unfold.
    unfold verifyIAMRole at 1. rewrite Hname, Hdef. reflexivity. }
  split; [exact Hrun|].
  unfold verifyIAMRoles. by rewrite runWorkflow_unfold, bind_unfold, Hrun.
Qed.

Lemma verifyIAMRoles_nil_role_definition_panics_witness :
  verifyIAMRoles_run demoCollaborators demoWorld
    (demoContext false [demoNamed "f1" "lambda-role"; demoNamed "f2" ""] None) [] =
    (Panicked NilRoleDefinition,
     [EvLog InfoLevel "Verifying IAM Lambda execution roles" [];
      EvLog DebugLevel "Checking IAM RoleName: lambda-role" [];
      EvIAMGetRole "lambda-role"]) /\
  runWorkflow demoWorld (verifyIAMRoles demoCollaborators demoWorld)
    (demoContext false [demoNamed "f1" "lambda-role"; demoNamed "f2" ""] None) [] =
    (Panicked NilRoleDefinition,
     [EvLog InfoLevel "Verifying IAM Lambda execution roles" [];
      EvLog DebugLevel "Checking IAM RoleName: lambda-role" [];
      EvIAMGetRole "lambda-role"]).
Proof.
  apply (verifyIAMRoles_nil_role_definition_panics demoCollaborators demoWorld
           (demoContext false [demoNamed "f1" "lambda-role"; demoNamed "f2" ""] None)
           [demoNamed "f1" "lambda-role"] (demoNamed "f2" "") [] []
           (set_lambdaIAMRoleNameMap
              (demoContext false [demoNamed "f1" "lambda-role"; demoNamed "f2" ""] None)
              {["lambda-role" := Literal "arn:aws:iam::role/lambda-role"]})).
  - reflexivity.
  - reflexivity.
  - reflexivity.
  - reflexivity.
Defined.

(** X18: when IAM does not return the role a descriptor names (a name
    that no earlier descriptor has resolved), the role verification step logs the error and returns it with no next
    step; the descriptors after it are not examined, and the context keeps
    what the descriptors before it have added. *)
Theorem verifyIAMRoles_missing_role C w ctx pre bad post h ctx1 h1 err :
  lambdaAWSInfos ctx = pre ++ bad :: post ->
  RoleName bad ≠ "" -> RoleDefinition bad = None ->
  forRange (verifyIAMRole w) pre (set_lambdaIAMRoleNameMap ctx ∅)
           (h ++ [EvLog InfoLevel "Verifying IAM Lambda execution roles" []]) =
    (Done (inl ctx1), h1) ->
  lambdaIAMRoleNameMap ctx1 !! RoleName bad = None ->
  iam_GetRole w (h1 ++ [EvLog DebugLevel ("Checking IAM RoleName: " +:+ RoleName bad) []])
              (RoleName bad) = inl err ->
  verifyIAMRoles_run C w ctx h =
    (Done (ctx1, None, Some err),
     h1 ++ [EvLog DebugLevel ("Checking IAM RoleName: " +:+ RoleName bad) [];
            EvIAMGetRole (RoleName bad);
            EvLog ErrorLevel err []]).
Proof.
  intros Hls Hname Hdef Hpre Hmap Hrole.
  unfold verifyIAMRoles_run. rewrite bind_logf, bind_unfold. simpl lambdaAWSInfos.
  rewrite Hls, forRange_app, Hpre. simpl forRange. rewrite bind_unfold.
  unfold verifyIAMRole at 1. rewrite Hdef, Hmap.
  rewrite bool_decide_true by done. simpl.
  rewrite bind_logf, bind_call, Hrole. run_m. by rewrite <- !app_assoc.
Qed.

Lemma verifyIAMRoles_missing_role_witness :
  verifyIAMRoles_run demoCollaborators noRoleWorld
    (demoContext false [demoDefined "f1" "RoleA"; demoNamed "f2" "lambda-role"] None) [] =
    (Done (set_lambdaIAMRoleNameMap
             (set_cfTemplate
                (demoContext false [demoDefined "f1" "RoleA"; demoNamed "f2" "lambda-role"]
                             None)
                (AddResource (setDescription NewTemplate "a service") "RoleA"
                             (toResource (demoRole "RoleA") [])))
             {["RoleA" := GetAtt "RoleA" "Arn"]},
           None, Some "NoSuchEntity"),
     [EvLog InfoLevel "Verifying IAM Lambda execution roles" []] ++
     [EvLog DebugLevel ("Checking IAM RoleName: " +:+ "lambda-role") [];
      EvIAMGetRole "lambda-role";
      EvLog ErrorLevel "NoSuchEntity" []]).
Proof.
  apply (verifyIAMRoles_missing_role demoCollaborators noRoleWorld
           (demoContext false [demoDefined "f1" "RoleA"; demoNamed "f2" "lambda-role"] None)
           [demoDefined "f1" "RoleA"] (demoNamed "f2" "lambda-role") [] []).
  - reflexivity.
  - discriminate.
  - reflexivity.
  - reflexivity.
  - reflexivity.
  - reflexivity.
Defined.

Lemma append_nil_r s : s +:+ "" = s.
Proof. induction s as [|c s IH]; [done|]. by rewrite append_cons, IH. Qed.

Lemma concat_cons x xs : String.concat "" (x :: xs) = x +:+ String.concat "" xs.
Proof. destruct xs; simpl; [by rewrite append_nil_r|done]. Qed.

Lemma forRange_appendProxyEntry ls s h :
  forRange appendProxyEntry ls s h =
    (Done (inl (s +:+ String.concat "" (forwarderLine <$> ls))),
     h ++ (registrationLog <$> ls)).
Proof.
  revert s h. induction ls as [|l ls IH]; intros s h.
  - simpl. by rewrite append_nil_r, app_nil_r.
  - cbn [forRange]. rewrite bind_unfold.
    change (appendProxyEntry s l h) with
      (Done (inl (s +:+ forwarderLine l) : string + unit), h ++ [registrationLog l]).
    cbv beta iota. rewrite IH, fmap_cons, concat_cons, append_assoc, <- app_assoc. done.
Qed.

(** X19: the index.js entry of the archive.  When the entry cannot be
    created the package step fails with the error naming index.js.
    Otherwise the step logs one registration per descriptor, in order, and
    copies into the entry the text made of the embedded index.js, the
    marker line, one forwarder line per descriptor in order, the name of
    the binary and the name of the service. *)
Theorem packageArchive_index_js C w ctx executableOutput tmpFile h :
  match zip_Create w h tmpFile "index.js" with
  | Some _ =>
      packageArchive C w ctx executableOutput tmpFile h =
        (Done (ctx, None, Some "Failed to create ZIP entry: index.js"),
         h ++ [EvZipCreate tmpFile "index.js"])
  | None =>
      exists t,
        (packageArchive C w ctx executableOutput tmpFile h).2 =
          h ++ [EvZipCreate tmpFile "index.js"] ++
          (registrationLog <$> lambdaAWSInfos ctx) ++
          [EvLog DebugLevel "Dynamically generated NodeJS adapter"
                 [("index.js", indexJSSource C ctx executableOutput)];
           EvCopy "index.js" (indexJSSource C ctx executableOutput)] ++ t
  end.
Proof.
  unfold packageArchive. rewrite bind_call.
  destruct (zip_Create w h tmpFile "index.js") as [e|]; [done|].
  rewrite bind_unfold, forRange_appendProxyEntry. cbv beta iota.
  rewrite bind_logf, bind_unfold.
  assert (Hsrc : (((escFSMustString C "/resources/index.js" +:+ nl +:+
             "// DO NOT EDIT - CONTENT UNTIL EOF IS AUTOMATICALLY GENERATED" +:+ nl) +:+
            String.concat "" (forwarderLine <$> lambdaAWSInfos ctx)) +:+
           "SPARTA_BINARY_NAME='" +:+ executableOutput +:+ "';" +:+ nl) +:+
          "SPARTA_SERVICE_NAME='" +:+ serviceName ctx +:+ "';" +:+ nl =
          indexJSSource C ctx executableOutput).
  { unfold indexJSSource. by rewrite !append_assoc. }
  rewrite Hsrc. unfold call at 1. cbv beta iota.
  lazymatch goal with
  | |- exists t, (?m ?h0).2 = _ =>
      assert (Hs : sat (fun _ : event => True) (fun _ : panic => True) anyResult m);
      [|destruct (Hs h0) as (t & E & _)]
  end.
  { unfold embedScript, embedNodeModule. repeat sat_walk ltac:(exact I) ltac:(exact I). }
  exists t. etrans; [exact E|]. by rewrite <- !app_assoc.
Qed.

(** ** The package step *)

(** One step through a computation whose intermediate results do not
    matter: the post-condition is met where the computation returns. *)
Ltac sat_run ev pn :=
  lazymatch goal with
  | |- sat _ _ _ (mret _) => apply sat_ret
  | |- sat _ _ _ (ret _) => apply sat_ret
  | |- sat _ _ _ (failStep _ _) => apply sat_ret
  | |- sat _ _ _ (call _ _ ≫= _) => eapply sat_bind; [apply sat_call_any; ev | intros ? ? _]
  | |- sat _ _ _ (emit _ ≫= _) => eapply sat_bind; [apply sat_emit; ev | intros ? ? _]
  | |- sat _ _ _ (logf _ _ _ ≫= _) => eapply sat_bind; [apply sat_logf; ev | intros ? ? _]
  | |- sat _ _ _ (history ≫= _) =>
      eapply (sat_bind anyResult); [by apply sat_history | intros ? ? _]
  | |- sat _ _ _ (_ ≫= _) => eapply (sat_bind anyResult); [| intros ? ? _]
  | |- sat _ _ _ (call _ _) => apply sat_call; [ev | intros ?]
  | |- sat _ _ _ (emit _) => apply sat_call; [ev | intros ?]
  | |- sat _ _ _ (logf _ _ _) => apply sat_call; [ev | intros ?]
  | |- sat _ _ _ (raise _) => apply sat_raise; pn
  | |- sat _ _ _ diverge => apply sat_diverge
  | |- sat _ _ _ (if negb ?x then _ else _) => destruct x eqn:?; simpl negb; cbv iota
  | |- sat _ _ _ (match ?x with _ => _ end) => destruct x eqn:?
  end.








Lemma sameExcept_refl k t : sameExcept k t t.
Proof. by repeat split. Qed.

Lemma sameExcept_trans k t1 t2 t3 :
  sameExcept k t1 t2 -> sameExcept k t2 t3 -> sameExcept k t1 t3.
Proof.
  intros (D1 & L1 & O1 & S1) (D2 & L2 & O2 & S2).
  split; [congruence|]. split; [|split; congruence].
  intros k' Hk. by rewrite L2, L1.
Qed.

Lemma insertMetadata_sameExcept C t k key v : sameExcept k t (insertMetadata C t k key v).
Proof.
  unfold insertMetadata. destruct (Resources t !! k) as [r|] eqn:Hr;
    [|apply sameExcept_refl].
  split; [|split; [|done]]; simpl.
  - apply dom_insert_lookup_L. by eexists.
  - intros k' Hk. by rewrite lookup_insert_ne.
Qed.

Lemma exchangeDependency_sameExcept C k t0 t key :
  sameExcept k t0 t ->
  sat (fun _ => True) (fun _ => True)
      (fun r _ => match r with inl t' => sameExcept k t0 t' | inr _ => False end)
      (exchangeDependency C k t key).
Proof.
  intros Hs. unfold exchangeDependency.
  repeat sat_run ltac:(exact I) ltac:(exact I); try done.
  eapply sameExcept_trans; [exact Hs|apply insertMetadata_sameExcept].
Qed.

Lemma exchangeOutputs_frame C t0 t k r :
  onlyFunctionsTouched t0 t -> Resources t0 !! k = Some r ->
  sat (fun _ => True) (fun _ => True)
      (fun res _ => match res with inl t' => onlyFunctionsTouched t0 t' | inr _ => False end)
      (exchangeOutputs C t (k, r)).
Proof.
  intros Hf Hk. unfold exchangeOutputs. case_bool_decide as Hty; [|by apply sat_ret].
  assert (Hstep : forall t', sameExcept k t t' -> onlyFunctionsTouched t0 t').
  { intros t' (D & L & O & S). destruct Hf as (D0 & L0 & O0 & S0).
    split; [congruence|]. split; [|split; congruence].
    intros k' r' Hr' Hty'. rewrite L; [by apply L0|].
    intros ->. rewrite Hk in Hr'. by simplify_eq. }
  eapply sat_bind.
  - apply (sat_forRange (sameExcept k t) (fun _ => False)); [|apply sameExcept_refl].
    intros t' key Ht' _. by apply exchangeDependency_sameExcept.
  - intros [t'|[]] t1 H1; [|done]. apply sat_ret. apply Hstep.
    repeat (eapply sameExcept_trans; [|apply insertMetadata_sameExcept]). exact H1.
Qed.

Lemma exchangeOutputs_returns C t entry : returns (exchangeOutputs C t entry).
Proof. unfold exchangeOutputs, exchangeDependency. repeat returns_walk. Qed.

(** X22: the pass of the final step that hands the outputs of the
    dependencies to the Lambda functions always completes, only logs, and
    keeps the set of resource names, every resource that is not a Lambda
    function, the outputs and the description of the template. *)
Theorem exchange_pass_touches_only_functions C t h :
  exists t' tr,
    forRange (exchangeOutputs C) (map_to_list (Resources t)) t h = (Done (inl t'), h ++ tr) /\
    Forall (fun e => is_log e = true) tr /\
    onlyFunctionsTouched t t'.
Proof.
  destruct (sat_returns (fun e => is_log e = true) (fun _ => True)
              (fun res _ => match res with
                            | inl t' => onlyFunctionsTouched t t'
                            | inr _ => False
                            end)
              (forRange (exchangeOutputs C) (map_to_list (Resources t)) t) h)
    as ([t'|[]] & tr & E & F & Hpost); try done.
  - eapply sat_events.
    + unfold exchangeOutputs, exchangeDependency. repeat sat_walk ltac:(done) ltac:(exact I).
    + apply (sat_forRange (onlyFunctionsTouched t) (fun _ => False)); [|by repeat split].
      intros t1 [k r] Ht1 Hin. apply exchangeOutputs_frame; [done|].
      by apply elem_of_map_to_list in Hin.
  - apply returns_forRange. intros. apply exchangeOutputs_returns.
  - by exists t', tr.
Qed.

(** ** The template upload *)

(** X23: in a live run, when the upload of the template fails the
    final step returns that error and the context is unchanged; once the
    template has been uploaded, the context the step returns is the given
    one with one more rollback function, the deletion of the uploaded
    template, whether or not the stack converges. *)
Theorem uploadAndConverge_registers_template_rollback w ctx contentBody s3keyName h :
  noop ctx = false ->
  match s3_Upload w (h ++ [EvLog InfoLevel "Uploading CloudFormation template" []])
                  (s3Bucket ctx) s3keyName with
  | inl err =>
      uploadAndConverge w ctx contentBody s3keyName h =
        (Done (ctx, None, Some err),
         h ++ [EvLog InfoLevel "Uploading CloudFormation template" [];
               EvS3Upload (s3Bucket ctx) s3keyName "application/json"])
  | inr _ =>
      match (uploadAndConverge w ctx contentBody s3keyName h).1 with
      | Done (ctx', _, _) =>
          ctx' = registerRollback ctx (createS3RollbackFunc w (s3Bucket ctx) s3keyName false)
      | Panicked _ => False
      | Diverged => True
      end
  end.
Proof.
  intros Hlive. unfold uploadAndConverge, failStep. rewrite Hlive, bind_logf, bind_call.
  destruct (s3_Upload w _ (s3Bucket ctx) s3keyName) as [err|location].
  { run_m. by rewrite <- app_assoc. }
  rewrite bind_logf, bind_unfold.
  set (ctx' := registerRollback ctx _).
  pose proof (convergeStackState_outcome w location ctx'
                (((h ++ [EvLog InfoLevel "Uploading CloudFormation template" []]) ++
                  [EvS3Upload (s3Bucket ctx) s3keyName "application/json"]) ++
                 [EvLog InfoLevel "Template uploaded" [("URL", location)]])) as H.
  destruct (convergeStackState w location ctx' _) as [[[[stack|] [e|]]|p|] h'];
    run_m; simpl; done.
Qed.

Lemma uploadAndConverge_registers_template_rollback_witness :
  match s3_Upload demoWorld ([] ++ [EvLog InfoLevel "Uploading CloudFormation template" []])
                  (s3Bucket (demoContext false [] None)) "demo-cf.json" with
  | inl err =>
      uploadAndConverge demoWorld (demoContext false [] None) "{}" "demo-cf.json" [] =
        (Done (demoContext false [] None, None, Some err),
         [] ++ [EvLog InfoLevel "Uploading CloudFormation template" [];
                EvS3Upload (s3Bucket (demoContext false [] None)) "demo-cf.json"
                           "application/json"])
  | inr _ =>
      match (uploadAndConverge demoWorld (demoContext false [] None) "{}" "demo-cf.json"
                               []).1 with
      | Done (ctx', _, _) =>
          ctx' = registerRollback (demoContext false [] None)
                   (createS3RollbackFunc demoWorld (s3Bucket (demoContext false [] None))
                                         "demo-cf.json" false)
      | Panicked _ => False
      | Diverged => True
      end
  end.
Proof.
  apply (uploadAndConverge_registers_template_rollback demoWorld (demoContext false [] None)
           "{}" "demo-cf.json" []).
  reflexivity.
Defined.

(** ** The upload step *)







(** ** Roles are verified before anything is sent *)

Lemma notRemote_local e : classify e = KLocal -> classify e ≠ KRemote.
Proof. congruence. Qed.

(** X25: in every run of [Provision] the IAM role lookups all come
    before the first request to S3 or CloudFormation: the history of the
    run splits into a part with no such request followed by a part with no
    role lookup. *)
Theorem Provision_verifies_roles_first C w noop sn sd ls api site b tw h :
  exists t1 t2,
    (Provision C w noop sn sd ls api site b tw h).2 = h ++ t1 ++ t2 /\
    Forall (fun e => classify e ≠ KRemote) t1 /\
    Forall (fun e => classify e ≠ KGetRole) t2.
Proof.
  destruct (decide (ls = [])) as [->|Hls].
  { exists [EvTimeNow; EvAwsSession], []. rewrite Provision_empty by done.
    split; [done|]. split; [|done]. by repeat constructor. }
  rewrite Provision_nonempty by done.
  set (c0 := newContext noop sn sd ls api site b tw).
  set (h1 := h ++ [EvTimeNow; EvAwsSession]).
  unfold verifyIAMRoles. rewrite runWorkflow_unfold, bind_unfold.
  pose proof (verifyIAMRoles_sat C w (fun e => classify e ≠ KRemote) tw notRemote_local
                noop c0 (fun n => ltac:(done)) (newContext_inv w tw noop _ _ _ _ _ _) h1)
    as (t1 & E1 & F1 & Post).
  assert (Hpre : Forall (fun e => classify e ≠ KRemote) ([EvTimeNow; EvAwsSession] ++ t1)).
  { apply Forall_app. split; [by repeat constructor|done]. }
  destruct (verifyIAMRoles_run C w c0 h1) as [[[[c1 n] err]|p|] h2]; simpl in *;
    subst h2; subst h1;
    try (exists ([EvTimeNow; EvAwsSession] ++ t1), []; rewrite app_nil_r, app_assoc;
         by split).
  destruct Post as [Hinv Hnext].
  destruct err as [e|].
  - destruct (rollback_sat w (fun e => classify e ≠ KGetRole) tw notGetRole_local
                noop c1 (notGetRole_remote noop) Hinv
                ((h ++ [EvTimeNow; EvAwsSession]) ++ t1)) as (t2 & E2 & F2 & _).
    exists ([EvTimeNow; EvAwsSession] ++ t1), t2. split; [|by split].
    transitivity (((h ++ [EvTimeNow; EvAwsSession]) ++ t1) ++ t2);
      [|by rewrite <- !app_assoc].
    destruct n; rewrite bind_unfold;
      by destruct (rollback w c1 _) as [[[]|p|] h3]; simpl in *; subst h3.
  - pose proof (Hnext eq_refl) as Hn. simpl in Hn. subst n.
    destruct (runWorkflow_package_sat C w (fun e => classify e ≠ KGetRole) tw
                notGetRole_local noop (fun _ _ => True) c1
                (runPost_top) (notGetRole_remote noop) Hinv) with
      (h := (h ++ [EvTimeNow; EvAwsSession]) ++ t1) as (t2 & E2 & F2 & _).
    + intros ctx' Hinv'. eapply sat_mono.
      * by apply (ensureCloudFormationStack_sat C w _ tw notGetRole_local noop
                    ctx' (notGetRole_remote noop)).
      * intros r t Hr. by split.
    + exists ([EvTimeNow; EvAwsSession] ++ t1), t2. split; [|by split].
      rewrite E2. by rewrite <- !app_assoc.
Qed.

(** ** One stack request *)

Lemma mret_run {A} (a : A) h : (mret a : M A) h = (Done a, h).
Proof. reflexivity. Qed.

Lemma stackRequests_app t1 t2 : stackRequests (t1 ++ t2) = stackRequests t1 ++ stackRequests t2.
Proof. apply filter_app. Qed.

Lemma stackRequests_none t :
  Forall (fun e => is_stack_request e = false) t -> stackRequests t = [].
Proof.
  induction 1 as [|e t He _ IH]; [done|]. unfold stackRequests in *.
  rewrite filter_cons_False; [done|]. by rewrite He.
Qed.

Lemma pollLoop_no_request w fuel exists_ stackID succeeded :
  sat (fun e => is_stack_request e = false) (fun _ => True) anyResult
      (pollLoop w fuel exists_ stackID succeeded).
Proof.
  revert succeeded. induction fuel as [|fuel IH]; intros succeeded; simpl;
    repeat sat_walk ltac:(reflexivity) ltac:(exact I). apply IH.
Qed.

Lemma stackEvents_loop_no_request w fuel stackID nextToken events :
  sat (fun e => is_stack_request e = false) (fun _ => True) anyResult
      (stackEvents_loop w fuel stackID nextToken events).
Proof.
  revert nextToken events. induction fuel as [|fuel IH]; intros nextToken events; simpl;
    repeat sat_walk ltac:(reflexivity) ltac:(exact I). apply IH.
Qed.

(** X11: [convergeStackState] sends at most one request that changes
    the stack: an update when the stack was described, a creation (timeout
    5 minutes, deleted on failure) when the description failed because the
    stack does not exist, and none when the description failed otherwise.
    Both requests carry the capabilities computed from the template. *)
Theorem convergeStackState_one_request w cfTemplateURL ctx h :
  exists t,
    (convergeStackState w cfTemplateURL ctx h).2 = h ++ t /\
    stackRequests t =
      match cf_DescribeStacks w h (serviceName ctx) with
      | inr _ =>
          [EvCFUpdateStack (serviceName ctx) cfTemplateURL
                           (stackCapabilities (cfTemplate ctx))]
      | inl err =>
          if strings_Contains err "does not exist"
          then [EvCFCreateStack (serviceName ctx) cfTemplateURL 5 "DELETE"
                                (stackCapabilities (cfTemplate ctx))]
          else []
      end.
Proof.
  assert (Hrest : forall exists_ (issued : error + string) h0,
    exists t3,
      (match issued with
       | inl e => mret (None, Some e)
       | inr stackID =>
           pollLoop w (loopFuel w) exists_ stackID false ≫= λ polled,
             match polled with
             | inl (stackInfo, true) =>
                 runAll (logStackOutput <$> StackOutputs stackInfo) ≫= λ _ : (),
                   mret (Some stackInfo, None)
             | inl (stackInfo, false) =>
                 stackEvents w stackID ≫= λ '(events, err),
                   match err with
                   | Some e => mret (None, Some e)
                   | None =>
                       logf ErrorLevel "Stack provisioning error" [] ≫= λ _ : (),
                         runAll (logFailedEvent <$> events) ≫= λ _ : (),
                           mret (None, Some ("Failed to provision: " +:+ serviceName ctx))
                   end
             | inr e => mret (None, Some e)
             end
       end h0).2 = h0 ++ t3 /\ stackRequests t3 = []).
  { intros exists_ issued h0.
    lazymatch goal with
    | |- exists t3, (?m h0).2 = _ /\ _ =>
        assert (Hs : sat (fun e => is_stack_request e = false) (fun _ => True) anyResult m);
        [|destruct (Hs h0) as (t3 & E & F & _)]
    end.
    { unfold stackEvents, logFailedEvent, logStackOutput.
      repeat sat_walk ltac:(reflexivity) ltac:(exact I);
        first [apply pollLoop_no_request|apply stackEvents_loop_no_request]. }
    exists t3. split; [exact E|by apply stackRequests_none]. }
  unfold convergeStackState. rewrite bind_unfold.
  unfold stackExists at 1. rewrite bind_call, bind_logf.
  set (caps := stackCapabilities (cfTemplate ctx)).
  set (described := [EvCFDescribeStacks (serviceName ctx);
                     EvLog DebugLevel "DescribeStackOutput results" []]).
  replace ((h ++ [EvCFDescribeStacks (serviceName ctx)]) ++
           [EvLog DebugLevel "DescribeStackOutput results" []])
    with (h ++ described) by (by rewrite <- app_assoc).
  destruct (cf_DescribeStacks w h (serviceName ctx)) as [err|stacks]; cbv beta iota.
  - rewrite bind_logf.
    set (missing := [EvLog DebugLevel "DescribeStackOutput"
                           [("DescribeStackOutputError", err)]]).
    destruct (strings_Contains err "does not exist").
    + rewrite mret_run. cbv beta iota. rewrite bind_unfold, bind_call.
      set (create := EvCFCreateStack (serviceName ctx) cfTemplateURL 5 OnFailureDelete caps).
      destruct (cf_CreateStack w _ (serviceName ctx) cfTemplateURL caps)
        as [e|stackID].
      * rewrite mret_run. cbv beta iota. rewrite mret_run.
        exists (described ++ missing ++ [create]).
        split; [simpl; by rewrite <- !app_assoc|reflexivity].
      * rewrite bind_logf, mret_run. cbv beta iota.
        set (created := [EvLog InfoLevel "Creating stack" [("StackID", stackID)]]).
        destruct (Hrest false (inr stackID)
                    ((((h ++ described) ++ missing) ++ [create]) ++ created))
          as (t3 & E & Hnone).
        exists ((described ++ missing ++ [create] ++ created) ++ t3). split.
        { etrans; [exact E|]. by rewrite <- !app_assoc. }
        rewrite stackRequests_app, Hnone. reflexivity.
    + rewrite !mret_run. cbv beta iota.
      exists (described ++ missing). split; [simpl; by rewrite <- !app_assoc|reflexivity].
  - rewrite mret_run. cbv beta iota. rewrite bind_unfold, bind_call.
    set (update := EvCFUpdateStack (serviceName ctx) cfTemplateURL caps).
    destruct (cf_UpdateStack w _ (serviceName ctx) cfTemplateURL caps)
      as [e|stackID].
    + rewrite mret_run. cbv beta iota. rewrite mret_run.
      exists (described ++ [update]). split; [simpl; by rewrite <- !app_assoc|reflexivity].
    + rewrite bind_logf, mret_run. cbv beta iota.
      set (issued := [EvLog InfoLevel "Issued stack update request" [("StackID", stackID)]]).
      destruct (Hrest true (inr stackID) (((h ++ described) ++ [update]) ++ issued))
        as (t3 & E & Hnone).
      exists ((described ++ [update] ++ issued) ++ t3). split.
      { etrans; [exact E|]. by rewrite <- !app_assoc. }
      rewrite stackRequests_app, Hnone. reflexivity.
Qed.
